(** * The site crawler and FAQ dataset builder

    A shallow embedding of the crawler script (URL normaliser, content
    extractor, frontier manager, dataset builder and the [main] driver)
    together with the properties its specification states.

    Conventions.
    - A JavaScript string is the list of its UTF-16 code units, so that
      [length] is the [.length] of the source.
    - A JavaScript number that comes from the configuration is a rational
      ([Q]); lengths and indices are integers ([Z]).
    - The platform (URL parser, HTML parser, network, headless browser,
      file system, case mapping) is a parameter of the sections that
      use it. *)

From Stdlib Require Import String Ascii.
From Stdlib Require Import Bool List ZArith NArith QArith Qround Lia.
From Stdlib Require Import Permutation.
From Stdlib Require Import DecimalString.
Import ListNotations.
Local Open Scope Z_scope.

(** ** JavaScript strings and arrays *)

Module Js.

(** One UTF-16 code unit. *)
Definition codeunit := N.
Definition jsstring := list codeunit.

(** An ASCII literal as a JavaScript string. *)
Definition lit (s : String.string) : jsstring :=
  List.map N_of_ascii (list_ascii_of_string s).

(** [s.length] *)
Definition len {A} (l : list A) : Z := Z.of_nat (List.length l).

(** [a === b] on strings. *)
Fixpoint eqb (a b : jsstring) : bool :=
  match a, b with
  | [], [] => true
  | x :: a', y :: b' => N.eqb x y && eqb a' b'
  | _, _ => false
  end.

(** Truthiness of a string: the empty string is falsy. *)
Definition truthy (s : jsstring) : bool :=
  match s with [] => false | _ :: _ => true end.

(** [a || b] on strings. *)
Definition or_else (a b : jsstring) : jsstring :=
  if truthy a then a else b.

(** The characters matched by [\s], which are also the ones [trim]
    removes: WhiteSpace and LineTerminator of ECMAScript. *)
Definition isWhiteSpace (c : codeunit) : bool :=
  ((9 <=? c) && (c <=? 13) || (c =? 32) || (c =? 160) || (c =? 5760)
   || (8192 <=? c) && (c <=? 8202) || (c =? 8232) || (c =? 8233)
   || (c =? 8239) || (c =? 8287) || (c =? 12288) || (c =? 65279))%N.

Fixpoint dropWhile {A} (p : A -> bool) (l : list A) : list A :=
  match l with
  | [] => []
  | x :: l' => if p x then dropWhile p l' else l
  end.

Definition dropWhileEnd {A} (p : A -> bool) (l : list A) : list A :=
  rev (dropWhile p (rev l)).

(** [s.trim()] *)
Definition trim (s : jsstring) : jsstring :=
  dropWhileEnd isWhiteSpace (dropWhile isWhiteSpace s).

(** ToIntegerOrInfinity on a finite number: truncation towards zero. *)
Definition toInteger (q : Q) : Z := Z.quot (Qnum q) (Z.pos (Qden q)).

(** A relative index of [slice] and [splice] clamped into [0..n]. *)
Definition clampIndex (n i : Z) : Z :=
  if i <? 0 then Z.max (n + i) 0 else Z.min i n.

(** [l.slice(start, end)] for arrays and strings alike. *)
Definition slice {A} (l : list A) (start stop : Z) : list A :=
  let from := clampIndex (len l) start in
  let to := clampIndex (len l) stop in
  firstn (Z.to_nat (Z.max (to - from) 0)) (skipn (Z.to_nat from) l).

(** [l.splice(0, deleteCount)]: the removed prefix and what stays. *)
Definition splice0 {A} (l : list A) (deleteCount : Q) : list A * list A :=
  let k := Z.to_nat (Z.min (Z.max (toInteger deleteCount) 0) (len l)) in
  (firstn k l, skipn k l).

(** [s.lastIndexOf(c)] for a needle of one unit; [-1] when absent. *)
Fixpoint lastIndexOfFrom (c : codeunit) (s : jsstring) (i : Z) (found : Z) : Z :=
  match s with
  | [] => found
  | x :: s' => lastIndexOfFrom c s' (i + 1) (if N.eqb x c then i else found)
  end.

Definition lastIndexOf (s : jsstring) (c : codeunit) : Z :=
  lastIndexOfFrom c s 0 (-1).

(** [s.startsWith(p)] *)
Fixpoint startsWith (s p : jsstring) {struct p} : bool :=
  match p, s with
  | [], _ => true
  | y :: p', x :: s' => N.eqb x y && startsWith s' p'
  | _ :: _, [] => false
  end.

(** [s.endsWith(p)] *)
Definition endsWith (s p : jsstring) : bool :=
  startsWith (rev s) (rev p).

(** [a.includes(x)] and [set.has(x)] on strings. *)
Definition includes (l : list jsstring) (x : jsstring) : bool :=
  existsb (eqb x) l.

(** [chunks.join(sep)] *)
Fixpoint join (sep : jsstring) (l : list jsstring) : jsstring :=
  match l with
  | [] => []
  | [x] => x
  | x :: l' => x ++ sep ++ join sep l'
  end.

(** A [Set] of strings keeps its members in insertion order and holds
    each of them once. *)
Definition StringSet := list jsstring.
Definition has (s : StringSet) (x : jsstring) : bool := includes s x.
Definition add (s : StringSet) (x : jsstring) : StringSet :=
  if has s x then s else s ++ [x].

(** [a < b] and [a >= b] between numbers. *)
Definition ltb (a b : Q) : bool := negb (Qle_bool b a).
Definition geb (a b : Q) : bool := Qle_bool b a.

(** [String(n)] for a non-negative integer. *)
Definition ofNat (n : nat) : jsstring :=
  lit (NilEmpty.string_of_uint (Nat.to_uint n)).

End Js.

Import Js.

Notation "'js' s" := (Js.lit s%string) (at level 9, s at level 0, only parsing).

(** ** Text helpers of the script *)

Definition SPACE : codeunit := 32%N.
Definition PERIOD : codeunit := 46%N.
(** U+2026, the horizontal ellipsis. *)
Definition ELLIPSIS : codeunit := 8230%N.
(** U+200B, the zero width space. *)
Definition ZWSP : codeunit := 8203%N.

(** [str.replace(/C+/g, r)] for a class [C] of units: each maximal run
    of units of the class becomes the one unit [r].  [inRun] tells that
    the previous unit was in the class. *)
Fixpoint replaceRuns (C : codeunit -> bool) (r : codeunit) (inRun : bool)
  (s : jsstring) : jsstring :=
  match s with
  | [] => []
  | c :: s' =>
      if C c
      then (if inRun then replaceRuns C r true s'
            else r :: replaceRuns C r true s')
      else c :: replaceRuns C r false s'
  end.

(** [str.replace(/\s+/g, ' ')] *)
Definition collapseSpaces (s : jsstring) : jsstring :=
  replaceRuns isWhiteSpace SPACE false s.

(** [str.replace(/\u200B/g, '')] *)
Definition removeZwsp (s : jsstring) : jsstring :=
  filter (fun c => negb (N.eqb c ZWSP)) s.

Definition cleanText (str : jsstring) : jsstring :=
  trim (removeZwsp (collapseSpaces str)).

(** [cleanText] of a value that may be [undefined]: the parameter
    defaults to the empty string. *)
Definition cleanTextOpt (str : option jsstring) : jsstring :=
  cleanText (match str with Some s => s | None => [] end).

(** The marker appended to a shortened text: a space and an ellipsis. *)
Definition MARK : jsstring := [SPACE; ELLIPSIS].

(** [truncate(text, max)].  The callers pass the integer literals 320,
    600 and 1200.  The source compares [lastPeriod] with the
    floating-point product [max * 0.6]; the product is taken exactly
    here, which gives the same comparison for these bounds. *)
Definition truncate (text : jsstring) (max : Z) : jsstring :=
  if negb (truthy text) || (len text <=? max) then text
  else
    let shortened := slice text 0 max in
    let lastPeriod := lastIndexOf shortened PERIOD in
    if ltb (inject_Z max * (6 # 10)) (inject_Z lastPeriod)
    then trim (slice shortened 0 (lastPeriod + 1)) ++ MARK
    else trim shortened ++ MARK.

(** [text.split(/\s+/)]: the pieces between maximal runs of white
    space, empty pieces at the ends included.  [cur] is the current
    piece, reversed. *)
Fixpoint splitRuns (inRun : bool) (cur : jsstring) (s : jsstring)
  : list jsstring :=
  match s with
  | [] => [rev cur]
  | c :: s' =>
      if isWhiteSpace c
      then (if inRun then splitRuns true cur s'
            else rev cur :: splitRuns true [] s')
      else splitRuns false (c :: cur) s'
  end.

Definition splitSpaces (s : jsstring) : list jsstring := splitRuns false [] s.

Definition countWords (text : jsstring) : Z :=
  len (filter truthy (splitSpaces (cleanText text))).

(** ** Data model *)

Record Section_ := mkSection {
  heading : jsstring;
  content : jsstring;
  snippet : jsstring
}.

Record Page := mkPage {
  url : jsstring;
  title : jsstring;
  description : jsstring;
  summary : jsstring;
  sections : list Section_;
  links : list jsstring;
  wordCount : Z
}.

(** ** The render-need heuristic *)

Definition needsBrowserRender (page : Page) : bool :=
  let summaryLength := if truthy (summary page) then len (summary page) else 0 in
  let wordCount := if wordCount page =? 0 then 0 else wordCount page in
  (len (sections page) =? 0) && ((summaryLength <? 160) || (wordCount <? 40)).

(** ** Configuration *)

Module Config.

Record SpaView := mkSpaView { id : jsstring; label : jsstring }.

Record t := mk {
  url : jsstring;
  origin : jsstring;
  siteName : jsstring;
  maxPages : Q;
  maxFaqs : Q;
  concurrency : Q;
  requestTimeout : Q;
  pauseMs : Q;
  minSectionChars : Q;
  browserTimeout : Q;
  renderWithBrowser : bool;
  seedUrls : list jsstring;
  spaViews : list SpaView;
  userAgent : jsstring;
  outputPath : jsstring
}.

(** The numeric part of [DEFAULTS]. *)
Definition DEFAULT_maxPages : Q := 20.
Definition DEFAULT_maxFaqs : Q := 80.
Definition DEFAULT_concurrency : Q := 2.
Definition DEFAULT_minSectionChars : Q := 180.

(** [toNumber(value, fallback)].  [num] is [Number(value)] when that is
    finite, and [None] when it is [NaN] or infinite. *)
Definition toNumber (num : option Q) (fallback : Q) : Q :=
  match num with
  | Some n => if ltb 0 n then n else fallback
  | None => fallback
  end.

Definition Qmin (a b : Q) : Q := if Qle_bool a b then a else b.
Definition Qmax (a b : Q) : Q := if Qle_bool a b then b else a.

(** The [concurrency] entry of [buildConfig]. *)
Definition concurrencyOf (num : option Q) : Q :=
  Qmin (Qmax (toNumber num DEFAULT_concurrency) 1) 5.

End Config.

(** ** Parsed HTML

    What [cheerio.load] returns, reduced to the two kinds of node the
    script looks at.  Tag and attribute names are the parser's, that is,
    in lower case for HTML. *)

#[warnings="-register-all"]
Inductive node : Type :=
| Text (data : jsstring)
| Element (name : jsstring) (attribs : list (jsstring * jsstring))
          (children : list node).

(** The children of the document root. *)
Definition Document := list node.

(** Every element below the nodes [l], in document order, each with
    the siblings that follow it. *)
Definition walkWith (below : node -> list (node * list node))
  : list node -> list (node * list node) :=
  fix walk (l : list node) :=
    match l with
    | [] => []
    | Text _ :: rest => walk rest
    | (Element _ _ _ as el) :: rest => (el, rest) :: below el ++ walk rest
    end.

Fixpoint below (n : node) : list (node * list node) :=
  match n with
  | Text _ => []
  | Element _ _ cs => walkWith below cs
  end.

Definition elements (doc : Document) : list (node * list node) :=
  walkWith below doc.

Definition nameOf (n : node) : jsstring :=
  match n with Text _ => [] | Element nm _ _ => nm end.

(** [$(el).attr(key)]; [None] is [undefined]. *)
Fixpoint lookupAttr (key : jsstring) (l : list (jsstring * jsstring))
  : option jsstring :=
  match l with
  | [] => None
  | (k, v) :: l' => if eqb k key then Some v else lookupAttr key l'
  end.

Definition attr (n : node) (key : jsstring) : option jsstring :=
  match n with Text _ => None | Element _ a _ => lookupAttr key a end.

(** [$(el).text()]: the text of all descendants, concatenated. *)
Fixpoint text (n : node) : jsstring :=
  match n with
  | Text d => d
  | Element _ _ cs => flat_map text cs
  end.

(** [$(sel)] for a selector that tests each element on its own. *)
Definition select (matches : node -> bool) (doc : Document)
  : list (node * list node) :=
  filter (fun e => matches (fst e)) (elements doc).

(** [$(sel).text()]: the texts of all matched elements, concatenated. *)
Definition selectText (matches : node -> bool) (doc : Document) : jsstring :=
  flat_map (fun e => text (fst e)) (select matches doc).

(** The selector of one tag name. *)
Definition tag (nm : String.string) (n : node) : bool := eqb (nameOf n) (js nm).

(** [h1, h2, h3] *)
Definition isHeadingTag (n : node) : bool := tag "h1" n || tag "h2" n || tag "h3" n.

(** [/^h[1-3]$/i.test(name)] *)
Definition isHeadingName (nm : jsstring) : bool :=
  match nm with
  | [c; d] => ((c =? 104) || (c =? 72)) && (49 <=? d) && (d <=? 51)
  | _ => false
  end%N.

(** ** Content extractor *)

(** The [while] loop of the heading scan: the cleaned, non-empty texts
    of the element siblings that follow a heading, up to the next
    sibling that is itself a heading.  [.next()] skips text nodes. *)
Fixpoint chunksOf (siblings : list node) : list jsstring :=
  match siblings with
  | [] => []
  | Text _ :: rest => chunksOf rest
  | (Element nm _ _ as next) :: rest =>
      if isHeadingName nm then []
      else
        let t := cleanText (text next) in
        if truthy t then t :: chunksOf rest else chunksOf rest
  end.

(** The body of [$('h1, h2, h3').each]. *)
Definition headingSection (minChars : Q) (e : node * list node)
  : list Section_ :=
  let heading := cleanText (text (fst e)) in
  if negb (truthy heading) then []
  else
    let content := join [SPACE] (chunksOf (snd e)) in
    if ltb (inject_Z (len content)) minChars then []
    else [mkSection heading content (truncate content 320)].

(** The body of [$('p').each], for the paragraph at position [index]. *)
Definition paragraphSection (minChars : Q) (index : nat) (el : node)
  : list Section_ :=
  let paragraph := cleanText (text el) in
  if ltb (inject_Z (len paragraph)) minChars then []
  else [mkSection (js "Key Insight " ++ ofNat (index + 1)) paragraph
                  (truncate paragraph 320)].

Fixpoint eachIndexed {A B} (f : nat -> A -> list B) (index : nat) (l : list A)
  : list B :=
  match l with
  | [] => []
  | x :: l' => f index x ++ eachIndexed f (S index) l'
  end.

Definition extractSections (doc : Document) (minChars : Q) : list Section_ :=
  let sections := flat_map (headingSection minChars) (select isHeadingTag doc) in
  let sections :=
    if len sections =? 0
    then eachIndexed (paragraphSection minChars) 0
           (List.map fst (select (tag "p") doc))
    else sections in
  if len sections =? 0
  then
    let bodyText := cleanText (selectText (tag "body") doc) in
    if geb (inject_Z (len bodyText)) minChars
    then [mkSection (js "Site Overview") bodyText (truncate bodyText 320)]
    else []
  else sections.

(** A section is long enough for the minimum [minChars]. *)
Definition longEnough (minChars : Q) (s : Section_) : Prop :=
  (minChars <= inject_Z (len (content s)))%Q.

Definition buildSummary (doc : Document) (sections : list Section_) : jsstring :=
  let primary := trim (join [SPACE] (List.map content sections)) in
  let fallback :=
    or_else (cleanText (selectText (tag "main") doc))
            (cleanText (selectText (tag "body") doc)) in
  let text := if 250 <? len primary then primary else fallback in
  if negb (truthy text) then [] else truncate text 600.

(** ** URL records

    The record behind a [URL] object, with the getters and setters the
    script uses.  A string becomes a record through the platform's
    parser (see [Platform]). *)

Module URL.

Record t := mk {
  scheme : jsstring;            (* without the colon *)
  credentials : jsstring;       (* user and password, serialised; may be empty *)
  host : option jsstring;       (* host and port, serialised; None is a null host *)
  opaque : bool;                (* the path is an opaque string *)
  pathname : jsstring;
  query : option jsstring;      (* without the question mark *)
  fragment : option jsstring    (* without the number sign *)
}.

Definition COLON : codeunit := 58%N.
Definition SLASH : codeunit := 47%N.
Definition QUESTION : codeunit := 63%N.
Definition HASH : codeunit := 35%N.
Definition AT : codeunit := 64%N.

(** [url.toString()], the URL serialiser. *)
Definition toString (u : t) : jsstring :=
  scheme u ++ [COLON]
  ++ match host u with
     | Some h =>
         [SLASH; SLASH]
         ++ (if truthy (credentials u) then credentials u ++ [AT] else [])
         ++ h
     | None =>
         if negb (opaque u) && startsWith (pathname u) [SLASH; SLASH]
         then [SLASH; PERIOD] else []
     end
  ++ pathname u
  ++ match query u with Some q => QUESTION :: q | None => [] end
  ++ match fragment u with Some f => HASH :: f | None => [] end.

(** What [url.hash = ''] leaves of the path: an opaque path that no
    query follows loses the spaces at its end, which nothing protects
    once the fragment is gone. *)
Definition strippedPath (u : t) : jsstring :=
  if opaque u && match query u with None => true | Some _ => false end
  then dropWhileEnd (N.eqb SPACE) (pathname u)
  else pathname u.

(** [url.hash = ''] *)
Definition clearHash (u : t) : t :=
  mk (scheme u) (credentials u) (host u) (opaque u) (strippedPath u) (query u)
     None.

(** [url.pathname = value].  Nothing happens on an opaque path.  The
    setter parses [value] as a path; the script passes the record's
    own path less its final slash, which parses to itself. *)
Definition setPathname (u : t) (value : jsstring) : t :=
  if opaque u then u
  else mk (scheme u) (credentials u) (host u) (opaque u) value (query u)
          (fragment u).

(** The schemes whose origin is the (scheme, host, port) tuple. *)
Definition hasTupleOrigin (s : jsstring) : bool :=
  eqb s (js "http") || eqb s (js "https") || eqb s (js "ws")
  || eqb s (js "wss") || eqb s (js "ftp").

(** [url.origin] *)
Definition origin (u : t) : jsstring :=
  match host u with
  | Some h =>
      if hasTupleOrigin (scheme u)
      then scheme u ++ [COLON; SLASH; SLASH] ++ h
      else js "null"
  | None => js "null"
  end.

End URL.

(** ** Output records *)

Record FaqEntry := mkFaq {
  question : jsstring;
  answer : jsstring;
  sourceUrl : jsstring;
  tags : list jsstring
}.

Module Dataset.

Record Source := mkSource { url : jsstring; siteName : jsstring }.

Record ConfigSnapshot := mkSnapshot {
  maxPages : Q;
  maxFaqs : Q;
  minSectionChars : Q
}.

(** The integer entries of [buildMetrics].  The three ratios
    ([avgAnswerWords], [estimatedAnswerTokens], [coverageScore]) are
    floating-point values and are left out. *)
Record Metrics := mkMetrics {
  pagesCrawled : Z;
  sectionsExtracted : Z;
  totalFaqs : Z
}.

Record ReportLine := mkReport {
  reportUrl : jsstring;
  reportTitle : jsstring;
  reportSections : Z;
  hasSummary : bool
}.

Record t := mk {
  generatedAt : jsstring;
  source : Source;
  config : ConfigSnapshot;
  metrics : Metrics;
  faqs : list FaqEntry;
  crawlReport : list ReportLine
}.

End Dataset.

(** ** The platform

    What the script gets from its runtime and its libraries.  Each entry
    is a total function: a call that throws or rejects returns [None]. *)

Record Response := mkResponse {
  data : option jsstring;       (* [response.data] when it is a string *)
  status : Z
}.

Class Platform := {
  (** [new URL(input)] *)
  parseURL : jsstring -> option URL.t;
  (** [new URL(raw, base)] *)
  resolveURL : jsstring -> jsstring -> option URL.t;
  (** [url.searchParams.get(name)]; [None] is [null] *)
  searchParamsGet : URL.t -> jsstring -> option jsstring;
  (** [cheerio.load(html)] *)
  load : jsstring -> Document;
  (** [s.toLowerCase()] *)
  toLowerCase : jsstring -> jsstring;
  (** [axios.get(url, ...)] with the options [fetchHtml] gives it *)
  httpGet : Config.t -> jsstring -> option Response;
  (** [fetchRenderedHtml(url, config)], the headless browser session *)
  fetchRenderedHtml : jsstring -> Config.t -> option jsstring;
  (** [new Date().toISOString()] *)
  now : jsstring;
  (** [writeOutput(path, data)]: [None] on success, the message of the
      error otherwise *)
  writeOutput : jsstring -> Dataset.t -> option jsstring
}.

(** ** The script over a platform *)

Section Script.

Context `{Platform}.

(** *** Normaliser *)

(** What [normalizeUrl] does to the parsed record. *)
Definition normalizeRecord (url : URL.t) : URL.t :=
  let url := URL.clearHash url in
  if negb (eqb (URL.pathname url) [URL.SLASH])
     && endsWith (URL.pathname url) [URL.SLASH]
  then URL.setPathname url (slice (URL.pathname url) 0 (-1))
  else url.

(** [normalizeUrl(input)]; [None] is [null]. *)
Definition normalizeUrl (input : jsstring) : option jsstring :=
  match parseURL input with
  | Some url => Some (URL.toString (normalizeRecord url))
  | None => None
  end.

Definition getSpaViewId (url : jsstring) : option jsstring :=
  match parseURL url with
  | Some parsed => searchParamsGet parsed (js "__spaView")
  | None => None
  end.

(** *** Fetcher *)

Record StaticResponse := mkStatic { html : jsstring; staticStatus : Z }.

Definition fetchHtml (url : jsstring) (config : Config.t)
  : option StaticResponse :=
  match httpGet config url with
  | Some response =>
      Some (mkStatic (match data response with Some d => d | None => [] end)
                     (status response))
  | None => None
  end.

(** *** Content extractor, continued *)

(** [a[href]] *)
Definition isAnchorWithHref (n : node) : bool :=
  tag "a" n && match attr n (js "href") with Some _ => true | None => false end.

(** The body of [$('a[href]').each]. *)
Definition addLink (baseUrl : jsstring) (links : StringSet) (el : node)
  : StringSet :=
  match attr el (js "href") with
  | None => links
  | Some raw =>
      if negb (truthy raw) || startsWith raw (js "#") then links
      else if startsWith raw (js "mailto:") || startsWith raw (js "tel:")
      then links
      else
        match resolveURL raw baseUrl with
        | None => links
        | Some resolved =>
            match normalizeUrl (URL.toString (URL.clearHash resolved)) with
            | Some normalized =>
                if truthy normalized then add links normalized else links
            | None => links
            end
        end
  end.

Definition extractLinks (doc : Document) (baseUrl : jsstring) : list jsstring :=
  fold_left (addLink baseUrl) (List.map fst (select isAnchorWithHref doc)) [].

(** [meta[name="description"]] *)
Definition isDescriptionMeta (n : node) : bool :=
  tag "meta" n
  && match attr n (js "name") with
     | Some v => eqb v (js "description")
     | None => false
     end.

(** [$(sel).first().text()] *)
Definition firstText (matches : node -> bool) (doc : Document) : jsstring :=
  match select matches doc with
  | e :: _ => text (fst e)
  | [] => []
  end.

(** [$(sel).attr(key)]: the attribute of the first match. *)
Definition firstAttr (matches : node -> bool) (doc : Document)
  (key : jsstring) : option jsstring :=
  match select matches doc with
  | e :: _ => attr (fst e) key
  | [] => None
  end.

Definition extractPageContent (html : jsstring) (url : jsstring)
  (config : Config.t) : Page :=
  let doc := load html in
  let title := or_else (cleanText (firstText (tag "title") doc)) url in
  let description :=
    or_else (cleanTextOpt (firstAttr isDescriptionMeta doc (js "content"))) [] in
  let sections := extractSections doc (Config.minSectionChars config) in
  let summary := buildSummary doc sections in
  let links := extractLinks doc url in
  mkPage url title description summary sections links
         (countWords (or_else summary (selectText (tag "body") doc))).

(** *** Frontier manager *)

(** The calls that leave the process. *)
Inductive event :=
| Fetched (url : jsstring)
| Rendered (url : jsstring).

Definition truthyOpt (s : option jsstring) : bool :=
  match s with Some v => truthy v | None => false end.

(** [processPage(url, visited, config)]: the result ([None] is [null]),
    the visited set afterwards and the calls made.  The part up to
    [visited.add] runs before the first [await], so the members of one
    batch pass through it one after the other. *)
Definition processPage (url : jsstring) (visited : StringSet)
  (config : Config.t)
  : option (Page * list jsstring) * StringSet * list event :=
  match normalizeUrl url with
  | None => (None, visited, [])
  | Some normalizedUrl =>
      if negb (truthy normalizedUrl) || has visited normalizedUrl
      then (None, visited, [])
      else
        let visited := add visited normalizedUrl in
        let forceBrowser := truthyOpt (getSpaViewId normalizedUrl) in
        let staticResponse :=
          if forceBrowser then None else fetchHtml normalizedUrl config in
        let fetches := if forceBrowser then [] else [Fetched normalizedUrl] in
        let page :=
          match staticResponse with
          | Some r =>
              if truthy (html r)
              then Some (extractPageContent (html r) normalizedUrl config)
              else None
          | None => None
          end in
        let wantsRender :=
          Config.renderWithBrowser config
          && (forceBrowser
              || match page with
                 | None => true
                 | Some p => needsBrowserRender p
                 end
              || match staticResponse with
                 | Some r => 400 <=? staticStatus r
                 | None => false
                 end) in
        let page :=
          if wantsRender
          then
            match fetchRenderedHtml normalizedUrl config with
            | Some renderedHtml =>
                if truthy renderedHtml
                then Some (extractPageContent renderedHtml normalizedUrl config)
                else page
            | None => page
            end
          else page in
        let renders := if wantsRender then [Rendered normalizedUrl] else [] in
        match page with
        | None => (None, visited, fetches ++ renders)
        | Some p => (Some (p, links p), visited, fetches ++ renders)
        end
  end.

(** [batch.map(processPage)] joined by [Promise.all]: the results in
    the order of the batch.  The members of a batch run concurrently
    once they have passed [visited.add]: the calls of the batch are
    listed member by member, which need not be their order in time. *)
Fixpoint processBatch (batch : list jsstring) (visited : StringSet)
  (config : Config.t)
  : list (option (Page * list jsstring)) * StringSet * list event :=
  match batch with
  | [] => ([], visited, [])
  | url :: rest =>
      let '(r, visited, ev) := processPage url visited config in
      let '(rs, visited, evs) := processBatch rest visited config in
      (r :: rs, visited, ev ++ evs)
  end.

(** The state of the crawl loop, with the calls made so far: which
    calls were made, batch after batch, and not the order of the calls
    of one batch. *)
Record Frontier := mkFrontier {
  queue : list jsstring;
  visited : StringSet;
  pages : list Page;
  trace : list event
}.

(** The body of [links.forEach]. *)
Definition enqueueLink (config : Config.t) (visited : StringSet)
  (pages : list Page) (queue : list jsstring) (link : jsstring)
  : list jsstring :=
  if geb (inject_Z (len pages + len queue)) (Config.maxPages config)
     || has visited link || includes queue link
  then queue
  else if startsWith link (Config.origin config) then queue ++ [link]
  else queue.

(** The body of [results.filter(Boolean).forEach]. *)
Definition absorb (config : Config.t) (visited : StringSet)
  (acc : list Page * list jsstring) (result : option (Page * list jsstring))
  : list Page * list jsstring :=
  match result with
  | None => acc
  | Some (page, links) =>
      let pages := fst acc ++ [page] in
      (pages, fold_left (enqueueLink config visited pages) links (snd acc))
  end.

(** The condition of the [while] loop. *)
Definition continues (config : Config.t) (st : Frontier) : bool :=
  (0 <? len (queue st))
  && ltb (inject_Z (len (pages st))) (Config.maxPages config).

(** One turn of the [while] loop.  The pause that ends a turn takes
    time and changes nothing. *)
Definition crawlStep (config : Config.t) (st : Frontier) : Frontier :=
  let '(batch, queue) := splice0 (queue st) (Config.concurrency config) in
  let '(results, visited, events) := processBatch batch (visited st) config in
  let '(pages, queue) :=
    fold_left (absorb config visited) results (pages st, queue) in
  mkFrontier queue visited pages (trace st ++ events).

(** The [while] loop, for at most [fuel] turns; [None] when the loop is
    still running after them. *)
Fixpoint crawlLoop (fuel : nat) (config : Config.t) (st : Frontier)
  : option Frontier :=
  if continues config st
  then match fuel with
       | O => None
       | S fuel' => crawlLoop fuel' config (crawlStep config st)
       end
  else Some st.

Definition initialFrontier (config : Config.t) : Frontier :=
  mkFrontier (Config.seedUrls config) [] [] [].

(** [crawlSite(config)], which returns the [pages] of the last state. *)
Definition crawlSite (fuel : nat) (config : Config.t) : option (list Page) :=
  option_map pages (crawlLoop fuel config (initialFrontier config)).


Definition fetchedUrls (tr : list event) : list jsstring :=
  flat_map (fun e => match e with Fetched u => [u] | Rendered _ => [] end) tr.

Definition renderedUrls (tr : list event) : list jsstring :=
  flat_map (fun e => match e with Rendered u => [u] | Fetched _ => [] end) tr.

(** The states at the head of the [while] loop during a run. *)
Inductive reachable (config : Config.t) : Frontier -> Prop :=
| reach_initial : reachable config (initialFrontier config)
| reach_step st :
    reachable config st -> continues config st = true ->
    reachable config (crawlStep config st).


(** The least integer that is not below [maxPages]. *)
Definition pageCap (config : Config.t) : Z := Qceiling (Config.maxPages config).

(** The largest size of a batch. *)
Definition batchMax (config : Config.t) : Z :=
  Z.max (toInteger (Config.concurrency config)) 0.

(** A number that decreases with every turn of the loop: the pages
    that may still come, weighted by the bound [width] on the length of
    the queue, plus the length of the queue. *)
Definition potential (config : Config.t) (width : Z) (st : Frontier) : Z :=
  (pageCap config + batchMax config - len (pages st)) * (width + 1)
  + len (queue st).

(** *** Dataset builder *)

(** U+201C and U+201D, the quotation marks of the question templates. *)
Definition LDQUO : codeunit := 8220%N.
Definition RDQUO : codeunit := 8221%N.
Definition DASH : codeunit := 45%N.

Definition isDash (c : codeunit) : bool := N.eqb c DASH.

(** The complement of [[a-z0-9]]. *)
Definition notSlugUnit (c : codeunit) : bool :=
  negb (((97 <=? c) && (c <=? 122)) || ((48 <=? c) && (c <=? 57)))%N.

Definition slugify (text : jsstring) : jsstring :=
  dropWhileEnd isDash
    (dropWhile isDash
       (replaceRuns notSlugUnit DASH false (toLowerCase (cleanText text)))).

(** [heading.replace(/[:?]+$/g, '').trim()] *)
Definition baseHeadingOf (heading : jsstring) : jsstring :=
  trim (dropWhileEnd (fun c => N.eqb c URL.COLON || N.eqb c URL.QUESTION) heading).

(** The accumulators [faqs] and [seen] of [buildFaqDataset]. *)
Definition FaqState : Type := list FaqEntry * StringSet.

(** [{...entry, answer: truncate(entry.answer, 1200)}] *)
Definition stored (entry : FaqEntry) : FaqEntry :=
  mkFaq (question entry) (truncate (answer entry) 1200) (sourceUrl entry)
        (tags entry).

Definition pushFaq (entry : FaqEntry) (st : FaqState) : FaqState :=
  let key := toLowerCase (question entry) in
  if has (snd st) key then st
  else (fst st ++ [stored entry], add (snd st) key).

(** The entry pushed for the summary of a page. *)
Definition overviewEntry (config : Config.t) (page : Page) : FaqEntry :=
  mkFaq (js "What does the " ++ [LDQUO] ++ title page ++ [RDQUO]
         ++ js " page cover on " ++ Config.siteName config ++ js "?")
        (summary page) (url page) [js "page-overview"].

(** The entry pushed for one section of a page. *)
Definition sectionEntry (config : Config.t) (page : Page) (section : Section_)
  : FaqEntry :=
  let baseHeading := baseHeadingOf (heading section) in
  mkFaq (js "What does " ++ [LDQUO] ++ baseHeading ++ [RDQUO]
         ++ js " highlight on " ++ Config.siteName config ++ js "?")
        (content section) (url page) [js "section"; slugify baseHeading].

(** The body of [pages.forEach]. *)
Definition emitPage (config : Config.t) (st : FaqState) (page : Page)
  : FaqState :=
  let st :=
    if truthy (summary page) then pushFaq (overviewEntry config page) st
    else st in
  fold_left (fun st section => pushFaq (sectionEntry config page section) st)
            (sections page) st.

(** The entries one page passes to [pushFaq], in the order of the
    calls, and the same for a list of pages. *)
Definition pageCandidates (config : Config.t) (page : Page) : list FaqEntry :=
  (if truthy (summary page) then [overviewEntry config page] else [])
  ++ List.map (sectionEntry config page) (sections page).

Definition candidates (config : Config.t) (pages : list Page) : list FaqEntry :=
  flat_map (pageCandidates config) pages.

(** The key [pushFaq] compares entries by. *)
Definition faqKey (entry : FaqEntry) : jsstring := toLowerCase (question entry).

(** [pushFaq] as the step of a fold over the candidates. *)
Definition pushOnto (st : FaqState) (entry : FaqEntry) : FaqState :=
  pushFaq entry st.

(** A kept entry is the stored form of the first candidate with its key. *)
Definition firstOfKey (cands : list FaqEntry) (f : FaqEntry) : Prop :=
  exists k e,
    nth_error cands k = Some e /\ f = stored e
    /\ forall j e', (j < k)%nat -> nth_error cands j = Some e'
                    -> faqKey e' <> faqKey e.

Definition buildMetrics (faqs : list FaqEntry) (pages : list Page)
  : Dataset.Metrics :=
  Dataset.mkMetrics
    (len pages)
    (fold_left (fun sum page => sum + len (sections page)) pages 0)
    (len faqs).

Definition buildFaqDataset (pages : list Page) (config : Config.t)
  : Dataset.t :=
  let faqs := fst (fold_left (emitPage config) pages ([], [])) in
  let cappedFaqs := slice faqs 0 (toInteger (Config.maxFaqs config)) in
  Dataset.mk
    now
    (Dataset.mkSource (Config.url config) (Config.siteName config))
    (Dataset.mkSnapshot (Config.maxPages config) (Config.maxFaqs config)
                        (Config.minSectionChars config))
    (buildMetrics cappedFaqs pages)
    cappedFaqs
    (List.map (fun page =>
                 Dataset.mkReport (url page) (title page) (len (sections page))
                                  (truthy (summary page)))
              pages).

(** *** The driver *)

(** What a run leaves behind. *)
Record Outcome := mkOutcome {
  exitCode : Z;
  written : list (jsstring * Dataset.t);
  errors : list jsstring
}.

(** The [catch] clause of [main]. *)
Definition failed (message : jsstring) : Outcome := mkOutcome 1 [] [message].

(** [main()].  [built] is the result of [buildConfig(parseArgs(argv))]:
    the configuration, or the message of the error thrown.  The result
    is [None] when the crawl loop is still running after [fuel] turns. *)
Definition main (fuel : nat) (built : jsstring + Config.t) : option Outcome :=
  match built with
  | inl message => Some (failed message)
  | inr config =>
      match crawlSite fuel config with
      | None => None
      | Some crawled =>
          if len crawled =? 0
          then Some (failed (js "No pages were crawled successfully."))
          else
            let dataset := buildFaqDataset crawled config in
            match writeOutput (Config.outputPath config) dataset with
            | Some message => Some (failed message)
            | None =>
                Some (mkOutcome 0 [(Config.outputPath config, dataset)] [])
            end
      end
  end.

End Script.

(** ** A small platform to run the script on

    Concrete stand-ins for the platform, used to evaluate the script on
    given inputs.  The URL parser accepts the strings
    [http(s)://host/path?query#fragment] that are already in the form
    the URL serialiser prints (lower-case scheme and host, no port, no
    credentials, no dots or escapes in the path); on these it returns
    the record the platform's parser returns.  It rejects every other
    string. *)

Module Sim.

(** The part before the first [c], and the part after it if there is one. *)
Fixpoint breakAt (c : codeunit) (s : jsstring) : jsstring * option jsstring :=
  match s with
  | [] => ([], None)
  | x :: s' =>
      if N.eqb x c then ([], Some s')
      else let (a, b) := breakAt c s' in (x :: a, b)
  end.

Definition isLower (c : codeunit) : bool := ((97 <=? c) && (c <=? 122))%N.
Definition isUpper (c : codeunit) : bool := ((65 <=? c) && (c <=? 90))%N.
Definition isDigit (c : codeunit) : bool := ((48 <=? c) && (c <=? 57))%N.

Definition hostUnit (c : codeunit) : bool := isLower c || N.eqb c PERIOD.

Definition pathUnit (c : codeunit) : bool :=
  isLower c || isUpper c || isDigit c
  || (c =? 45)%N || (c =? 95)%N || (c =? 126)%N || N.eqb c URL.SLASH.

Definition queryUnit (c : codeunit) : bool :=
  pathUnit c || N.eqb c PERIOD || (c =? 61)%N || (c =? 38)%N.

Definition validHost (h : jsstring) : bool :=
  match h with
  | c :: _ => isLower c && forallb hostUnit h
  | [] => false
  end.

Definition validOpt (p : codeunit -> bool) (o : option jsstring) : bool :=
  match o with Some v => forallb p v | None => true end.

Definition validScheme (s : jsstring) : bool :=
  eqb s (js "http") || eqb s (js "https").

(** The records the parser returns. *)
Definition wellFormed (u : URL.t) : bool :=
  validScheme (URL.scheme u)
  && negb (truthy (URL.credentials u))
  && match URL.host u with Some h => validHost h | None => false end
  && negb (URL.opaque u)
  && startsWith (URL.pathname u) [URL.SLASH]
  && forallb pathUnit (URL.pathname u)
  && validOpt queryUnit (URL.query u)
  && validOpt queryUnit (URL.fragment u).

Definition parse (input : jsstring) : option URL.t :=
  let (s1, fragment) := breakAt URL.HASH input in
  let (s2, query) := breakAt URL.QUESTION s1 in
  let (scheme, rest) := breakAt URL.COLON s2 in
  match rest with
  | Some (a :: b :: r) =>
      if N.eqb a URL.SLASH && N.eqb b URL.SLASH
      then
        let (host, path) := breakAt URL.SLASH r in
        let u :=
          URL.mk scheme [] (Some host) false
                 (URL.SLASH :: match path with Some p => p | None => [] end)
                 query fragment in
        if wellFormed u then Some u else None
      else None
  | _ => None
  end.

(** An absolute reference, or a path that starts with one slash, set
    against the base; every other reference is rejected. *)
Definition resolve (raw base : jsstring) : option URL.t :=
  match raw with
  | a :: rest =>
      if N.eqb a URL.SLASH && negb (startsWith rest [URL.SLASH])
      then
        match parse base with
        | Some b => parse (URL.origin b ++ raw)
        | None => None
        end
      else parse raw
  | [] => None
  end.

(** The value of the first [name=value] pair of the query. *)
Fixpoint findParam (fuel : nat) (name : jsstring) (q : jsstring)
  : option jsstring :=
  match fuel with
  | O => None
  | S fuel' =>
      let (pair, rest) := breakAt 38%N q in
      let (k, v) := breakAt 61%N pair in
      if eqb k name then Some (match v with Some x => x | None => [] end)
      else match rest with
           | Some q' => findParam fuel' name q'
           | None => None
           end
  end.

Definition searchParam (u : URL.t) (name : jsstring) : option jsstring :=
  match URL.query u with
  | Some q => findParam (S (List.length q)) name q
  | None => None
  end.

(** Lower case of the letters A to Z; the other units stay. *)
Definition lower (s : jsstring) : jsstring :=
  List.map (fun c => if isUpper c then (c + 32)%N else c) s.

Fixpoint assoc {B} (k : jsstring) (l : list (jsstring * B)) : option B :=
  match l with
  | [] => None
  | (k', v) :: l' => if eqb k' k then Some v else assoc k l'
  end.

(** A web site: what a GET of a URL answers, what the browser shows at
    a URL, and the tree of each HTML text. *)
Record Site := mkSite {
  served : list (jsstring * Response);
  shown : list (jsstring * jsstring);
  parsed : list (jsstring * Document)
}.

Definition platform (site : Site) (diskError : option jsstring) : Platform :=
  {| parseURL := parse;
     resolveURL := resolve;
     searchParamsGet := searchParam;
     load := fun html =>
       match assoc html (parsed site) with Some d => d | None => [] end;
     toLowerCase := lower;
     httpGet := fun _ url => assoc url (served site);
     fetchRenderedHtml := fun url _ => assoc url (shown site);
     now := js "2024-01-01T00:00:00.000Z";
     writeOutput := fun _ _ => diskError |}.

End Sim.

(** ** Inputs for the examples *)

Module Ex.

Definition a (n : nat) : jsstring := repeat 97%N n.

Definition config : Config.t :=
  Config.mk (js "https://x.com/") (js "https://x.com") (js "X")
            20 80 2 12000 400 180 20000 false
            [js "https://x.com/"] [] (js "agent") (js "/out/faq.json").

(** Nothing is served, nothing is shown. *)
Definition offline : Platform := Sim.platform (Sim.mkSite [] [] []) None.


(** A site of two pages.  The home page links to the other page, to
    a host whose name starts with the name of the site, and to a
    foreign host. *)
Definition homeTree : Document :=
  [Element (js "html") []
     [Element (js "head") [] [Element (js "title") [] [Text (js "Home")]];
      Element (js "body") []
        [Element (js "h2") [] [Text (js "Our Mission")];
         Element (js "p") [] [Text (js "We remember. We tell her story.")];
         Element (js "a") [(js "href", js "/about/")] [Text (js "About")];
         Element (js "a") [(js "href", js "https://x.com.evil.org/a")]
                 [Text (js "Mirror")];
         Element (js "a") [(js "href", js "https://other.org/")]
                 [Text (js "Friends")];
         Element (js "a") [(js "href", js "#top")] [Text (js "Top")]]]].

Definition aboutTree : Document :=
  [Element (js "html") []
     [Element (js "body") []
        [Element (js "p") [] [Text (js "About this site.")];
         Element (js "a") [(js "href", js "/")] [Text (js "Home")]]]].

Definition site : Sim.Site :=
  Sim.mkSite
    [(js "https://x.com/", mkResponse (Some (js "<home>")) 200);
     (js "https://x.com/about", mkResponse (Some (js "<about>")) 200)]
    []
    [(js "<home>", homeTree); (js "<about>", aboutTree)].

Definition online : Platform := Sim.platform site None.

(** A page with one heading and a paragraph of 200 units after it. *)
Definition missionTree : Document :=
  [Element (js "html") []
     [Element (js "body") []
        [Element (js "h2") [] [Text (js "Our Mission")];
         Element (js "p") [] [Text (a 200)]]]].

Definition missionSite : Sim.Site :=
  Sim.mkSite
    [(js "https://x.com/", mkResponse (Some (js "<mission>")) 200)]
    []
    [(js "<mission>", missionTree)].

(** The configuration of a crawl of the site, sections of 20 units. *)
Definition siteConfig : Config.t :=
  Config.mk (js "https://x.com/") (js "https://x.com") (js "X")
            20 80 2 12000 400 20 20000 false
            [js "https://x.com/"] [] (js "agent") (js "/out/faq.json").

(** No section and a summary of 30 units. *)
Definition page30 : Page :=
  mkPage (js "https://x.com/") (js "Home") [] (a 30) [] [] 1.

(** Three sections and a summary of 200 units. *)
Definition page200 : Page :=
  let s := mkSection (js "Story") (a 200) (a 200) in
  mkPage (js "https://x.com/") (js "Home") [] (a 200) [s; s; s] [] 1.

(** One section of 1201 units, no summary. *)
Definition longPage : Page :=
  mkPage (js "https://x.com/") (js "Home") [] []
         [mkSection (js "Story") (a 1201) (truncate (a 1201) 320)] [] 0.

End Ex.

(** ** Shapes of texts *)

(** No two neighbours of [l] are both [r]. *)
Fixpoint noRepeat (r : codeunit) (l : jsstring) : Prop :=
  match l with
  | a :: (b :: _) as rest => ~ (a = r /\ b = r) /\ noRepeat r rest
  | _ => True
  end.

(** The text neither starts nor ends with a unit of the class [C]. *)
Definition edgesOutside (C : codeunit -> bool) (s : jsstring) : Prop :=
  (forall c t, s = c :: t -> C c = false)
  /\ (forall t c, s = t ++ [c] -> C c = false).

(** A unit that [cleanText] removes wherever it stands alone: white
    space or the zero width space. *)
Definition isBlank (c : codeunit) : bool := isWhiteSpace c || N.eqb c ZWSP.

(** The prefix of [text] that [truncate] trims when it cuts: up to the
    last period of the first [max] units when that period lies beyond
    six tenths of [max], and the first [max] units otherwise. *)
Definition truncatedPart (text : jsstring) (max : Z) : jsstring :=
  let shortened := slice text 0 max in
  let lastPeriod := lastIndexOf shortened PERIOD in
  if ltb (inject_Z max * (6 # 10)) (inject_Z lastPeriod)
  then slice shortened 0 (lastPeriod + 1)
  else shortened.

(** ** Shapes of sections and links *)

(** A unit that may stand in a cleaned text: not the zero width space,
    and no white space but the plain space. *)
Definition cleanUnit (c : codeunit) : Prop :=
  c <> ZWSP /\ (isWhiteSpace c = true -> c = SPACE).

(** A section has a heading, its content is made of clean units, and
    its snippet is its content cut at 320 units. *)
Definition wellShaped (s : Section_) : Prop :=
  truthy (heading s) = true
  /\ Forall cleanUnit (content s)
  /\ snippet s = truncate (content s) 320
  /\ len (snippet s) <= 322.

(** A link is the serialised normal form of a parsed URL, which has no
    fragment, and is not empty. *)
Definition normalLink `{Platform} (link : jsstring) : Prop :=
  truthy link = true
  /\ exists input u,
       parseURL input = Some u
       /\ link = URL.toString (normalizeRecord u)
       /\ URL.fragment (normalizeRecord u) = None.

(** ** The dataset, in words *)

(** The candidates less those whose key an earlier candidate, or a
    member of [seen], has already. *)
Fixpoint keepFirsts `{Platform} (seen : StringSet) (cands : list FaqEntry)
  : list FaqEntry :=
  match cands with
  | [] => []
  | e :: rest =>
      if has seen (faqKey e) then keepFirsts seen rest
      else e :: keepFirsts (add seen (faqKey e)) rest
  end.

(** The sum of the section counts of a crawl report. *)
Definition reportedSections (report : list Dataset.ReportLine) : Z :=
  fold_right (fun line sum => Dataset.reportSections line + sum) 0 report.

(** Where an entry of the dataset comes from: the summary of a page,
    or one of its sections. *)
Definition fromPage `{Platform} (config : Config.t) (page : Page)
  (f : FaqEntry) : Prop :=
  sourceUrl f = url page
  /\ ((truthy (summary page) = true
       /\ f = stored (overviewEntry config page))
      \/ exists section,
           In section (sections page)
           /\ f = stored (sectionEntry config page section)).

(** ** The steps of [processPage]

    The values [processPage] computes one after the other for a normal
    form [n] that was not visited. *)

Section ProcessPageSteps.

Context `{Platform}.

Variable config : Config.t.

(** [forceBrowser] *)
Definition forceBrowserOf (n : jsstring) : bool :=
  truthyOpt (getSpaViewId n).

(** [staticResponse] *)
Definition staticResponseOf (n : jsstring) : option StaticResponse :=
  if forceBrowserOf n then None else fetchHtml n config.

(** [page], before the rendering *)
Definition staticPageOf (n : jsstring) : option Page :=
  match staticResponseOf n with
  | Some r =>
      if truthy (html r) then Some (extractPageContent (html r) n config)
      else None
  | None => None
  end.

(** The condition of the rendering. *)
Definition wantsRenderOf (n : jsstring) : bool :=
  Config.renderWithBrowser config
  && (forceBrowserOf n
      || match staticPageOf n with
         | None => true
         | Some p => needsBrowserRender p
         end
      || match staticResponseOf n with
         | Some r => 400 <=? staticStatus r
         | None => false
         end).

(** [page], after the rendering *)
Definition finalPageOf (n : jsstring) : option Page :=
  if wantsRenderOf n
  then
    match fetchRenderedHtml n config with
    | Some renderedHtml =>
        if truthy renderedHtml
        then Some (extractPageContent renderedHtml n config)
        else staticPageOf n
    | None => staticPageOf n
    end
  else staticPageOf n.

(** The calls made for [n]. *)
Definition eventsOf (n : jsstring) : list event :=
  (if forceBrowserOf n then [] else [Fetched n])
  ++ (if wantsRenderOf n then [Rendered n] else []).

(** The pages among the results of a batch. *)
Definition pagesOf (results : list (option (Page * list jsstring)))
  : list Page :=
  flat_map (fun r => match r with Some (p, _) => [p] | None => [] end) results.

(** A URL of the queue comes from the seeds, or is a link of a page
    that starts with the origin string. *)
Definition seedOrLink (pages : list Page) (q : jsstring) : Prop :=
  In q (Config.seedUrls config)
  \/ (startsWith q (Config.origin config) = true
      /\ exists p, In p pages /\ In q (links p)).

End ProcessPageSteps.

(** The page of a processed normal form, if it has one. *)
Definition pageListOf `{Platform} (config : Config.t) (n : jsstring)
  : list Page :=
  match finalPageOf config n with Some p => [p] | None => [] end.

(** ** More inputs for the examples *)

Module Ex2.

(** A crawl of the site of [Ex] with both pages as seeds and a cap of
    one page. *)
Definition tightConfig : Config.t :=
  Config.mk (js "https://x.com/") (js "https://x.com") (js "X")
            1 80 2 12000 400 20 20000 false
            [js "https://x.com/"; js "https://x.com/about"] []
            (js "agent") (js "/out/faq.json").

End Ex2.

(** ** The command line *)

(** A value of the object [parseArgs] returns: a string, or [true]. *)
Inductive ArgValue : Type :=
| Given (text : jsstring)
| Flag.

(** The own properties of that object. *)
Definition Args := list (jsstring * ArgValue).

(** [args[key]] for a name that [Object.prototype] does not define, as
    are the names [buildConfig] reads; [None] is [undefined]. *)
Fixpoint getArg (acc : Args) (key : jsstring) : option ArgValue :=
  match acc with
  | [] => None
  | (k, v) :: rest => if eqb k key then Some v else getArg rest key
  end.

Fixpoint setOwn (acc : Args) (key : jsstring) (value : ArgValue) : Args :=
  match acc with
  | [] => [(key, value)]
  | (k, v) :: rest =>
      if eqb k key then (k, value) :: rest
      else (k, v) :: setOwn rest key value
  end.

(** [acc[key] = value] on an object made by [{}].  The name [__proto__]
    is an accessor of [Object.prototype]; its setter ignores a string
    and [true], and no property is created. *)
Definition setArg (acc : Args) (key : jsstring) (value : ArgValue) : Args :=
  if eqb key (js "__proto__") then acc else setOwn acc key value.

(** What the callback of [reduce] stores for a flag that [rest]
    follows. *)
Definition argValue (rest : list jsstring) : ArgValue :=
  match rest with
  | next :: _ =>
      if truthy next && negb (startsWith next (js "--")) then Given next
      else Flag
  | [] => Flag
  end.

Fixpoint parseArgsFrom (acc : Args) (argv : list jsstring) : Args :=
  match argv with
  | [] => acc
  | arg :: rest =>
      parseArgsFrom
        (if negb (startsWith arg (js "--")) then acc
         else setArg acc (slice arg 2 (len arg)) (argValue rest))
        rest
  end.

(** [parseArgs(argv)] *)
Definition parseArgs (argv : list jsstring) : Args := parseArgsFrom [] argv.

(** ** Seeds and views *)

Definition COMMA : codeunit := 44%N.
Definition EQUALS : codeunit := 61%N.

(** [s.split(sep)] for a separator of one unit. *)
Fixpoint splitOn (sep : codeunit) (s : jsstring) : list jsstring :=
  match s with
  | [] => [[]]
  | c :: s' =>
      if N.eqb c sep then [] :: splitOn sep s'
      else
        match splitOn sep s' with
        | piece :: pieces => (c :: piece) :: pieces
        | [] => [[c]]
        end
  end.

(** [input.split(',').map((entry) => entry.trim()).filter(Boolean)] *)
Definition entriesOf (input : jsstring) : list jsstring :=
  filter truthy (List.map trim (splitOn COMMA input)).

(** The callback of [map] in [parseSpaViews]; [None] is [null]. *)
Definition parseSpaView (pair : jsstring) : option Config.SpaView :=
  match splitOn EQUALS pair with
  | idPart :: labelPart :: _ =>
      if negb (truthy idPart) || negb (truthy labelPart) then None
      else
        let id := trim idPart in
        let label := trim labelPart in
        if negb (truthy id) || negb (truthy label) then None
        else Some (Config.mkSpaView id label)
  | _ => None
  end.

(** [array.filter(Boolean)] after a [map] to strings or [null]. *)
Definition keepTruthy (o : option jsstring) : list jsstring :=
  match o with
  | Some s => if truthy s then [s] else []
  | None => []
  end.

(** [parseSpaViews(input)] on [args.spaViews].  [None] stands for the
    [TypeError] thrown when the input is [true], which has no [split]. *)
Definition parseSpaViews (input : option ArgValue)
  : option (list Config.SpaView) :=
  match input with
  | None => Some []
  | Some Flag => None
  | Some (Given text) =>
      if negb (truthy text) then Some []
      else
        Some (flat_map
                (fun pair =>
                   match parseSpaView pair with
                   | Some view => [view]
                   | None => []
                   end)
                (entriesOf text))
  end.

(** A unit that [/x/i] matches, for a lower-case ASCII letter [x]. *)
Definition letterIs (lower c : codeunit) : bool :=
  N.eqb c lower || N.eqb c (lower - 32)%N.

(** [/^https?:\/\//i.test(segment)] *)
Definition hasHttpScheme (segment : jsstring) : bool :=
  match segment with
  | h :: t1 :: t2 :: p :: rest =>
      letterIs 104%N h && letterIs 116%N t1 && letterIs 116%N t2
      && letterIs 112%N p
      && (startsWith rest (js "://")
          || match rest with
             | s :: rest' => letterIs 115%N s && startsWith rest' (js "://")
             | [] => false
             end)
  | _ => false
  end.

(** [Array.from(new Set(values))] *)
Definition distinct (values : list jsstring) : list jsstring :=
  fold_left add values [].

Section Seeds.

Context `{Platform}.

(** [encodeURIComponent(s)]; [None] stands for the [URIError] thrown on
    a lone surrogate. *)
Variable encodeURIComponent : jsstring -> option jsstring.

(** [candidate] in the callback of [forEach] in [buildSeedUrls];
    [None] stands for the error thrown by [new URL(relative, origin)]. *)
Definition seedCandidate (origin segment : jsstring) : option jsstring :=
  if negb (hasHttpScheme segment)
  then
    let relative :=
      if startsWith segment (js "/") then segment else js "/" ++ segment in
    option_map URL.toString (resolveURL relative origin)
  else Some segment.

(** The [forEach] of [buildSeedUrls], on the array [seeds]. *)
Fixpoint pushSeeds (origin : jsstring) (segments seeds : list jsstring)
  : option (list jsstring) :=
  match segments with
  | [] => Some seeds
  | segment :: rest =>
      match seedCandidate origin segment with
      | None => None
      | Some candidate =>
          pushSeeds origin rest (seeds ++ keepTruthy (normalizeUrl candidate))
      end
  end.

(** The [return] of [buildSeedUrls]. *)
Definition normalSeeds (seeds : list jsstring) : list jsstring :=
  distinct (flat_map (fun value => keepTruthy (normalizeUrl value)) seeds).

(** [buildSeedUrls(seedInput, startUrl, origin)] on [args.seedPaths].
    [None] stands for an error thrown: by [split] when the input is
    [true], or by [new URL]. *)
Definition buildSeedUrls (seedInput : option ArgValue)
  (startUrl origin : jsstring) : option (list jsstring) :=
  match seedInput with
  | None => Some (normalSeeds [startUrl])
  | Some Flag => None
  | Some (Given text) =>
      if negb (truthy text) then Some (normalSeeds [startUrl])
      else option_map normalSeeds (pushSeeds origin (entriesOf text) [startUrl])
  end.

(** [buildSpaViewUrls(spaViews, origin)] *)
Fixpoint buildSpaViewUrls (spaViews : list Config.SpaView) (origin : jsstring)
  : option (list jsstring) :=
  match spaViews with
  | [] => Some []
  | view :: rest =>
      match encodeURIComponent (Config.id view) with
      | None => None
      | Some encoded =>
          match buildSpaViewUrls rest origin with
          | None => None
          | Some urls =>
              Some (keepTruthy
                      (normalizeUrl (origin ++ js "/?__spaView=" ++ encoded))
                    ++ urls)
          end
      end
  end.

(** The [seedUrls] entry of [buildConfig]: the statements from
    [parseSpaViews] to [Array.from(new Set(...))]. *)
Definition seedUrlsOf (args : Args) (normalizedStart origin : jsstring)
  : option (list jsstring) :=
  match parseSpaViews (getArg args (js "spaViews")) with
  | None => None
  | Some spaViews =>
      match buildSpaViewUrls spaViews origin with
      | None => None
      | Some spaViewUrls =>
          match buildSeedUrls (getArg args (js "seedPaths"))
                              normalizedStart origin with
          | None => None
          | Some baseSeedUrls => Some (distinct (baseSeedUrls ++ spaViewUrls))
          end
      end
  end.

End Seeds.

(** A view as [parseSpaViews] reads it back: identifier and label are
    not empty, have no white space at their ends, and hold neither a
    comma nor an equals sign. *)
Definition plainName (s : jsstring) : Prop :=
  truthy s = true
  /\ edgesOutside isWhiteSpace s
  /\ Forall (fun c => c <> COMMA /\ c <> EQUALS) s.

Definition plainView (view : Config.SpaView) : Prop :=
  plainName (Config.id view) /\ plainName (Config.label view).

(** [id=label] *)
Definition viewText (view : Config.SpaView) : jsstring :=
  Config.id view ++ [EQUALS] ++ Config.label view.

(** ** Inputs for the examples of the command line *)

Module Ex3.

Definition views : list Config.SpaView :=
  [Config.mkSpaView (js "home") (js "Home page");
   Config.mkSpaView (js "story") (js "Her story")].

Definition argv : list jsstring :=
  [js "--url"; js "https://x.com/";
   js "--spaViews"; js "home=Home page,story=Her story";
   js "--seedPaths"; js "about, /";
   js "--renderWithBrowser"; js "--url"; js "https://x.com/about"].

(** Percent-encoding needs nothing for plain ASCII names. *)
Definition encode (s : jsstring) : option jsstring := Some s.

End Ex3.

(** ** A site with a path written with several final slashes *)

Module Ex4.

(** The home page links to one page twice: once with three slashes
    after its path and once with none. *)
Definition homeTree : Document :=
  [Element (js "html") []
     [Element (js "body") []
        [Element (js "p") [] [Text (js "Two ways to one page.")];
         Element (js "a") [(js "href", js "/a///")] [Text (js "A")];
         Element (js "a") [(js "href", js "/a")] [Text (js "A again")]]]].

Definition aTree : Document :=
  [Element (js "html") []
     [Element (js "body") [] [Element (js "p") [] [Text (js "The page A.")]]]].

Definition site : Sim.Site :=
  Sim.mkSite
    [(js "https://x.com/", mkResponse (Some (js "<home>")) 200);
     (js "https://x.com/a/", mkResponse (Some (js "<a>")) 200);
     (js "https://x.com/a", mkResponse (Some (js "<a>")) 200)]
    []
    [(js "<home>", homeTree); (js "<a>", aTree)].

Definition platform : Platform := Sim.platform site None.

End Ex4.

(** * Properties *)

(** ** Facts about strings, arrays and numbers *)

Lemma eqb_eq (a b : jsstring) : eqb a b = true <-> a = b.
Proof.
  revert b; induction a as [|x a IH]; intros [|y b]; simpl;
    try (split; (reflexivity || discriminate)).
  rewrite andb_true_iff, N.eqb_eq, IH.
  split; [intros [-> ->]; reflexivity | intros E; injection E; auto].
Qed.

Lemma eqb_refl (a : jsstring) : eqb a a = true.
Proof. apply eqb_eq; reflexivity. Qed.

Lemma eqb_neq (a b : jsstring) : eqb a b = false <-> a <> b.
Proof.
  rewrite <- eqb_eq. destruct (eqb a b); split; congruence.
Qed.

Lemma includes_In (l : list jsstring) (x : jsstring) :
  includes l x = true <-> In x l.
Proof.
  unfold includes. rewrite existsb_exists. split.
  - intros (y & Hy & E). apply eqb_eq in E. subst; assumption.
  - intros Hx. exists x. split; [assumption | apply eqb_refl].
Qed.

Lemma includes_not_In (l : list jsstring) (x : jsstring) :
  includes l x = false <-> ~ In x l.
Proof.
  rewrite <- includes_In. destruct (includes l x); split; congruence.
Qed.

Lemma has_In (s : StringSet) (x : jsstring) : has s x = true <-> In x s.
Proof. apply includes_In. Qed.

Lemma has_not_In (s : StringSet) (x : jsstring) : has s x = false <-> ~ In x s.
Proof. apply includes_not_In. Qed.

Lemma In_add (s : StringSet) (x y : jsstring) :
  In y (add s x) <-> In y s \/ y = x.
Proof.
  unfold add. destruct (has s x) eqn:E.
  - apply has_In in E. split; [auto | intros [?| ->]; assumption].
  - rewrite in_app_iff. simpl. intuition congruence.
Qed.

Lemma NoDup_add (s : StringSet) (x : jsstring) : NoDup s -> NoDup (add s x).
Proof.
  intros Hs. unfold add. destruct (has s x) eqn:E; [assumption|].
  apply has_not_In in E.
  apply NoDup_rev in Hs. rewrite <- (rev_involutive (s ++ [x])).
  apply NoDup_rev. rewrite rev_app_distr. simpl.
  constructor; [rewrite <- in_rev; assumption | assumption].
Qed.

Lemma len_nonneg {A} (l : list A) : 0 <= len l.
Proof. unfold len. lia. Qed.

Lemma len_app {A} (l1 l2 : list A) : len (l1 ++ l2) = len l1 + len l2.
Proof. unfold len. rewrite length_app. lia. Qed.

Lemma len_nil_iff {A} (l : list A) : len l = 0 <-> l = [].
Proof.
  unfold len. destruct l; simpl; split; (reflexivity || discriminate || lia).
Qed.

Lemma truthy_len (s : jsstring) : truthy s = false <-> len s = 0.
Proof. rewrite len_nil_iff. destruct s; simpl; split; congruence. Qed.

Lemma length_dropWhile {A} (p : A -> bool) (l : list A) :
  (List.length (dropWhile p l) <= List.length l)%nat.
Proof.
  induction l as [|x l IH]; simpl; [lia|]. destruct (p x); simpl; lia.
Qed.

Lemma length_dropWhileEnd {A} (p : A -> bool) (l : list A) :
  (List.length (dropWhileEnd p l) <= List.length l)%nat.
Proof.
  unfold dropWhileEnd. rewrite length_rev.
  etransitivity; [apply length_dropWhile | rewrite length_rev; lia].
Qed.

Lemma len_trim (s : jsstring) : len (trim s) <= len s.
Proof.
  unfold trim, len.
  pose proof (length_dropWhileEnd isWhiteSpace (dropWhile isWhiteSpace s)).
  pose proof (length_dropWhile isWhiteSpace s). lia.
Qed.

Lemma clampIndex_nonneg (n i : Z) : 0 <= i -> clampIndex n i = Z.min i n.
Proof.
  intros Hi. unfold clampIndex.
  destruct (i <? 0) eqn:E; [apply Z.ltb_lt in E; lia | reflexivity].
Qed.

Lemma slice_from_start {A} (l : list A) (stop : Z) :
  0 <= stop -> slice l 0 stop = firstn (Z.to_nat stop) l.
Proof.
  intros Hs. unfold slice.
  rewrite !clampIndex_nonneg by lia.
  pose proof (len_nonneg l) as Hl.
  replace (Z.min 0 (len l)) with 0 by lia.
  change (Z.to_nat 0) with 0%nat. rewrite skipn_O.
  destruct (Z_le_gt_dec stop (len l)) as [Hle|Hgt].
  - f_equal. lia.
  - unfold len in *. rewrite !firstn_all2 by lia. reflexivity.
Qed.

Lemma len_slice_le {A} (l : list A) (start stop : Z) :
  len (slice l start stop) <= len l.
Proof.
  unfold slice, len. rewrite length_firstn, length_skipn. lia.
Qed.

Lemma len_slice_from_start {A} (l : list A) (stop : Z) :
  0 <= stop -> len (slice l 0 stop) <= stop.
Proof.
  intros Hs. rewrite slice_from_start by assumption.
  unfold len. rewrite length_firstn. lia.
Qed.

Lemma In_firstn {A} (n : nat) (l : list A) (x : A) :
  In x (firstn n l) -> In x l.
Proof.
  intros Hin. rewrite <- (firstn_skipn n l). apply in_or_app. auto.
Qed.

Lemma In_skipn {A} (n : nat) (l : list A) (x : A) :
  In x (skipn n l) -> In x l.
Proof.
  intros Hin. rewrite <- (firstn_skipn n l). apply in_or_app. auto.
Qed.

Lemma In_slice {A} (l : list A) (start stop : Z) (x : A) :
  In x (slice l start stop) -> In x l.
Proof.
  unfold slice. intros Hin. eapply In_skipn, In_firstn, Hin.
Qed.

Lemma ltb_false (a b : Q) : ltb a b = false <-> (b <= a)%Q.
Proof.
  unfold ltb. rewrite negb_false_iff. apply Qle_bool_iff.
Qed.

Lemma ltb_true (a b : Q) : ltb a b = true <-> (a < b)%Q.
Proof.
  unfold ltb. rewrite negb_true_iff. split.
  - intros E. apply Qnot_le_lt. intros Hle.
    apply Qle_bool_iff in Hle. congruence.
  - intros Hlt. destruct (Qle_bool b a) eqn:E; [|reflexivity].
    apply Qle_bool_iff in E. exfalso. exact (Qlt_not_le _ _ Hlt E).
Qed.

Lemma geb_true (a b : Q) : geb a b = true <-> (b <= a)%Q.
Proof. apply Qle_bool_iff. Qed.

Lemma toInteger_nonneg (q : Q) : (0 <= q)%Q -> 0 <= toInteger q.
Proof.
  unfold Qle, toInteger. simpl. intros Hq.
  apply Z.quot_pos; lia.
Qed.

Lemma toInteger_le (q : Q) : (0 <= q)%Q -> (inject_Z (toInteger q) <= q)%Q.
Proof.
  unfold Qle, toInteger. simpl. intros Hq.
  rewrite Z.quot_div_nonneg by lia.
  pose proof (Z.mul_div_le (Qnum q) (Z.pos (Qden q))). lia.
Qed.

Lemma toInteger_ge_1 (q : Q) : (1 <= q)%Q -> 1 <= toInteger q.
Proof.
  unfold Qle, toInteger. simpl. intros Hq.
  rewrite Z.quot_div_nonneg by lia.
  apply Z.div_le_lower_bound; lia.
Qed.

(** ** Facts about [truncate] *)

Lemma truncate_short (text : jsstring) (max : Z) :
  len text <= max -> truncate text max = text.
Proof.
  intros Hle. unfold truncate.
  apply Z.leb_le in Hle. rewrite Hle, orb_true_r. reflexivity.
Qed.

Lemma truncate_long (text : jsstring) (max : Z) :
  0 <= max -> max < len text -> len (truncate text max) <= max + 2.
Proof.
  intros Hmax Hlt. unfold truncate.
  destruct (negb (truthy text) || (len text <=? max)) eqn:E.
  - apply orb_true_iff in E. destruct E as [E|E].
    + apply negb_true_iff, truthy_len in E. lia.
    + apply Z.leb_le in E. lia.
  - pose proof (len_slice_from_start text max Hmax) as Hs.
    destruct (ltb _ _); rewrite len_app; change (len MARK) with 2.
    + pose proof (len_trim (slice (slice text 0 max) 0
                              (lastIndexOf (slice text 0 max) PERIOD + 1))).
      pose proof (len_slice_le (slice text 0 max) 0
                              (lastIndexOf (slice text 0 max) PERIOD + 1)).
      lia.
    + pose proof (len_trim (slice text 0 max)). lia.
Qed.

Lemma truncate_bound (text : jsstring) (max : Z) :
  0 <= max -> len (truncate text max) <= max + 2.
Proof.
  intros Hmax. destruct (Z_le_gt_dec (len text) max) as [Hle|Hgt].
  - rewrite truncate_short by assumption. lia.
  - apply truncate_long; lia.
Qed.

(** C10. For a bound [max >= 1], [truncate] returns a text of at most
    [max] units unchanged, and what it returns for a longer text has at
    most [max + 2] units. *)
Theorem truncate_length (text : jsstring) (max : Z) :
  1 <= max ->
  (len text <= max -> truncate text max = text)
  /\ (max < len text -> len (truncate text max) <= max + 2).
Proof.
  intros Hmax. split.
  - apply truncate_short.
  - apply truncate_long. lia.
Qed.

Lemma truncate_length_witness :
  1 <= 5
  /\ (len (js "ab. c") <= 5 -> truncate (js "ab. c") 5 = js "ab. c")
  /\ (5 < len (js "abcd. cdefg")
      -> len (truncate (js "abcd. cdefg") 5) <= 5 + 2).
Proof.
  split; [lia|]. split.
  - apply (truncate_length (js "ab. c") 5). lia.
  - apply (truncate_length (js "abcd. cdefg") 5). lia.
Defined.

(** ** The render-need heuristic *)

(** C1. [needsBrowserRender] answers true exactly for a page without
    sections whose summary has fewer than 160 units or whose word count
    is below 40; so it answers true for no section and a summary of 30
    units, and false for three sections and a summary of 200 units. *)
Theorem needsBrowserRender_spec (page : Page) :
  (needsBrowserRender page = true
   <-> len (sections page) = 0
       /\ (len (summary page) < 160 \/ wordCount page < 40))
  /\ (len (sections page) = 0 -> len (summary page) = 30
      -> needsBrowserRender page = true)
  /\ (len (summary page) = 200 -> len (sections page) = 3
      -> needsBrowserRender page = false).
Proof.
  unfold needsBrowserRender.
  assert (Hs : (if truthy (summary page) then len (summary page) else 0)
               = len (summary page)).
  { destruct (truthy (summary page)) eqn:E; [reflexivity|].
    apply truthy_len in E. lia. }
  assert (Hw : (if wordCount page =? 0 then 0 else wordCount page)
               = wordCount page).
  { destruct (wordCount page =? 0) eqn:E; [|reflexivity].
    apply Z.eqb_eq in E. lia. }
  rewrite Hs, Hw. clear Hs Hw.
  assert (Hiff : (len (sections page) =? 0)
                 && ((len (summary page) <? 160) || (wordCount page <? 40))
                 = true
                 <-> len (sections page) = 0
                     /\ (len (summary page) < 160 \/ wordCount page < 40)).
  { rewrite andb_true_iff, orb_true_iff, Z.eqb_eq, !Z.ltb_lt. tauto. }
  split; [exact Hiff|]. split.
  - intros H0 H30. apply Hiff. lia.
  - intros H200 H3. apply not_true_is_false. rewrite Hiff. lia.
Qed.

Lemma needsBrowserRender_spec_witness :
  needsBrowserRender Ex.page30 = true
  /\ needsBrowserRender Ex.page200 = false.
Proof.
  split.
  - apply (needsBrowserRender_spec Ex.page30); reflexivity.
  - apply (needsBrowserRender_spec Ex.page200); reflexivity.
Defined.

(** ** The content extractor *)

Section ExtractorFacts.

Variable minChars : Q.

Lemma headingSection_min (e : node * list node) :
  Forall (longEnough minChars) (headingSection minChars e).
Proof.
  unfold headingSection.
  destruct (negb (truthy (cleanText (text (fst e))))); [constructor|].
  destruct (ltb _ minChars) eqn:E; [constructor|].
  apply ltb_false in E. repeat constructor. exact E.
Qed.

Lemma paragraphSection_min (index : nat) (el : node) :
  Forall (longEnough minChars) (paragraphSection minChars index el).
Proof.
  unfold paragraphSection.
  destruct (ltb _ minChars) eqn:E; [constructor|].
  apply ltb_false in E. repeat constructor. exact E.
Qed.

Lemma eachIndexed_Forall {A B} (P : B -> Prop) (f : nat -> A -> list B) :
  (forall i x, Forall P (f i x)) ->
  forall l i, Forall P (eachIndexed f i l).
Proof.
  intros Hf. induction l as [|x l IH]; intros i; simpl.
  - constructor.
  - apply Forall_app. split; [apply Hf | apply IH].
Qed.

Lemma flat_map_Forall {A B} (P : B -> Prop) (f : A -> list B) (l : list A) :
  (forall x, Forall P (f x)) -> Forall P (flat_map f l).
Proof.
  intros Hf. induction l as [|x l IH]; simpl.
  - constructor.
  - apply Forall_app. split; [apply Hf | exact IH].
Qed.

Lemma extractSections_min (doc : Document) :
  Forall (longEnough minChars) (extractSections doc minChars).
Proof.
  unfold extractSections.
  set (hs := flat_map (headingSection minChars) (select isHeadingTag doc)).
  set (ps := eachIndexed (paragraphSection minChars) 0
               (List.map fst (select (tag "p") doc))).
  assert (Hhs : Forall (longEnough minChars) hs)
    by (apply flat_map_Forall, headingSection_min).
  assert (Hps : Forall (longEnough minChars) ps)
    by (apply eachIndexed_Forall, paragraphSection_min).
  assert (Hmid : Forall (longEnough minChars) (if len hs =? 0 then ps else hs))
    by (destruct (len hs =? 0); assumption).
  destruct (len (if len hs =? 0 then ps else hs) =? 0); [|exact Hmid].
  destruct (geb _ minChars) eqn:E; [|constructor].
  apply geb_true in E. repeat constructor. exact E.
Qed.

End ExtractorFacts.

(** C6. Every section of the page the extractor returns, from the
    heading scan, the paragraph fallback or the whole-body fallback, has
    a content of at least [minSectionChars] units. *)
Theorem sections_meet_minimum `{Platform} (html url : jsstring)
  (config : Config.t) :
  Forall (fun s => (Config.minSectionChars config
                    <= inject_Z (len (content s)))%Q)
         (sections (extractPageContent html url config)).
Proof.
  unfold extractPageContent. simpl.
  apply (extractSections_min (Config.minSectionChars config)).
Qed.

(** ** The dataset builder *)

Section DatasetFacts.

Context `{Platform}.

Lemma fold_left_map_push {A} (g : A -> FaqEntry) (l : list A) (st : FaqState) :
  fold_left (fun st x => pushFaq (g x) st) l st
  = fold_left pushOnto (List.map g l) st.
Proof.
  revert st. induction l as [|x l IH]; intros st; simpl; [reflexivity|].
  apply IH.
Qed.

Lemma emitPage_pushes (config : Config.t) (st : FaqState) (page : Page) :
  emitPage config st page = fold_left pushOnto (pageCandidates config page) st.
Proof.
  unfold emitPage, pageCandidates.
  rewrite fold_left_app, fold_left_map_push.
  destruct (truthy (summary page)); reflexivity.
Qed.

Lemma emit_pushes (config : Config.t) (pages : list Page) (st : FaqState) :
  fold_left (emitPage config) pages st
  = fold_left pushOnto (candidates config pages) st.
Proof.
  revert st. induction pages as [|page pages IH]; intros st; simpl.
  - reflexivity.
  - unfold candidates in *. simpl.
    rewrite fold_left_app, IH, emitPage_pushes. reflexivity.
Qed.

Lemma faqKey_stored (e : FaqEntry) : faqKey (stored e) = faqKey e.
Proof. reflexivity. Qed.

Lemma firstOfKey_snoc (cands : list FaqEntry) (x f : FaqEntry) :
  firstOfKey cands f -> firstOfKey (cands ++ [x]) f.
Proof.
  intros (k & e & Hk & Hf & Hfirst).
  assert (Hlt : (k < List.length cands)%nat)
    by (apply nth_error_Some; congruence).
  exists k, e. split; [rewrite nth_error_app1; assumption|].
  split; [assumption|].
  intros j e' Hj Hj'. rewrite nth_error_app1 in Hj' by lia. eauto.
Qed.

Lemma pushes_invariant (cands : list FaqEntry) :
  let st := fold_left pushOnto cands ([], []) in
  snd st = List.map faqKey (fst st)
  /\ NoDup (snd st)
  /\ (forall e, In e cands -> In (faqKey e) (snd st))
  /\ (forall i f, nth_error (fst st) i = Some f -> firstOfKey cands f)
  /\ Forall (fun f => len (answer f) <= 1202) (fst st).
Proof.
  induction cands as [|x cands IH] using rev_ind; simpl.
  - refine (conj _ (conj _ (conj _ (conj _ _))));
      [reflexivity | constructor | contradiction | | constructor].
    intros [|i] f; discriminate.
  - rewrite fold_left_app. simpl.
    destruct (fold_left pushOnto cands ([], [])) as [faqs seen].
    simpl in IH. destruct IH as (Hkeys & Hnd & Hseen & Hfirst & Hlen).
    unfold pushOnto, pushFaq. simpl. fold (faqKey x).
    destruct (has seen (faqKey x)) eqn:E; simpl.
    + apply has_In in E.
      refine (conj _ (conj _ (conj _ (conj _ _)))); try assumption.
      * intros e He. apply in_app_iff in He. destruct He as [He|[<-|[]]]; auto.
      * intros i f Hi. apply firstOfKey_snoc. eauto.
    + pose proof E as Hnot. apply has_not_In in Hnot.
      refine (conj _ (conj _ (conj _ (conj _ _)))).
      * unfold add. rewrite E, map_app, Hkeys. reflexivity.
      * apply NoDup_add. assumption.
      * intros e He. apply In_add.
        apply in_app_iff in He. destruct He as [He|[<-|[]]]; auto.
      * intros i f Hi.
        destruct (Nat.lt_ge_cases i (List.length faqs)) as [Hlt|Hge].
        -- rewrite nth_error_app1 in Hi by assumption.
           apply firstOfKey_snoc. eauto.
        -- rewrite nth_error_app2 in Hi by assumption.
           destruct (i - List.length faqs)%nat as [|n]; simpl in Hi;
             [|destruct n; discriminate].
           injection Hi as <-.
           exists (List.length cands), x.
           split; [rewrite nth_error_app2, Nat.sub_diag by lia; reflexivity|].
           split; [reflexivity|].
           intros j e' Hj Hj'. rewrite nth_error_app1 in Hj' by assumption.
           apply nth_error_In in Hj'. intros Heq.
           apply Hnot. rewrite <- Heq. auto.
      * apply Forall_app. split; [assumption|].
        repeat constructor. simpl. apply truncate_bound. lia.
Qed.

Lemma nth_error_firstn_Some {A} (n i : nat) (l : list A) (x : A) :
  nth_error (firstn n l) i = Some x -> nth_error l i = Some x.
Proof.
  revert i l. induction n as [|n IH]; intros i [|y l]; simpl;
    try (destruct i; discriminate).
  destruct i as [|i]; simpl; [auto | apply IH].
Qed.

Lemma NoDup_firstn {A} (n : nat) (l : list A) : NoDup l -> NoDup (firstn n l).
Proof.
  intros Hl. rewrite <- (firstn_skipn n l) in Hl.
  exact (NoDup_app_remove_r _ _ Hl).
Qed.

(** The capped list is a prefix of the deduplicated one. *)
Lemma faqs_prefix (pages : list Page) (config : Config.t) :
  (0 <= Config.maxFaqs config)%Q ->
  Dataset.faqs (buildFaqDataset pages config)
  = firstn (Z.to_nat (toInteger (Config.maxFaqs config)))
           (fst (fold_left pushOnto (candidates config pages) ([], []))).
Proof.
  intros Hm. unfold buildFaqDataset. simpl.
  rewrite emit_pushes.
  apply slice_from_start, toInteger_nonneg, Hm.
Qed.

Lemma faqs_answers_bounded (pages : list Page) (config : Config.t) :
  Forall (fun f => len (answer f) <= 1202)
         (Dataset.faqs (buildFaqDataset pages config)).
Proof.
  unfold buildFaqDataset. simpl. rewrite emit_pushes.
  destruct (pushes_invariant (candidates config pages))
    as (_ & _ & _ & _ & Hlen).
  rewrite Forall_forall in *. intros f Hf. apply Hlen.
  exact (In_slice _ _ _ _ Hf).
Qed.

End DatasetFacts.

(** C2, as the code has it. Every answer of the built dataset has at
    most 1202 units: the cut at 1200 and the two units of the marker. *)
Theorem faq_answers_at_most_1202 `{Platform} (pages : list Page)
  (config : Config.t) :
  Forall (fun f => len (answer f) <= 1202)
         (Dataset.faqs (buildFaqDataset pages config)).
Proof. apply faqs_answers_bounded. Qed.

(** C2, as stated, fails: a section of 1201 units gives an answer of
    1202 units. *)
Lemma faq_answer_exceeds_1200 :
  ~ Forall (fun f => len (answer f) <= 1200)
           (Dataset.faqs (@buildFaqDataset Ex.offline [Ex.longPage] Ex.config)).
Proof.
  intros Hall.
  apply (proj2 (Forall_map (fun f => len (answer f)) (fun n => n <= 1200) _))
    in Hall.
  assert (E : List.map (fun f => len (answer f))
                (Dataset.faqs
                   (@buildFaqDataset Ex.offline [Ex.longPage] Ex.config))
              = [1202]) by (vm_compute; reflexivity).
  rewrite E in Hall. inversion Hall; subst. lia.
Qed.

Section DatasetShape.

Context `{Platform}.

Lemma pushes_keepFirsts (cands : list FaqEntry) :
  forall faqs seen,
    fst (fold_left pushOnto cands (faqs, seen))
    = faqs ++ List.map stored (keepFirsts seen cands).
Proof.
  induction cands as [|e cands IH]; intros faqs seen; simpl.
  - symmetry. apply app_nil_r.
  - unfold pushOnto at 2. unfold pushFaq. simpl. fold (faqKey e).
    destruct (has seen (faqKey e)).
    + apply IH.
    + rewrite IH, <- app_assoc. reflexivity.
Qed.

Lemma faqs_in_words (pages : list Page) (config : Config.t) :
  Dataset.faqs (buildFaqDataset pages config)
  = slice (List.map stored (keepFirsts [] (candidates config pages)))
          0 (toInteger (Config.maxFaqs config)).
Proof.
  unfold buildFaqDataset. simpl.
  rewrite emit_pushes, pushes_keepFirsts. reflexivity.
Qed.

Lemma keepFirsts_sub (cands : list FaqEntry) :
  forall seen e, In e (keepFirsts seen cands) -> In e cands.
Proof.
  induction cands as [|x cands IH]; intros seen e; simpl; [auto|].
  destruct (has seen (faqKey x)); simpl; [eauto|].
  intros [->|Hin]; eauto.
Qed.

Lemma length_keepFirsts (cands : list FaqEntry) :
  forall seen,
    (List.length (keepFirsts seen cands) <= List.length cands)%nat.
Proof.
  induction cands as [|x cands IH]; intros seen; simpl; [lia|].
  destruct (has seen (faqKey x)); simpl;
    match goal with |- context [keepFirsts ?s cands] => specialize (IH s) end;
    lia.
Qed.

Lemma keepFirsts_covers (cands : list FaqEntry) :
  forall seen e,
    In e cands ->
    In (faqKey e) seen
    \/ exists f, In f (keepFirsts seen cands) /\ faqKey f = faqKey e.
Proof.
  induction cands as [|x cands IH]; intros seen e; simpl; [contradiction|].
  intros [->|Hin].
  - destruct (has seen (faqKey e)) eqn:E.
    + left. apply has_In, E.
    + right. exists e. simpl. auto.
  - destruct (has seen (faqKey x)) eqn:E.
    + apply IH, Hin.
    + destruct (IH (add seen (faqKey x)) e Hin) as [Hseen|(f & Hf & Hkey)].
      * apply In_add in Hseen. destruct Hseen as [Hseen|Hkey]; [auto|].
        right. exists x. simpl. auto.
      * right. exists f. simpl. auto.
Qed.

End DatasetShape.

(** C4. With [maxFaqs >= 0], the dataset has at most [maxFaqs] entries,
    their lower-cased questions are pairwise distinct, and each entry
    is the stored form of the first candidate, in the order of the
    [pushFaq] calls, that has its lower-cased question.  What is kept
    is the first [maxFaqs] of these first candidates, in their order: a
    candidate finds its lower-cased question in the dataset, with the
    first candidate that has it, unless the dataset is full. *)
Theorem faqs_capped_distinct_first_wins `{Platform} (pages : list Page)
  (config : Config.t) :
  (0 <= Config.maxFaqs config)%Q ->
  let faqs := Dataset.faqs (buildFaqDataset pages config) in
  (inject_Z (len faqs) <= Config.maxFaqs config)%Q
  /\ NoDup (List.map faqKey faqs)
  /\ (forall i f,
         nth_error faqs i = Some f ->
         exists k e,
           nth_error (candidates config pages) k = Some e
           /\ f = stored e
           /\ forall j e', (j < k)%nat
                           -> nth_error (candidates config pages) j = Some e'
                           -> faqKey e' <> faqKey e)
  /\ faqs
     = firstn (Z.to_nat (toInteger (Config.maxFaqs config)))
              (List.map stored (keepFirsts [] (candidates config pages)))
  /\ (forall e,
         In e (candidates config pages) ->
         (exists f, In f faqs /\ faqKey f = faqKey e)
         \/ len faqs = toInteger (Config.maxFaqs config)).
Proof.
  intros Hm faqs.
  assert (Hkept : faqs
                  = firstn (Z.to_nat (toInteger (Config.maxFaqs config)))
                           (List.map stored
                              (keepFirsts [] (candidates config pages)))).
  { subst faqs. rewrite faqs_in_words.
    apply slice_from_start, toInteger_nonneg, Hm. }
  pose proof (toInteger_nonneg _ Hm) as Hcap.
  assert (Hold : (inject_Z (len faqs) <= Config.maxFaqs config)%Q
                 /\ NoDup (List.map faqKey faqs)
                 /\ forall i f,
                      nth_error faqs i = Some f ->
                      exists k e,
                        nth_error (candidates config pages) k = Some e
                        /\ f = stored e
                        /\ forall j e',
                             (j < k)%nat
                             -> nth_error (candidates config pages) j = Some e'
                             -> faqKey e' <> faqKey e).
  { subst faqs. clear Hkept. rewrite faqs_prefix by assumption.
    destruct (pushes_invariant (candidates config pages))
      as (Hkeys & Hnd & _ & Hfirst & _).
    set (all := fst (fold_left pushOnto (candidates config pages) ([], [])))
      in *.
    split; [|split].
    - eapply Qle_trans; [|apply toInteger_le, Hm].
      rewrite <- Zle_Qle. unfold len. rewrite length_firstn. lia.
    - rewrite <- firstn_map. apply NoDup_firstn.
      rewrite <- Hkeys. exact Hnd.
    - intros i f Hi. apply nth_error_firstn_Some in Hi.
      exact (Hfirst i f Hi). }
  destruct Hold as (Hlen & Hnd & Hfirst).
  split; [exact Hlen|]. split; [exact Hnd|]. split; [exact Hfirst|].
  split; [exact Hkept|].
  intros e He.
  set (firsts := keepFirsts [] (candidates config pages)) in *.
  destruct (Z_le_gt_dec (len firsts) (toInteger (Config.maxFaqs config)))
    as [Hfits|Hfull].
  - left. destruct (keepFirsts_covers (candidates config pages) [] e He)
      as [[]|(f & Hf & Hkey)].
    exists (stored f). split; [|exact Hkey].
    rewrite Hkept, firstn_all2
      by (rewrite length_map; unfold len in Hfits; lia).
    apply in_map, Hf.
  - right. rewrite Hkept. unfold len in *.
    rewrite length_firstn, length_map. lia.
Qed.

Lemma faqs_capped_distinct_first_wins_witness :
  (0 <= Config.maxFaqs Ex.config)%Q
  /\ let pages := [Ex.page200; Ex.page30] in
     let faqs := Dataset.faqs (@buildFaqDataset Ex.offline pages Ex.config) in
     len (@candidates Ex.offline Ex.config pages) = 5
     /\ len faqs = 2
     /\ (inject_Z (len faqs) <= Config.maxFaqs Ex.config)%Q
     /\ NoDup (List.map (@faqKey Ex.offline) faqs)
     /\ (forall i f,
            nth_error faqs i = Some f ->
            exists k e,
              nth_error (@candidates Ex.offline Ex.config pages) k = Some e
              /\ f = stored e
              /\ forall j e',
                   (j < k)%nat
                   -> nth_error (@candidates Ex.offline Ex.config pages) j
                      = Some e'
                   -> @faqKey Ex.offline e' <> @faqKey Ex.offline e)
     /\ faqs
        = firstn (Z.to_nat (toInteger (Config.maxFaqs Ex.config)))
                 (List.map stored
                    (@keepFirsts Ex.offline []
                       (@candidates Ex.offline Ex.config pages)))
     /\ (forall e,
            In e (@candidates Ex.offline Ex.config pages) ->
            (exists f, In f faqs
                       /\ @faqKey Ex.offline f = @faqKey Ex.offline e)
            \/ len faqs = toInteger (Config.maxFaqs Ex.config)).
Proof.
  assert (Hm : (0 <= Config.maxFaqs Ex.config)%Q)
    by (apply Qle_bool_iff; reflexivity).
  split; [exact Hm|]. intros pages faqs.
  split; [vm_compute; reflexivity|]. split; [vm_compute; reflexivity|].
  exact (@faqs_capped_distinct_first_wins Ex.offline pages Ex.config Hm).
Defined.

(** ** The normaliser *)





Lemma dropWhile_twice {A} (p : A -> bool) (l : list A) :
  dropWhile p (dropWhile p l) = dropWhile p l.
Proof.
  induction l as [|x l IH]; [reflexivity|]. simpl.
  destruct (p x) eqn:E; [exact IH|]. simpl. rewrite E. reflexivity.
Qed.

Lemma dropWhileEnd_twice {A} (p : A -> bool) (l : list A) :
  dropWhileEnd p (dropWhileEnd p l) = dropWhileEnd p l.
Proof.
  unfold dropWhileEnd. rewrite rev_involutive, dropWhile_twice. reflexivity.
Qed.

Section NormalizerFacts.

Context `{Platform}.


Lemma clearHash_clearHash (u : URL.t) :
  URL.clearHash (URL.clearHash u) = URL.clearHash u.
Proof.
  unfold URL.clearHash, URL.strippedPath. simpl.
  destruct (URL.opaque u), (URL.query u); simpl;
    rewrite ?dropWhileEnd_twice; reflexivity.
Qed.

Lemma clearHash_setPathname (u : URL.t) (p : jsstring) :
  URL.clearHash (URL.setPathname u p) = URL.setPathname (URL.clearHash u) p.
Proof.
  unfold URL.setPathname. simpl.
  destruct (URL.opaque u) eqn:Hop; [reflexivity|].
  unfold URL.clearHash, URL.strippedPath. simpl. reflexivity.
Qed.

Lemma clearHash_normalizeRecord (u : URL.t) :
  URL.clearHash (normalizeRecord u) = normalizeRecord u.
Proof.
  unfold normalizeRecord.
  destruct (negb _ && _); [|apply clearHash_clearHash].
  rewrite clearHash_setPathname, clearHash_clearHash. reflexivity.
Qed.




Lemma fragment_normalizeRecord (u : URL.t) :
  URL.fragment (normalizeRecord u) = None.
Proof. rewrite <- clearHash_normalizeRecord. reflexivity. Qed.



End NormalizerFacts.

(** ** The small platform's parser inverts the serialiser *)

Module SimFacts.

Import Sim.










End SimFacts.

(** ** Idempotence of the normaliser *)




(** ** The frontier manager: no URL is processed twice *)

Section FrontierFacts.

Context `{Platform}.

Variable config : Config.t.

Lemma fetchedUrls_app (t1 t2 : list event) :
  fetchedUrls (t1 ++ t2) = fetchedUrls t1 ++ fetchedUrls t2.
Proof. apply flat_map_app. Qed.

Lemma renderedUrls_app (t1 t2 : list event) :
  renderedUrls (t1 ++ t2) = renderedUrls t1 ++ renderedUrls t2.
Proof. apply flat_map_app. Qed.





Lemma NoDup_snoc (l : list jsstring) (x : jsstring) :
  NoDup l -> ~ In x l -> NoDup (l ++ [x]).
Proof.
  intros Hl Hx. apply NoDup_rev in Hl.
  rewrite <- (rev_involutive (l ++ [x])). apply NoDup_rev.
  rewrite rev_app_distr. simpl. constructor; [|assumption].
  rewrite <- in_rev. assumption.
Qed.





End FrontierFacts.




(** ** The frontier manager: the loop ends *)

Section TerminationFacts.

Context `{Platform}.

Variable config : Config.t.

(** The comparisons with [maxPages] are comparisons with [pageCap]. *)
Lemma geb_pageCap (n : Z) :
  geb (inject_Z n) (Config.maxPages config) = true <-> pageCap config <= n.
Proof.
  rewrite geb_true. unfold pageCap. split.
  - intros Hle. apply Qceiling_resp_le in Hle.
    rewrite Qceiling_Z in Hle. exact Hle.
  - intros Hle. eapply Qle_trans; [apply Qle_ceiling|].
    rewrite <- Zle_Qle. exact Hle.
Qed.

Lemma ltb_pageCap (n : Z) :
  ltb (inject_Z n) (Config.maxPages config) = true <-> n < pageCap config.
Proof.
  unfold ltb. rewrite negb_true_iff. fold (geb (inject_Z n) (Config.maxPages config)).
  pose proof (geb_pageCap n) as Hg.
  destruct (geb (inject_Z n) (Config.maxPages config)).
  - split; [discriminate|]. intros Hlt. apply proj1 in Hg.
    specialize (Hg eq_refl). lia.
  - split; [|reflexivity]. intros _.
    destruct (Z_lt_ge_dec n (pageCap config)) as [Hlt|Hge]; [exact Hlt|].
    apply proj2 in Hg. assert (false = true) by (apply Hg; lia). discriminate.
Qed.

Lemma continues_spec (st : Frontier) :
  continues config st = true
  <-> 0 < len (queue st) /\ len (pages st) < pageCap config.
Proof.
  unfold continues. rewrite andb_true_iff, Z.ltb_lt, ltb_pageCap. tauto.
Qed.

Lemma splice0_spec {A} (l : list A) (deleteCount : Q) :
  let '(batch, rest) := splice0 l deleteCount in
  l = batch ++ rest
  /\ len batch = Z.min (Z.max (toInteger deleteCount) 0) (len l).
Proof.
  unfold splice0. split.
  - symmetry. apply firstn_skipn.
  - unfold len. rewrite length_firstn. lia.
Qed.

Lemma processBatch_length (batch : list jsstring) :
  forall visited,
    let '(results, _, _) := processBatch batch visited config in
    List.length results = List.length batch.
Proof.
  induction batch as [|url rest IH]; intros visited; simpl; [reflexivity|].
  destruct (processPage url visited config) as [[r v1] ev1].
  specialize (IH v1).
  destruct (processBatch rest v1 config) as [[rs v2] ev2].
  simpl. congruence.
Qed.

(** A link is appended only while the pages and the queue together
    are below [maxPages]. *)
Lemma enqueueLink_grows (visited : StringSet) (pages : list Page)
  (queue : list jsstring) (link : jsstring) :
  enqueueLink config visited pages queue link <> queue ->
  enqueueLink config visited pages queue link = queue ++ [link]
  /\ (inject_Z (len pages + len queue) < Config.maxPages config)%Q
  /\ startsWith link (Config.origin config) = true
  /\ ~ In link visited /\ ~ In link queue.
Proof.
  unfold enqueueLink.
  destruct (geb _ (Config.maxPages config)) eqn:Ecap; simpl;
    [congruence|].
  destruct (has visited link) eqn:Evis; simpl; [congruence|].
  destruct (includes queue link) eqn:Eq; simpl; [congruence|].
  destruct (startsWith link (Config.origin config)); [|congruence].
  intros _. split; [reflexivity|]. split; [|split; [reflexivity|split]].
  - apply ltb_true. unfold ltb, geb in *. rewrite Ecap. reflexivity.
  - apply has_not_In. exact Evis.
  - apply includes_not_In. exact Eq.
Qed.

Lemma enqueueLink_bounded (visited : StringSet) (pages : list Page)
  (queue : list jsstring) (link : jsstring) (w : Z) :
  pageCap config <= w -> len queue <= w ->
  len (enqueueLink config visited pages queue link) <= w.
Proof.
  intros Hcap Hq.
  destruct (list_eq_dec (list_eq_dec N.eq_dec)
              (enqueueLink config visited pages queue link) queue)
    as [->|Hne]; [exact Hq|].
  apply enqueueLink_grows in Hne. destruct Hne as (-> & Hlt & _).
  rewrite len_app. change (len [link]) with 1.
  assert (Hlt' : len pages + len queue < pageCap config).
  { apply ltb_pageCap, ltb_true. exact Hlt. }
  pose proof (len_nonneg pages). lia.
Qed.

Lemma enqueueLinks_bounded (visited : StringSet) (pages : list Page)
  (links : list jsstring) (w : Z) :
  pageCap config <= w ->
  forall queue,
    len queue <= w ->
    len (fold_left (enqueueLink config visited pages) links queue) <= w.
Proof.
  intros Hcap. induction links as [|link links IH]; intros queue Hq; simpl.
  - exact Hq.
  - apply IH, enqueueLink_bounded; assumption.
Qed.

(** What absorbing the results of a batch does to the pages and to
    the queue. *)
Lemma absorb_fold (visited : StringSet)
  (results : list (option (Page * list jsstring))) :
  forall pages queue,
    let '(pages', queue') :=
      fold_left (absorb config visited) results (pages, queue) in
    len pages <= len pages' <= len pages + len results
    /\ (len pages' = len pages -> queue' = queue)
    /\ forall w, pageCap config <= w -> len queue <= w -> len queue' <= w.
Proof.
  induction results as [|r results IH]; intros pages queue.
  - simpl. change (len (@nil (option (Page * list jsstring)))) with 0.
    split; [lia|]. split; auto.
  - change (len (r :: results)) with (Z.of_nat (S (List.length results))).
    rewrite Nat2Z.inj_succ. fold (len results). simpl fold_left.
    destruct r as [[page links]|]; simpl absorb.
    + specialize (IH (pages ++ [page])
                     (fold_left (enqueueLink config visited (pages ++ [page]))
                                links queue)).
      destruct (fold_left (absorb config visited) results _)
        as [pages' queue'].
      destruct IH as (Hp & _ & Hw).
      rewrite len_app in Hp. change (len [page]) with 1 in Hp.
      split; [lia|]. split; [lia|].
      intros w Hcap Hq. apply Hw; [assumption|].
      apply enqueueLinks_bounded; assumption.
    + specialize (IH pages queue).
      destruct (fold_left (absorb config visited) results (pages, queue))
        as [pages' queue'].
      destruct IH as (Hp & Hsame & Hw).
      split; [lia|]. split; assumption.
Qed.

(** One turn of the loop: the batch is not empty, the potential
    decreases, and the queue stays within its bound. *)
Lemma crawlStep_decreases (st : Frontier) (w : Z) :
  (1 <= Config.concurrency config)%Q ->
  continues config st = true ->
  pageCap config <= w -> len (queue st) <= w ->
  potential config w (crawlStep config st) < potential config w st
  /\ len (queue (crawlStep config st)) <= w.
Proof.
  intros Hconc Hcont Hcap Hq.
  apply continues_spec in Hcont. destruct Hcont as [Hq0 Hp].
  pose proof (toInteger_ge_1 _ Hconc) as Hb.
  unfold potential, crawlStep, batchMax.
  pose proof (splice0_spec (queue st) (Config.concurrency config)) as Hsplice.
  destruct (splice0 (queue st) (Config.concurrency config)) as [batch rest].
  destruct Hsplice as [Hqueue Hbatch].
  pose proof (processBatch_length batch (visited st)) as Hlen.
  destruct (processBatch batch (visited st) config) as [[results v] events].
  pose proof (absorb_fold v results (pages st) rest) as Habs.
  destruct (fold_left (absorb config v) results (pages st, rest))
    as [pages' queue'].
  destruct Habs as (Hpages & Hsame & Hw). simpl.
  assert (Hrest : len rest = len (queue st) - len batch)
    by (rewrite Hqueue, len_app; lia).
  assert (Hres : len results = len batch) by (unfold len; congruence).
  pose proof (len_nonneg rest) as Hrest0.
  pose proof (len_nonneg queue') as Hq'0.
  assert (Hq' : len queue' <= w) by (apply Hw; [assumption | lia]).
  split; [|exact Hq'].
  set (B := Z.max (toInteger (Config.concurrency config)) 0) in *.
  assert (HB : 1 <= B) by (subst B; lia).
  destruct (Z.eq_dec (len pages') (len (pages st))) as [Heq|Hne].
  - rewrite (Hsame Heq), Heq, Hrest. lia.
  - set (X := pageCap config + B - len (pages st)).
    set (X' := pageCap config + B - len pages').
    assert (HX : 0 <= X' <= X - 1) by (subst X X'; lia).
    assert (Hmul : X' * (w + 1) <= (X - 1) * (w + 1))
      by (apply Z.mul_le_mono_nonneg_r; lia).
    lia.
Qed.

Lemma crawlLoop_more_fuel (fuel : nat) :
  forall fuel' st st',
    crawlLoop fuel config st = Some st' -> (fuel <= fuel')%nat ->
    crawlLoop fuel' config st = Some st'.
Proof.
  induction fuel as [|fuel IH]; intros fuel' st st' Hrun Hle.
  - simpl in Hrun. destruct (continues config st) eqn:E; [discriminate|].
    destruct fuel'; simpl; rewrite E; exact Hrun.
  - destruct fuel' as [|fuel']; [lia|]. simpl in *.
    destruct (continues config st); [|exact Hrun].
    apply IH; [exact Hrun | lia].
Qed.

(** With fuel for the potential of a state the loop ends, in a state
    where the condition of the loop fails. *)
Lemma crawlLoop_ends (w : Z) :
  (1 <= Config.concurrency config)%Q ->
  pageCap config <= w ->
  forall (fuel : nat) (st : Frontier),
    reachable config st ->
    len (queue st) <= w ->
    potential config w st <= Z.of_nat fuel ->
    exists st',
      crawlLoop fuel config st = Some st'
      /\ reachable config st'
      /\ continues config st' = false.
Proof.
  intros Hconc Hcap.
  induction fuel as [|fuel IH]; intros st Hreach Hq Hpot.
  - simpl. destruct (continues config st) eqn:Hcont; [|eauto].
    exfalso. apply continues_spec in Hcont. destruct Hcont as [Hq0 Hp].
    unfold potential, batchMax in Hpot.
    assert (0 <= (pageCap config
                  + Z.max (toInteger (Config.concurrency config)) 0
                  - len (pages st)) * (w + 1))
      by (apply Z.mul_nonneg_nonneg; lia).
    lia.
  - simpl. destruct (continues config st) eqn:Hcont; [|eauto].
    destruct (crawlStep_decreases st w Hconc Hcont Hcap Hq) as [Hdec Hq'].
    apply IH; [apply reach_step; assumption | exact Hq' | lia].
Qed.

End TerminationFacts.

(** C9. With a concurrency of at least one, the crawl loop ends: some
    amount of fuel, and every larger one, lets [crawlSite] return; the
    loop has then left at the first state with an empty queue or with
    [maxPages] pages or more.  Every turn takes at least one URL from
    the queue, which is not empty, and a link is appended to the queue
    only while pages and queue together are below [maxPages]. *)
Theorem crawl_terminates `{Platform} (config : Config.t) :
  (1 <= Config.concurrency config)%Q ->
  (exists fuel st,
      crawlLoop fuel config (initialFrontier config) = Some st
      /\ (forall fuel', (fuel <= fuel')%nat ->
                        crawlSite fuel' config = Some (pages st))
      /\ reachable config st
      /\ (queue st = []
          \/ (Config.maxPages config <= inject_Z (len (pages st)))%Q))
  /\ (forall st,
         continues config st = true
         <-> queue st <> []
             /\ (inject_Z (len (pages st)) < Config.maxPages config)%Q)
  /\ (forall st,
         continues config st = true ->
         let '(batch, rest) :=
           splice0 (queue st) (Config.concurrency config) in
         queue st = batch ++ rest /\ 1 <= len batch)
  /\ (forall visited pages queue link,
         enqueueLink config visited pages queue link <> queue ->
         enqueueLink config visited pages queue link = queue ++ [link]
         /\ (inject_Z (len pages + len queue) < Config.maxPages config)%Q).
Proof.
  intros Hconc. split; [|split; [|split]].
  - set (w := Z.max (len (Config.seedUrls config)) (pageCap config)).
    set (fuel := Z.to_nat (potential config w (initialFrontier config))).
    destruct (crawlLoop_ends config w Hconc (Z.le_max_r _ _) fuel
                (initialFrontier config) (reach_initial config))
      as (st & Hrun & Hreach & Hstop).
    { simpl. apply Z.le_max_l. }
    { subst fuel. lia. }
    exists fuel, st. split; [exact Hrun|]. split; [|split; [exact Hreach|]].
    + intros fuel' Hle. unfold crawlSite.
      rewrite (crawlLoop_more_fuel config fuel fuel' _ st Hrun Hle).
      reflexivity.
    + unfold continues in Hstop. apply andb_false_iff in Hstop.
      destruct Hstop as [Hq|Hp].
      * left. apply Z.ltb_ge in Hq. apply len_nil_iff.
        pose proof (len_nonneg (queue st)). lia.
      * right. apply ltb_false. exact Hp.
  - intros st. unfold continues.
    rewrite andb_true_iff, Z.ltb_lt, ltb_true.
    assert (Hq : 0 < len (queue st) <-> queue st <> []).
    { rewrite <- len_nil_iff. pose proof (len_nonneg (queue st)). lia. }
    tauto.
  - intros st Hcont. apply continues_spec in Hcont.
    destruct Hcont as [Hq _].
    pose proof (splice0_spec (queue st) (Config.concurrency config)) as Hs.
    destruct (splice0 (queue st) (Config.concurrency config)) as [batch rest].
    destruct Hs as [Hqueue Hbatch]. split; [exact Hqueue|].
    pose proof (toInteger_ge_1 _ Hconc). lia.
  - intros visited pages queue link Hne.
    destruct (enqueueLink_grows config visited pages queue link Hne)
      as (Hpush & Hlt & _).
    split; assumption.
Qed.

Lemma crawl_terminates_witness :
  (1 <= Config.concurrency Ex.siteConfig)%Q
  /\ exists fuel st,
       @crawlLoop Ex.online fuel Ex.siteConfig (initialFrontier Ex.siteConfig)
       = Some st
       /\ (queue st = []
           \/ (Config.maxPages Ex.siteConfig <= inject_Z (len (pages st)))%Q).
Proof.
  assert (Hconc : (1 <= Config.concurrency Ex.siteConfig)%Q)
    by (apply Qle_bool_iff; reflexivity).
  split; [exact Hconc|].
  destruct (@crawl_terminates Ex.online Ex.siteConfig Hconc)
    as ((fuel & st & Hrun & _ & _ & Hexit) & _).
  exists fuel, st. split; assumption.
Defined.

(** The clamp of [buildConfig] keeps the concurrency between 1 and 5. *)
Lemma concurrencyOf_range (num : option Q) :
  (1 <= Config.concurrencyOf num)%Q /\ (Config.concurrencyOf num <= 5)%Q.
Proof.
  unfold Config.concurrencyOf, Config.Qmin, Config.Qmax.
  destruct (Qle_bool (Config.toNumber num Config.DEFAULT_concurrency) 1)
    eqn:E1.
  - change (Qle_bool 1 5) with true. cbv iota. split.
    + apply Qle_refl.
    + apply Qle_bool_iff. reflexivity.
  - destruct (Qle_bool (Config.toNumber num Config.DEFAULT_concurrency) 5)
      eqn:E5.
    + split; [|apply Qle_bool_iff; exact E5].
      apply Qlt_le_weak, ltb_true. unfold ltb. rewrite E1. reflexivity.
    + split; [apply Qle_bool_iff; reflexivity | apply Qle_refl].
Qed.

(** ** The frontier manager: the origin test *)

(** C3 fails on the code. The test is [link.startsWith(config.origin)]:
    the home page of [https://x.com] links to
    [https://x.com.evil.org/a], whose origin is another one; the link
    is put on the queue, and the crawl fetches it. *)
Lemma foreign_origin_link_enqueued :
  let link := js "https://x.com.evil.org/a" in
  let st1 := @crawlStep Ex.online Ex.siteConfig (initialFrontier Ex.siteConfig) in
  In link (flat_map links (pages st1))
  /\ In link (queue st1)
  /\ option_map URL.origin (@parseURL Ex.online link)
     = Some (js "https://x.com.evil.org")
  /\ Config.origin Ex.siteConfig = js "https://x.com"
  /\ exists st,
       @crawlLoop Ex.online 3 Ex.siteConfig (initialFrontier Ex.siteConfig)
       = Some st
       /\ In link (fetchedUrls (trace st)).
Proof.
  intros link st1.
  split; [apply includes_In; vm_compute; reflexivity|].
  split; [apply includes_In; vm_compute; reflexivity|].
  split; [reflexivity|]. split; [reflexivity|].
  destruct (@crawlLoop Ex.online 3 Ex.siteConfig
              (initialFrontier Ex.siteConfig)) as [st|] eqn:Hrun;
    [|vm_compute in Hrun; discriminate].
  exists st. split; [reflexivity|].
  apply includes_In.
  assert (Hst : Some (includes (fetchedUrls (trace st)) link) = Some true).
  { change (option_map (fun st => includes (fetchedUrls (trace st)) link)
                       (Some st) = Some true).
    rewrite <- Hrun. vm_compute. reflexivity. }
  injection Hst as Hst. exact Hst.
Qed.

(** ** The driver *)

(** C8. When the crawl returns no page, [main] ends with the error of
    the empty crawl: exit status 1 and nothing written.  Whatever
    [main] writes is the dataset built from a crawl that returned at
    least one page. *)
Theorem empty_crawl_is_fatal `{Platform} (fuel : nat) (config : Config.t)
  (crawled : list Page) :
  crawlSite fuel config = Some crawled ->
  (crawled = [] ->
   main fuel (inr config)
   = Some (mkOutcome 1 [] [js "No pages were crawled successfully."]))
  /\ (forall out,
         main fuel (inr config) = Some out ->
         (exitCode out <> 0 -> written out = [])
         /\ forall path dataset,
              In (path, dataset) (written out) ->
              crawled <> []
              /\ exitCode out = 0
              /\ path = Config.outputPath config
              /\ dataset = buildFaqDataset crawled config).
Proof.
  intros Hcrawl. unfold main. rewrite Hcrawl. split.
  - intros ->. reflexivity.
  - intros out Hout.
    destruct (len crawled =? 0) eqn:Elen.
    + injection Hout as <-. simpl. split; [reflexivity | contradiction].
    + apply Z.eqb_neq in Elen.
      destruct (writeOutput (Config.outputPath config)
                            (buildFaqDataset crawled config)).
      * injection Hout as <-. simpl. split; [reflexivity | contradiction].
      * injection Hout as <-. simpl. split; [congruence|].
        intros path dataset [Hw|[]]. injection Hw as <- <-.
        repeat split. intros ->. apply Elen. reflexivity.
Qed.

Lemma empty_crawl_is_fatal_witness :
  @crawlSite Ex.offline 1 Ex.config = Some []
  /\ @main Ex.offline 1 (inr Ex.config)
     = Some (mkOutcome 1 [] [js "No pages were crawled successfully."]).
Proof.
  assert (Hcrawl : @crawlSite Ex.offline 1 Ex.config = Some [])
    by (vm_compute; reflexivity).
  split; [exact Hcrawl|].
  apply (@empty_crawl_is_fatal Ex.offline 1 Ex.config [] Hcrawl).
  reflexivity.
Defined.

(** ** The script at work *)

Example truncate_at_sentence :
  truncate (js "abcd. cdefg") 5 = js "abcd." ++ MARK
  /\ truncate (js "ab. cdefgh") 5 = js "ab. c" ++ MARK.
Proof. split; reflexivity. Qed.

Example words_of_padded_text : countWords (js "  hello   world foo ") = 3.
Proof. reflexivity. Qed.

(** One heading followed by a paragraph of 200 units, with at least
    180 units asked for: one section, named after the heading, and two
    entries, the overview of the page and the section. *)
Example mission_page :
  let page :=
    @extractPageContent (Sim.platform Ex.missionSite None) (js "<mission>")
                        (js "https://x.com/") Ex.config in
  let dataset :=
    @buildFaqDataset (Sim.platform Ex.missionSite None) [page] Ex.config in
  List.map heading (sections page) = [js "Our Mission"]
  /\ List.map tags (Dataset.faqs dataset)
     = [[js "page-overview"]; [js "section"; js "our-mission"]].
Proof. vm_compute. split; reflexivity. Qed.

Example crawl_of_the_site :
  option_map (fun st => (List.map url (pages st), queue st))
             (@crawlLoop Ex.online 3 Ex.siteConfig
                         (initialFrontier Ex.siteConfig))
  = Some ([js "https://x.com/"; js "https://x.com/about"], []).
Proof. vm_compute. reflexivity. Qed.

(** * More properties of the script *)

(** ** Prefixes and suffixes dropped by a test *)

Lemma dropWhile_split {A} (p : A -> bool) (l : list A) :
  exists pre, l = pre ++ dropWhile p l /\ forallb p pre = true.
Proof.
  induction l as [|x l (pre & Hl & Hpre)]; simpl.
  - exists []. auto.
  - destruct (p x) eqn:E.
    + exists (x :: pre). simpl. rewrite E, Hpre. split; [congruence | reflexivity].
    + exists []. auto.
Qed.

Lemma dropWhile_head {A} (p : A -> bool) (l : list A) (c : A) (t : list A) :
  dropWhile p l = c :: t -> p c = false.
Proof.
  induction l as [|x l IH]; simpl; [discriminate|].
  destruct (p x) eqn:E; [exact IH|]. intros Heq. injection Heq as <- _. exact E.
Qed.

Lemma dropWhile_all {A} (p : A -> bool) (l : list A) :
  dropWhile p l = [] <-> forallb p l = true.
Proof.
  induction l as [|x l IH]; simpl; [tauto|].
  destruct (p x); simpl; [exact IH|]. split; discriminate.
Qed.

Lemma dropWhile_fixed {A} (p : A -> bool) (l : list A) :
  (forall c t, l = c :: t -> p c = false) -> dropWhile p l = l.
Proof.
  destruct l as [|x l]; simpl; [reflexivity|].
  intros Hhead. rewrite (Hhead x l eq_refl). reflexivity.
Qed.

Lemma dropWhileEnd_split {A} (p : A -> bool) (l : list A) :
  exists suf, l = dropWhileEnd p l ++ suf /\ forallb p suf = true.
Proof.
  unfold dropWhileEnd.
  destruct (dropWhile_split p (rev l)) as (pre & Hl & Hpre).
  exists (rev pre). split.
  - rewrite <- (rev_involutive l), Hl at 1. apply rev_app_distr.
  - rewrite forallb_forall in *. intros x Hx. apply Hpre, in_rev, Hx.
Qed.

Lemma dropWhileEnd_last {A} (p : A -> bool) (l t : list A) (c : A) :
  dropWhileEnd p l = t ++ [c] -> p c = false.
Proof.
  unfold dropWhileEnd. intros Heq.
  apply (f_equal (@rev A)) in Heq.
  rewrite rev_involutive, rev_app_distr in Heq. simpl in Heq.
  exact (dropWhile_head p _ _ _ Heq).
Qed.

Lemma dropWhileEnd_all {A} (p : A -> bool) (l : list A) :
  dropWhileEnd p l = [] <-> forallb p l = true.
Proof.
  unfold dropWhileEnd. split.
  - intros Heq. apply (f_equal (@rev A)) in Heq.
    rewrite rev_involutive in Heq. simpl in Heq.
    apply dropWhile_all in Heq. rewrite forallb_forall in *.
    intros x Hx. apply Heq. rewrite <- in_rev. exact Hx.
  - intros Hall.
    assert (Hrev : forallb p (rev l) = true).
    { rewrite forallb_forall in *. intros x Hx. apply Hall, in_rev, Hx. }
    apply dropWhile_all in Hrev. rewrite Hrev. reflexivity.
Qed.

Lemma dropWhileEnd_fixed {A} (p : A -> bool) (l : list A) :
  (forall t c, l = t ++ [c] -> p c = false) -> dropWhileEnd p l = l.
Proof.
  intros Hlast. unfold dropWhileEnd.
  rewrite dropWhile_fixed; [apply rev_involutive|].
  intros c t Heq. apply (Hlast (rev t) c).
  rewrite <- (rev_involutive l), Heq. reflexivity.
Qed.

Lemma dropWhileEnd_head {A} (p : A -> bool) (l t : list A) (c : A) :
  dropWhileEnd p l = c :: t -> exists t', l = c :: t'.
Proof.
  intros Heq. destruct (dropWhileEnd_split p l) as (suf & Hl & _).
  rewrite Heq in Hl. exists (t ++ suf). exact Hl.
Qed.

(** [trim] takes white space off both ends, and nothing else. *)
Lemma trim_split (s : jsstring) :
  exists pre suf,
    s = pre ++ trim s ++ suf
    /\ forallb isWhiteSpace pre = true /\ forallb isWhiteSpace suf = true.
Proof.
  unfold trim.
  destruct (dropWhile_split isWhiteSpace s) as (pre & Hs & Hpre).
  destruct (dropWhileEnd_split isWhiteSpace (dropWhile isWhiteSpace s))
    as (suf & Hd & Hsuf).
  exists pre, suf. split; [|auto]. rewrite <- Hd. exact Hs.
Qed.

Lemma trim_edges (s : jsstring) : edgesOutside isWhiteSpace (trim s).
Proof.
  unfold trim. split.
  - intros c t Heq. apply dropWhileEnd_head in Heq. destruct Heq as [t' Heq].
    exact (dropWhile_head _ _ _ _ Heq).
  - intros t c Heq. exact (dropWhileEnd_last _ _ _ _ Heq).
Qed.

Lemma trim_fixed (s : jsstring) : edgesOutside isWhiteSpace s -> trim s = s.
Proof.
  intros [Hhead Hlast]. unfold trim.
  rewrite (dropWhile_fixed _ _ Hhead). apply dropWhileEnd_fixed, Hlast.
Qed.

Lemma trim_nil_iff (s : jsstring) :
  trim s = [] <-> forallb isWhiteSpace s = true.
Proof.
  unfold trim. split.
  - intros Hall. apply dropWhileEnd_all in Hall.
    destruct (dropWhile_split isWhiteSpace s) as (pre & Hs & Hpre).
    rewrite Hs, forallb_app. apply andb_true_iff. auto.
  - intros Hall. apply dropWhileEnd_all.
    apply dropWhile_all in Hall. rewrite Hall. reflexivity.
Qed.

Lemma In_trim (s : jsstring) (c : codeunit) : In c (trim s) -> In c s.
Proof.
  intros Hin. destruct (trim_split s) as (pre & suf & Hs & _).
  rewrite Hs. apply in_or_app. right. apply in_or_app. auto.
Qed.

(** ** Runs replaced by one unit *)

Section ReplaceRunsFacts.

Variable C : codeunit -> bool.
Variable r : codeunit.

Lemma In_replaceRuns (s : jsstring) :
  forall inRun c,
    In c (replaceRuns C r inRun s) -> c = r \/ (In c s /\ C c = false).
Proof.
  induction s as [|x s IH]; intros inRun c; simpl; [contradiction|].
  destruct (C x) eqn:E.
  - destruct inRun; simpl; intros Hin.
    + destruct (IH _ _ Hin) as [?|[? ?]]; auto.
    + destruct Hin as [<-|Hin]; [auto|].
      destruct (IH _ _ Hin) as [?|[? ?]]; auto.
  - simpl. intros [<-|Hin]; [auto|].
    destruct (IH _ _ Hin) as [?|[? ?]]; auto.
Qed.

Lemma replaceRuns_keeps (s : jsstring) :
  forall inRun c,
    In c s -> C c = false -> In c (replaceRuns C r inRun s).
Proof.
  induction s as [|x s IH]; intros inRun c; simpl; [contradiction|].
  intros [->|Hin] Hc.
  - rewrite Hc. left. reflexivity.
  - destruct (C x); [destruct inRun|]; simpl; auto.
Qed.

Lemma length_replaceRuns (s : jsstring) :
  forall inRun,
    (List.length (replaceRuns C r inRun s) <= List.length s)%nat.
Proof.
  induction s as [|x s IH]; intros inRun; simpl; [lia|].
  destruct (C x); [destruct inRun|]; simpl;
    match goal with |- context [replaceRuns C r ?b s] => specialize (IH b) end;
    lia.
Qed.

(** When [r] is in the class, the result has no two [r] in a row, and
    does not start with [r] inside a run. *)
Lemma replaceRuns_noRepeat (s : jsstring) :
  C r = true ->
  forall inRun,
    noRepeat r (replaceRuns C r inRun s)
    /\ (inRun = true -> forall t, replaceRuns C r inRun s <> r :: t).
Proof.
  intros Hr. induction s as [|x s IH]; intros inRun; simpl.
  - split; [exact I | discriminate].
  - destruct (C x) eqn:E.
    + destruct inRun.
      * apply IH.
      * destruct (IH true) as [Hno Hhead]. split; [|discriminate].
        destruct (replaceRuns C r true s) as [|b t] eqn:Et; [exact I|].
        split; [|exact Hno].
        intros [_ ->]. exact (Hhead eq_refl t eq_refl).
    + destruct (IH false) as [Hno _]. split.
      * destruct (replaceRuns C r false s) as [|b t]; [exact I|].
        split; [|exact Hno]. intros [-> _]. congruence.
      * intros _ t Heq. injection Heq as -> _. congruence.
Qed.

End ReplaceRunsFacts.

Lemma noRepeat_app (r : codeunit) (a b : jsstring) :
  noRepeat r (a ++ b) -> noRepeat r a /\ noRepeat r b.
Proof.
  induction a as [|x a IH]; simpl; [auto|].
  destruct a as [|y a]; simpl in *.
  - intros H. split; [exact I|]. destruct b; [exact I | apply H].
  - intros [Hxy Hrest]. destruct (IH Hrest) as [Ha Hb]. auto.
Qed.

(** ** [cleanText], [countWords] and [slugify] *)

Lemma In_removeZwsp (s : jsstring) (c : codeunit) :
  In c (removeZwsp s) <-> In c s /\ c <> ZWSP.
Proof.
  unfold removeZwsp. rewrite filter_In, negb_true_iff, N.eqb_neq. tauto.
Qed.

Lemma In_cleanText (s : jsstring) (c : codeunit) :
  In c (cleanText s) ->
  c <> ZWSP /\ (c = SPACE \/ (In c s /\ isWhiteSpace c = false)).
Proof.
  unfold cleanText, collapseSpaces. intros Hin.
  apply In_trim, In_removeZwsp in Hin. destruct Hin as [Hin Hz].
  split; [exact Hz|]. exact (In_replaceRuns _ _ _ _ _ Hin).
Qed.

Lemma cleanText_nil_iff (s : jsstring) :
  cleanText s = [] <-> forallb isBlank s = true.
Proof.
  unfold cleanText. rewrite trim_nil_iff, !forallb_forall. split.
  - intros Hall c Hc. unfold isBlank.
    destruct (isWhiteSpace c) eqn:Ews; [reflexivity|]. simpl.
    apply N.eqb_eq. destruct (N.eq_dec c ZWSP) as [Heq|Hne]; [exact Heq|].
    assert (Hin : In c (removeZwsp (collapseSpaces s))).
    { apply In_removeZwsp. split; [|exact Hne].
      apply replaceRuns_keeps; assumption. }
    apply Hall in Hin. congruence.
  - intros Hall c Hc. apply In_removeZwsp in Hc. destruct Hc as [Hc Hz].
    apply In_replaceRuns in Hc. destruct Hc as [->|[Hc Hws]]; [reflexivity|].
    apply Hall in Hc. unfold isBlank in Hc. rewrite Hws in Hc. simpl in Hc.
    apply N.eqb_eq in Hc. contradiction.
Qed.

(** X1. What [cleanText] returns holds no zero width space and no white
    space but the plain space, neither starts nor ends with white space,
    is not longer than the text, and is empty exactly when the text has
    white space and zero width spaces only. *)
Theorem cleanText_shape (s : jsstring) :
  Forall (fun c => c <> ZWSP /\ (isWhiteSpace c = true -> c = SPACE))
         (cleanText s)
  /\ edgesOutside isWhiteSpace (cleanText s)
  /\ len (cleanText s) <= len s
  /\ (cleanText s = [] <-> forallb isBlank s = true).
Proof.
  split; [|split; [|split]].
  - apply Forall_forall. intros c Hc. apply In_cleanText in Hc.
    destruct Hc as [Hz [->|[_ Hws]]]; split; auto. congruence.
  - apply trim_edges.
  - unfold cleanText, collapseSpaces, removeZwsp.
    eapply Z.le_trans; [apply len_trim|]. unfold len.
    apply Nat2Z.inj_le.
    etransitivity; [apply filter_length_le | apply length_replaceRuns].
  - apply cleanText_nil_iff.
Qed.

Lemma splitRuns_piece (s : jsstring) :
  forall inRun cur,
    cur <> [] -> existsb truthy (splitRuns inRun cur s) = true.
Proof.
  induction s as [|c s IH]; intros inRun cur Hcur; simpl.
  - destruct (rev cur) eqn:E; [|reflexivity].
    apply (f_equal (@rev codeunit)) in E. rewrite rev_involutive in E.
    contradiction.
  - destruct (isWhiteSpace c).
    + destruct inRun; [apply IH, Hcur|]. simpl.
      destruct (rev cur) eqn:E; [|reflexivity].
      apply (f_equal (@rev codeunit)) in E. rewrite rev_involutive in E.
      contradiction.
    + apply IH. discriminate.
Qed.

Lemma countWords_zero (text : jsstring) :
  countWords text = 0 <-> forallb isBlank text = true.
Proof.
  rewrite <- cleanText_nil_iff. unfold countWords. split.
  - intros Hzero. destruct (cleanText text) as [|c t] eqn:E; [reflexivity|].
    exfalso.
    assert (Hc : isWhiteSpace c = false).
    { destruct (trim_edges (removeZwsp (collapseSpaces text))) as [Hhead _].
      exact (Hhead c t E). }
    assert (Hex : existsb truthy (splitSpaces (c :: t)) = true).
    { unfold splitSpaces. simpl. rewrite Hc. apply splitRuns_piece.
      discriminate. }
    apply existsb_exists in Hex. destruct Hex as (w & Hw & Hwt).
    assert (Hin : In w (filter truthy (splitSpaces (c :: t))))
      by (apply filter_In; auto).
    apply len_nil_iff in Hzero. rewrite Hzero in Hin. contradiction.
  - intros ->. reflexivity.
Qed.

(** X2. [countWords] is never negative, and it is zero exactly for a
    text of white space and zero width spaces only. *)
Theorem countWords_zero_iff_blank (text : jsstring) :
  0 <= countWords text
  /\ (countWords text = 0 <-> forallb isBlank text = true).
Proof.
  split; [apply len_nonneg | apply countWords_zero].
Qed.

(** X3. A slug holds lower-case letters, digits and dashes only, has
    no two dashes in a row, and neither starts nor ends with a dash,
    whatever the text and the case mapping of the platform. *)
Theorem slugify_shape `{Platform} (text : jsstring) :
  Forall (fun c => notSlugUnit c = false \/ c = DASH) (slugify text)
  /\ noRepeat DASH (slugify text)
  /\ edgesOutside isDash (slugify text).
Proof.
  unfold slugify.
  set (runs := replaceRuns notSlugUnit DASH false
                 (toLowerCase (cleanText text))).
  destruct (dropWhile_split isDash runs) as (pre & Hruns & _).
  destruct (dropWhileEnd_split isDash (dropWhile isDash runs))
    as (suf & Hdrop & _).
  split; [|split].
  - apply Forall_forall. intros c Hc.
    assert (Hin : In c runs).
    { rewrite Hruns. apply in_or_app. right.
      rewrite Hdrop. apply in_or_app. auto. }
    apply In_replaceRuns in Hin. destruct Hin as [->|[_ Hslug]]; auto.
  - destruct (replaceRuns_noRepeat notSlugUnit DASH
                (toLowerCase (cleanText text)) eq_refl false) as [Hno _].
    fold runs in Hno. rewrite Hruns in Hno.
    apply noRepeat_app in Hno. destruct Hno as [_ Hno].
    rewrite Hdrop in Hno. apply noRepeat_app in Hno. apply Hno.
  - split.
    + intros c t Heq. apply dropWhileEnd_head in Heq.
      destruct Heq as [t' Heq]. exact (dropWhile_head _ _ _ _ Heq).
    + intros t c Heq. exact (dropWhileEnd_last _ _ _ _ Heq).
Qed.

(** ** [lastIndexOf] and [slice] *)

Lemma lastIndexOfFrom_spec (c : codeunit) (s : jsstring) :
  forall i found,
    (lastIndexOfFrom c s i found = found /\ ~ In c s)
    \/ exists a b,
         s = a ++ c :: b /\ ~ In c b
         /\ lastIndexOfFrom c s i found = i + len a.
Proof.
  induction s as [|x s IH]; intros i found; simpl.
  - left. auto.
  - destruct (IH (i + 1) (if N.eqb x c then i else found))
      as [[Hres Hnot]|(a & b & Hs & Hb & Hres)].
    + destruct (N.eqb x c) eqn:E.
      * apply N.eqb_eq in E. subst x. right. exists [], s.
        repeat split; [exact Hnot|]. rewrite Hres. unfold len. simpl. lia.
      * apply N.eqb_neq in E. left. split; [exact Hres|].
        intros [Heq|Hin]; [apply E, Heq | exact (Hnot Hin)].
    + right. exists (x :: a), b.
      repeat split; [rewrite Hs; reflexivity | exact Hb|].
      rewrite Hres. unfold len. simpl length. lia.
Qed.

Lemma lastIndexOf_spec (s : jsstring) (c : codeunit) :
  (lastIndexOf s c = -1 /\ ~ In c s)
  \/ exists a b, s = a ++ c :: b /\ ~ In c b /\ lastIndexOf s c = len a.
Proof.
  unfold lastIndexOf.
  destruct (lastIndexOfFrom_spec c s 0 (-1)) as [?|(a & b & ? & ? & ?)];
    [left; assumption|].
  right. exists a, b. repeat split; assumption.
Qed.

Lemma app_cons_last_unique (c : codeunit) (a b a' b' : jsstring) :
  a ++ c :: b = a' ++ c :: b' -> ~ In c b -> ~ In c b' -> a = a' /\ b = b'.
Proof.
  revert a'. induction a as [|x a IH]; intros [|x' a'] Heq Hb Hb'; simpl in *.
  - injection Heq as <-. auto.
  - injection Heq as <- ->. exfalso. apply Hb, in_or_app. simpl. auto.
  - injection Heq as -> <-. exfalso. apply Hb', in_or_app. simpl. auto.
  - injection Heq as <- Heq. destruct (IH _ Heq Hb Hb') as [-> ->]. auto.
Qed.

(** The index of the last [c] of a text that ends just after it. *)
Lemma lastIndexOf_found (a b : jsstring) (c : codeunit) :
  ~ In c b -> lastIndexOf (a ++ c :: b) c = len a.
Proof.
  intros Hb.
  destruct (lastIndexOf_spec (a ++ c :: b) c)
    as [[_ Hnot]|(a' & b' & Heq & Hb' & ->)].
  - exfalso. apply Hnot, in_or_app. simpl. auto.
  - destruct (app_cons_last_unique _ _ _ _ _ Heq Hb Hb') as [-> _].
    reflexivity.
Qed.

Lemma lastIndexOf_absent (s : jsstring) (c : codeunit) :
  ~ In c s -> lastIndexOf s c = -1.
Proof.
  intros Hs.
  destruct (lastIndexOf_spec s c) as [[? _]|(a & b & -> & _)]; [assumption|].
  exfalso. apply Hs, in_or_app. simpl. auto.
Qed.

(** White space around a text can only move the last period to the
    right. *)
Lemma lastIndexOf_padded (pre t suf : jsstring) (c : codeunit) :
  ~ In c suf -> lastIndexOf t c <= lastIndexOf (pre ++ t ++ suf) c.
Proof.
  intros Hsuf.
  destruct (lastIndexOf_spec t c) as [[-> _]|(a & b & -> & Hb & ->)].
  - destruct (lastIndexOf_spec (pre ++ t ++ suf) c)
      as [[-> _]|(a' & b' & _ & _ & ->)]; [lia|].
    pose proof (len_nonneg a'). lia.
  - replace (pre ++ (a ++ c :: b) ++ suf) with ((pre ++ a) ++ c :: (b ++ suf))
      by (rewrite <- !app_assoc; reflexivity).
    rewrite lastIndexOf_found.
    + rewrite len_app. pose proof (len_nonneg pre). lia.
    + intros Hin. apply in_app_iff in Hin. tauto.
Qed.

Lemma lastIndexOf_snoc_other (t : jsstring) (c d : codeunit) :
  d <> c -> lastIndexOf (t ++ [d]) c = lastIndexOf t c.
Proof.
  intros Hd.
  destruct (lastIndexOf_spec t c) as [[-> Hnot]|(a & b & -> & Hb & ->)].
  - apply lastIndexOf_absent. intros Hin. apply in_app_iff in Hin.
    destruct Hin as [Hin|[Hin|[]]]; [exact (Hnot Hin) | exact (Hd Hin)].
  - rewrite <- app_assoc. simpl. apply lastIndexOf_found.
    intros Hin. apply in_app_iff in Hin.
    destruct Hin as [Hin|[Hin|[]]]; [exact (Hb Hin) | exact (Hd Hin)].
Qed.

(** [slice(0, k)] is a prefix, whatever [k]. *)
Lemma slice_prefix {A} (l : list A) (k : Z) :
  exists rest, l = slice l 0 k ++ rest.
Proof.
  unfold slice. rewrite (clampIndex_nonneg _ 0) by lia.
  pose proof (len_nonneg l).
  replace (Z.min 0 (len l)) with 0 by lia.
  change (Z.to_nat 0) with 0%nat. rewrite skipn_O.
  eexists. symmetry. apply firstn_skipn.
Qed.

Lemma slice_of_app {A} (a b : list A) :
  slice (a ++ b) 0 (len a) = a.
Proof.
  rewrite slice_from_start by apply len_nonneg.
  unfold len. rewrite Nat2Z.id, firstn_app, Nat.sub_diag, firstn_all.
  simpl. apply app_nil_r.
Qed.

Lemma len_slice_exact {A} (l : list A) (k : Z) :
  0 <= k <= len l -> len (slice l 0 k) = k.
Proof.
  intros Hk. rewrite slice_from_start by lia.
  unfold len in *. rewrite length_firstn. lia.
Qed.

Lemma prefix_same_length {A} (x y rest rest' : list A) :
  x ++ rest = y ++ rest' -> List.length x = List.length y -> x = y.
Proof.
  revert y. induction x as [|a x IH]; intros [|b y]; simpl; try discriminate.
  - reflexivity.
  - intros Heq Hlen. injection Heq as <- Heq. f_equal.
    apply IH; [exact Heq | lia].
Qed.

(** ** [truncate] cuts an excerpt, once *)

Lemma truncate_cut (text : jsstring) (max : Z) :
  0 <= max -> max < len text ->
  truncate text max = trim (truncatedPart text max) ++ MARK.
Proof.
  intros Hmax Hlt. unfold truncate, truncatedPart.
  destruct (negb (truthy text) || (len text <=? max)) eqn:E.
  - apply orb_true_iff in E. destruct E as [E|E].
    + apply negb_true_iff, truthy_len in E. lia.
    + apply Z.leb_le in E. lia.
  - destruct (ltb _ _); reflexivity.
Qed.

Lemma truncatedPart_prefix (text : jsstring) (max : Z) :
  0 <= max ->
  exists rest,
    text = truncatedPart text max ++ rest
    /\ len (truncatedPart text max) <= max.
Proof.
  intros Hmax. unfold truncatedPart.
  destruct (slice_prefix text max) as [rest Hrest].
  pose proof (len_slice_from_start text max Hmax) as Hlen.
  destruct (ltb _ _).
  - destruct (slice_prefix (slice text 0 max)
                (lastIndexOf (slice text 0 max) PERIOD + 1)) as [rest' Hrest'].
    exists (rest' ++ rest). split.
    + rewrite app_assoc, <- Hrest'. exact Hrest.
    + pose proof (len_slice_le (slice text 0 max) 0
                    (lastIndexOf (slice text 0 max) PERIOD + 1)). lia.
  - exists rest. auto.
Qed.

(** X4. When [truncate] cuts, what stands before the marker is an
    excerpt of the text: it follows white space only, lies within the
    first [max] units, and neither starts nor ends with white space. *)
Theorem truncate_excerpt (text : jsstring) (max : Z) :
  0 <= max -> max < len text ->
  exists pre t post,
    truncate text max = t ++ MARK
    /\ text = pre ++ t ++ post
    /\ forallb isWhiteSpace pre = true
    /\ len pre + len t <= max
    /\ edgesOutside isWhiteSpace t
    /\ post <> [].
Proof.
  intros Hmax Hlt. rewrite truncate_cut by assumption.
  destruct (truncatedPart_prefix text max Hmax) as (rest & Htext & Hlen).
  destruct (trim_split (truncatedPart text max))
    as (pre & suf & Hx & Hpre & _).
  exists pre, (trim (truncatedPart text max)), (suf ++ rest).
  assert (Hlens : len (truncatedPart text max)
                  = len pre + len (trim (truncatedPart text max)) + len suf).
  { rewrite Hx at 1. rewrite !len_app. lia. }
  pose proof (len_nonneg suf).
  split; [reflexivity|]. split.
  { rewrite Htext at 1. rewrite Hx at 1. rewrite <- !app_assoc. reflexivity. }
  split; [exact Hpre|]. split; [lia|]. split; [apply trim_edges|].
  intros Hnil. apply app_eq_nil in Hnil. destruct Hnil as [_ ->].
  rewrite app_nil_r in Htext. rewrite Htext in Hlt at 1. lia.
Qed.

Lemma truncate_excerpt_witness :
  exists pre t post,
    truncate (js "  abcd. cdefg") 8 = t ++ MARK
    /\ js "  abcd. cdefg" = pre ++ t ++ post
    /\ forallb isWhiteSpace pre = true
    /\ len pre + len t <= 8
    /\ edgesOutside isWhiteSpace t
    /\ post <> [].
Proof.
  apply (truncate_excerpt (js "  abcd. cdefg") 8); [lia | reflexivity].
Defined.

Lemma trim_snoc_space (t : jsstring) :
  edgesOutside isWhiteSpace t -> trim (t ++ [SPACE]) = t.
Proof.
  intros [Hhead Hlast]. unfold trim.
  destruct t as [|c t]; [reflexivity|].
  rewrite dropWhile_fixed
    by (intros c' t' Heq; injection Heq as <- _; exact (Hhead c t eq_refl)).
  unfold dropWhileEnd. rewrite rev_app_distr. simpl rev at 1. simpl app.
  change (dropWhile isWhiteSpace (SPACE :: rev (c :: t)))
    with (dropWhile isWhiteSpace (rev (c :: t))).
  apply (dropWhileEnd_fixed isWhiteSpace (c :: t)). exact Hlast.
Qed.

(** A text that ends with a unit outside white space keeps this unit
    when it is trimmed. *)
Lemma trim_keeps_last (a pre t suf : jsstring) (c : codeunit) :
  a ++ [c] = pre ++ t ++ suf ->
  isWhiteSpace c = false ->
  forallb isWhiteSpace pre = true -> forallb isWhiteSpace suf = true ->
  suf = [] /\ exists t0, t = t0 ++ [c].
Proof.
  intros Heq Hc Hpre Hsuf.
  assert (Hs : suf = []).
  { induction suf as [|d s' _] using rev_ind; [reflexivity|].
    exfalso. rewrite !app_assoc in Heq. apply app_inj_tail in Heq.
    destruct Heq as [_ <-].
    rewrite forallb_app in Hsuf. simpl in Hsuf.
    rewrite Hc, andb_false_r in Hsuf. discriminate. }
  split; [exact Hs|]. subst suf. rewrite app_nil_r in Heq.
  induction t as [|x t _] using rev_ind.
  - exfalso. rewrite app_nil_r in Heq. subst pre.
    rewrite forallb_app in Hpre. simpl in Hpre.
    rewrite Hc, andb_false_r in Hpre. discriminate.
  - rewrite app_assoc in Heq. apply app_inj_tail in Heq.
    destruct Heq as [_ <-]. exists t. reflexivity.
Qed.

Lemma ltb_mono (m : Q) (q p : Z) :
  ltb m (inject_Z q) = true -> q <= p -> ltb m (inject_Z p) = true.
Proof.
  rewrite !ltb_true. intros Hlt Hle.
  eapply Qlt_le_trans; [exact Hlt|]. rewrite <- Zle_Qle. exact Hle.
Qed.

Lemma period_not_in_spaces (l : jsstring) :
  forallb isWhiteSpace l = true -> ~ In PERIOD l.
Proof.
  intros Hall Hin. rewrite forallb_forall in Hall.
  apply Hall in Hin. discriminate.
Qed.

Lemma sixTenths_not_below_minus_one (max : Z) :
  0 <= max -> ltb (inject_Z max * (6 # 10)) (inject_Z (-1)) = false.
Proof.
  intros Hmax. apply ltb_false. unfold Qle. simpl. lia.
Qed.

(** X5. Truncating what [truncate] returned, with the same bound,
    changes nothing. *)
Theorem truncate_idempotent (text : jsstring) (max : Z) :
  0 <= max -> truncate (truncate text max) max = truncate text max.
Proof.
  intros Hmax.
  destruct (Z_le_gt_dec (len text) max) as [Hle|Hgt].
  { rewrite (truncate_short text max Hle). apply truncate_short, Hle. }
  assert (Hlt : max < len text) by lia.
  rewrite (truncate_cut text max Hmax Hlt).
  destruct (truncatedPart_prefix text max Hmax) as (rest & Htext & Hlen).
  destruct (trim_split (truncatedPart text max))
    as (pre & suf & Hx & Hpre & Hsuf).
  pose proof (trim_edges (truncatedPart text max)) as Hedges.
  remember (truncatedPart text max) as x eqn:Ex.
  remember (trim x) as t eqn:Et.
  assert (Hlens : len x = len pre + len t + len suf)
    by (rewrite Hx at 1; rewrite !len_app; lia).
  pose proof (len_nonneg pre) as Hpre0.
  pose proof (len_nonneg suf) as Hsuf0.
  pose proof (len_nonneg t) as Ht0.
  assert (Hmark : len (t ++ MARK) = len t + 2)
    by (rewrite len_app; reflexivity).
  destruct (Z_le_gt_dec (len t + 2) max) as [Hshort|Hlong].
  { apply truncate_short. lia. }
  rewrite truncate_cut by lia. f_equal.
  assert (Htrim : trim t = t) by (apply trim_fixed, Hedges).
  destruct (Z.eq_dec (len t) max) as [Hfull|Hless].
  - (* nothing was trimmed: the second cut is the first one *)
    assert (Hp : pre = []) by (apply len_nil_iff; lia).
    assert (Hs : suf = []) by (apply len_nil_iff; lia).
    subst pre suf. simpl in Hx. rewrite app_nil_r in Hx.
    destruct (slice_prefix text max) as [rest' Hrest'].
    assert (Hsl : slice text 0 max = t).
    { symmetry. rewrite <- Hx.
      apply (prefix_same_length x (slice text 0 max) rest rest').
      - rewrite <- Htext. exact Hrest'.
      - apply Nat2Z.inj. fold (len x). fold (len (slice text 0 max)).
        rewrite len_slice_exact by lia. lia. }
    assert (Hsl' : slice (t ++ MARK) 0 max = t)
      by (rewrite <- Hfull; apply slice_of_app).
    assert (Hsame : truncatedPart (t ++ MARK) max = x).
    { rewrite Ex. unfold truncatedPart. rewrite Hsl, Hsl'. reflexivity. }
    rewrite Hsame, <- Et. reflexivity.
  - (* one unit was trimmed: the second cut ends with the space of the
       marker *)
    assert (Hlent : len t = max - 1) by lia.
    assert (Hsl' : slice (t ++ MARK) 0 max = t ++ [SPACE]).
    { change (t ++ MARK) with (t ++ [SPACE] ++ [ELLIPSIS]).
      rewrite app_assoc.
      replace max with (len (t ++ [SPACE]))
        by (rewrite len_app; change (len [SPACE]) with 1; lia).
      apply slice_of_app. }
    unfold truncatedPart. rewrite Hsl'.
    rewrite lastIndexOf_snoc_other by discriminate.
    destruct (ltb (inject_Z max * (6 # 10))
                  (inject_Z (lastIndexOf t PERIOD))) eqn:Econd;
      [|apply trim_snoc_space, Hedges].
    unfold truncatedPart in Ex.
    destruct (ltb (inject_Z max * (6 # 10))
                  (inject_Z (lastIndexOf (slice text 0 max) PERIOD)))
      eqn:Efirst.
    + destruct (lastIndexOf_spec (slice text 0 max) PERIOD)
        as [[Hnone _]|(a & b & Hab & Hb & Hidx)].
      { rewrite Hnone, sixTenths_not_below_minus_one in Efirst by assumption.
        discriminate. }
      rewrite Hidx, Hab in Ex.
      assert (Hxa : x = a ++ [PERIOD]).
      { rewrite Ex.
        change (a ++ PERIOD :: b) with (a ++ [PERIOD] ++ b).
        rewrite app_assoc.
        replace (len a + 1) with (len (a ++ [PERIOD]))
          by (rewrite len_app; reflexivity).
        apply slice_of_app. }
      rewrite Hxa in Hx. symmetry in Hx.
      destruct (trim_keeps_last a pre t suf PERIOD (eq_sym Hx) eq_refl
                  Hpre Hsuf) as [_ [t0 Ht0eq]].
      assert (Hq : lastIndexOf t PERIOD = len t0).
      { rewrite Ht0eq. apply (lastIndexOf_found t0 [] PERIOD).
        intros []. }
      rewrite Hq.
      replace (len t0 + 1) with (len t)
        by (rewrite Ht0eq, len_app; reflexivity).
      rewrite slice_of_app. exact Htrim.
    + exfalso.
      assert (Hle : lastIndexOf t PERIOD
                    <= lastIndexOf (slice text 0 max) PERIOD).
      { rewrite <- Ex, Hx.
        apply lastIndexOf_padded, period_not_in_spaces, Hsuf. }
      rewrite (ltb_mono _ _ _ Econd Hle) in Efirst. discriminate.
Qed.

Lemma truncate_idempotent_witness :
  0 <= 8
  /\ truncate (truncate (js "  abcd. cdefg") 8) 8
     = truncate (js "  abcd. cdefg") 8.
Proof.
  split; [lia|]. apply truncate_idempotent. lia.
Defined.

(** ** Sections, links and pages of the extractor *)

Lemma cleanText_units (s : jsstring) : Forall cleanUnit (cleanText s).
Proof.
  apply Forall_forall. intros c Hc. apply In_cleanText in Hc.
  destruct Hc as [Hz [->|[_ Hws]]]; split; auto. congruence.
Qed.

Lemma join_units (P : codeunit -> Prop) (sep : jsstring)
  (l : list jsstring) :
  Forall P sep -> Forall (Forall P) l -> Forall P (join sep l).
Proof.
  intros Hsep Hl. induction Hl as [|x l Hx Hl IH]; simpl; [constructor|].
  destruct l as [|y l]; [exact Hx|].
  apply Forall_app. split; [exact Hx|].
  apply Forall_app. split; [exact Hsep | exact IH].
Qed.

Lemma space_clean : Forall cleanUnit [SPACE].
Proof. repeat constructor. discriminate. Qed.

Lemma chunksOf_units (siblings : list node) :
  Forall (Forall cleanUnit) (chunksOf siblings).
Proof.
  induction siblings as [|[d|nm a cs] rest IH]; simpl; [constructor | exact IH|].
  destruct (isHeadingName nm); [constructor|].
  destruct (truthy _); [|exact IH].
  constructor; [apply cleanText_units | exact IH].
Qed.

Lemma wellShaped_mk (h c : jsstring) :
  truthy h = true -> Forall cleanUnit c ->
  wellShaped (mkSection h c (truncate c 320)).
Proof.
  intros Hh Hc. unfold wellShaped. simpl.
  repeat split; [exact Hh | exact Hc|]. apply truncate_bound. lia.
Qed.

Lemma extractSections_shaped (doc : Document) (minChars : Q) :
  Forall wellShaped (extractSections doc minChars).
Proof.
  unfold extractSections.
  set (hs := flat_map (headingSection minChars) (select isHeadingTag doc)).
  set (ps := eachIndexed (paragraphSection minChars) 0
               (List.map fst (select (tag "p") doc))).
  assert (Hhs : Forall wellShaped hs).
  { apply flat_map_Forall. intros e. unfold headingSection.
    destruct (truthy (cleanText (text (fst e)))) eqn:Eh; simpl;
      [|constructor].
    destruct (ltb _ minChars); [constructor|].
    constructor; [|constructor]. apply wellShaped_mk; [exact Eh|].
    apply join_units; [apply space_clean | apply chunksOf_units]. }
  assert (Hps : Forall wellShaped ps).
  { apply eachIndexed_Forall. intros i el. unfold paragraphSection.
    destruct (ltb _ minChars); [constructor|].
    constructor; [|constructor].
    apply wellShaped_mk; [reflexivity | apply cleanText_units]. }
  assert (Hmid : Forall wellShaped (if len hs =? 0 then ps else hs))
    by (destruct (len hs =? 0); assumption).
  destruct (len (if len hs =? 0 then ps else hs) =? 0); [|exact Hmid].
  destruct (geb _ minChars); [|constructor].
  constructor; [|constructor].
  apply wellShaped_mk; [reflexivity | apply cleanText_units].
Qed.

(** X6. Every section the extractor returns, on each of its three
    paths, has a heading that is not empty, a content without zero
    width space and without white space other than the plain space, and
    a snippet that is the content cut by [truncate] at 320 units, so of
    at most 322 units. *)
Theorem sections_well_shaped `{Platform} (html url : jsstring)
  (config : Config.t) :
  Forall wellShaped (sections (extractPageContent html url config)).
Proof.
  unfold extractPageContent. simpl. apply extractSections_shaped.
Qed.

Section LinkFacts.

Context `{Platform}.

Lemma addLink_normal (baseUrl : jsstring) (links : StringSet) (el : node) :
  NoDup links /\ Forall normalLink links ->
  NoDup (addLink baseUrl links el)
  /\ Forall normalLink (addLink baseUrl links el).
Proof.
  intros [Hnd Hall]. unfold addLink.
  destruct (attr el (js "href")) as [raw|]; [|auto].
  destruct (negb (truthy raw) || startsWith raw (js "#")); [auto|].
  destruct (startsWith raw (js "mailto:") || startsWith raw (js "tel:"));
    [auto|].
  destruct (resolveURL raw baseUrl) as [resolved|]; [|auto].
  destruct (normalizeUrl (URL.toString (URL.clearHash resolved)))
    as [normalized|] eqn:En; [|auto].
  destruct (truthy normalized) eqn:Et; [|auto].
  split; [apply NoDup_add, Hnd|].
  apply Forall_forall. intros l Hl. apply In_add in Hl.
  destruct Hl as [Hl| ->]; [rewrite Forall_forall in Hall; auto|].
  split; [exact Et|].
  unfold normalizeUrl in En.
  destruct (parseURL (URL.toString (URL.clearHash resolved))) as [u|] eqn:Eu;
    [|discriminate].
  injection En as <-. exists (URL.toString (URL.clearHash resolved)), u.
  repeat split; [exact Eu|]. apply fragment_normalizeRecord.
Qed.

Lemma extractLinks_normal (doc : Document) (baseUrl : jsstring) :
  NoDup (extractLinks doc baseUrl)
  /\ Forall normalLink (extractLinks doc baseUrl).
Proof.
  unfold extractLinks.
  assert (Hgen : forall els links,
             NoDup links /\ Forall normalLink links ->
             NoDup (fold_left (addLink baseUrl) els links)
             /\ Forall normalLink (fold_left (addLink baseUrl) els links)).
  { induction els as [|el els IH]; intros links Hinv; simpl; [exact Hinv|].
    apply IH, addLink_normal, Hinv. }
  apply Hgen. split; constructor.
Qed.

End LinkFacts.

(** X7. The links of an extracted page are pairwise distinct, and each
    of them is the serialised normal form of a URL the platform parsed:
    not empty and without fragment. *)
Theorem page_links_normal `{Platform} (html url : jsstring)
  (config : Config.t) :
  NoDup (links (extractPageContent html url config))
  /\ Forall normalLink (links (extractPageContent html url config)).
Proof.
  unfold extractPageContent. simpl. apply extractLinks_normal.
Qed.

Lemma clean_head (x : jsstring) :
  edgesOutside isWhiteSpace x -> Forall cleanUnit x ->
  x = [] \/ exists c t, x = c :: t /\ isBlank c = false.
Proof.
  intros [Hhead _] Hall. destruct x as [|c t]; [auto|]. right.
  exists c, t. split; [reflexivity|]. unfold isBlank.
  rewrite (Hhead c t eq_refl). simpl. apply N.eqb_neq.
  inversion Hall as [|? ? [Hz _] _]; subst. exact Hz.
Qed.

Lemma Forall_trim (P : codeunit -> Prop) (s : jsstring) :
  Forall P s -> Forall P (trim s).
Proof.
  rewrite !Forall_forall. intros Hall c Hc. apply Hall, In_trim, Hc.
Qed.

(** A summary has at most 602 units, and when it is not empty it holds
    a unit that is neither white space nor the zero width space. *)
Lemma buildSummary_facts (doc : Document) (sections : list Section_) :
  Forall wellShaped sections ->
  len (buildSummary doc sections) <= 602
  /\ (truthy (buildSummary doc sections) = true ->
      exists c, In c (buildSummary doc sections) /\ isBlank c = false).
Proof.
  intros Hsections. unfold buildSummary.
  set (primary := trim (join [SPACE] (List.map content sections))).
  set (fallback := or_else (cleanText (selectText (tag "main") doc))
                           (cleanText (selectText (tag "body") doc))).
  assert (Hprimary : primary = []
                     \/ exists c t, primary = c :: t /\ isBlank c = false).
  { apply clean_head; [apply trim_edges|].
    apply Forall_trim, join_units; [apply space_clean|].
    apply Forall_forall. intros x Hx. apply in_map_iff in Hx.
    destruct Hx as (s & <- & Hs). rewrite Forall_forall in Hsections.
    apply (Hsections s Hs). }
  assert (Hfallback : fallback = []
                      \/ exists c t, fallback = c :: t /\ isBlank c = false).
  { subst fallback. unfold or_else.
    destruct (truthy _);
      (apply clean_head; [apply trim_edges | apply cleanText_units]). }
  assert (Htext : forall text,
             (text = [] \/ exists c t, text = c :: t /\ isBlank c = false) ->
             len (if negb (truthy text) then [] else truncate text 600) <= 602
             /\ (truthy (if negb (truthy text) then [] else truncate text 600)
                 = true ->
                 exists c,
                   In c (if negb (truthy text) then [] else truncate text 600)
                   /\ isBlank c = false)).
  { intros text [->|(c & t & -> & Hc)]; simpl.
    - split; [unfold len; simpl; lia | discriminate].
    - split; [apply truncate_bound; lia|]. intros _.
      destruct (Z_le_gt_dec (len (c :: t)) 600) as [Hle|Hgt].
      + rewrite truncate_short by exact Hle. exists c. simpl. auto.
      + rewrite truncate_cut by lia. exists ELLIPSIS.
        split; [|reflexivity]. apply in_or_app. right. simpl. auto. }
  destruct (250 <? len primary); apply Htext; assumption.
Qed.

(** X8. An extracted page carries the URL it was extracted for and a
    title that is not empty when this URL is not; its summary has at
    most 602 units; its word count is never negative, and is at least
    one when there is a summary. *)
Theorem page_shape `{Platform} (html address : jsstring)
  (config : Config.t) :
  let page := extractPageContent html address config in
  url page = address
  /\ (truthy address = true -> truthy (title page) = true)
  /\ len (summary page) <= 602
  /\ 0 <= wordCount page
  /\ (truthy (summary page) = true -> 1 <= wordCount page).
Proof.
  unfold extractPageContent. simpl.
  set (doc := load html).
  set (secs := extractSections doc (Config.minSectionChars config)).
  destruct (buildSummary_facts doc secs
              (extractSections_shaped doc (Config.minSectionChars config)))
    as [Hlen Hunit].
  split; [reflexivity|]. split; [|split; [exact Hlen|split]].
  - intros Haddress. unfold or_else.
    destruct (truthy (cleanText (firstText (tag "title") doc))) eqn:Et;
      assumption.
  - apply len_nonneg.
  - intros Hsummary. unfold or_else. rewrite Hsummary.
    destruct (Hunit Hsummary) as (c & Hc & Hblank).
    assert (Hnot : countWords (buildSummary doc secs) <> 0).
    { intros Hzero. apply countWords_zero in Hzero.
      rewrite forallb_forall in Hzero. apply Hzero in Hc. congruence. }
    pose proof (len_nonneg
                  (filter truthy
                     (splitSpaces (cleanText (buildSummary doc secs))))).
    unfold countWords in *. lia.
Qed.

Lemma page_shape_witness :
  let page :=
    @extractPageContent (Sim.platform Ex.missionSite None) (js "<mission>")
                        (js "https://x.com/") Ex.config in
  truthy (title page) = true /\ 1 <= wordCount page.
Proof.
  intros page.
  destruct (@page_shape (Sim.platform Ex.missionSite None) (js "<mission>")
              (js "https://x.com/") Ex.config)
    as (_ & Htitle & _ & _ & Hwords).
  split; [apply Htitle; reflexivity | apply Hwords; vm_compute; reflexivity].
Defined.

(** ** The dataset builder, in full *)

(** X9. The list of the dataset is, in this order: the candidates less
    those whose lower-cased question an earlier candidate has, each with
    its answer cut at 1200, and of these the first [maxFaqs]. *)
Theorem faqs_are_first_of_each_key `{Platform} (pages : list Page)
  (config : Config.t) :
  Dataset.faqs (buildFaqDataset pages config)
  = slice (List.map stored (keepFirsts [] (candidates config pages)))
          0 (toInteger (Config.maxFaqs config)).
Proof. apply faqs_in_words. Qed.

Lemma toInteger_ge (q : Q) (n : Z) :
  0 <= n -> (inject_Z n <= q)%Q -> n <= toInteger q.
Proof.
  unfold Qle, toInteger. simpl. intros Hn Hq.
  rewrite Z.quot_div_nonneg by nia.
  apply Z.div_le_lower_bound; lia.
Qed.

(** X10. When there are no more candidates than [maxFaqs], the cap
    takes nothing away: every candidate finds its lower-cased question
    in the dataset. *)
Theorem nothing_lost_below_cap `{Platform} (pages : list Page)
  (config : Config.t) :
  (inject_Z (len (candidates config pages)) <= Config.maxFaqs config)%Q ->
  Dataset.faqs (buildFaqDataset pages config)
  = List.map stored (keepFirsts [] (candidates config pages))
  /\ forall e,
       In e (candidates config pages) ->
       exists f,
         In f (Dataset.faqs (buildFaqDataset pages config))
         /\ faqKey f = faqKey e.
Proof.
  intros Hcap.
  assert (Hall : Dataset.faqs (buildFaqDataset pages config)
                 = List.map stored (keepFirsts [] (candidates config pages))).
  { rewrite faqs_in_words.
    pose proof (toInteger_ge _ _ (len_nonneg _) Hcap) as Hk.
    rewrite slice_from_start by (pose proof (len_nonneg (candidates config pages)); lia).
    apply firstn_all2. rewrite length_map.
    pose proof (length_keepFirsts (candidates config pages) []).
    unfold len in Hk. lia. }
  split; [exact Hall|]. intros e He. rewrite Hall.
  destruct (keepFirsts_covers (candidates config pages) [] e He)
    as [[]|(f & Hf & Hkey)].
  exists (stored f). split; [apply in_map, Hf | exact Hkey].
Qed.

Lemma nothing_lost_below_cap_witness :
  (inject_Z (len (@candidates Ex.offline Ex.config [Ex.page200; Ex.page30]))
   <= Config.maxFaqs Ex.config)%Q
  /\ Dataset.faqs (@buildFaqDataset Ex.offline [Ex.page200; Ex.page30]
                     Ex.config)
     = List.map stored
         (@keepFirsts Ex.offline []
            (@candidates Ex.offline Ex.config [Ex.page200; Ex.page30])).
Proof.
  assert (Hcap : (inject_Z (len (@candidates Ex.offline Ex.config
                                   [Ex.page200; Ex.page30]))
                  <= Config.maxFaqs Ex.config)%Q)
    by (apply Qle_bool_iff; vm_compute; reflexivity).
  split; [exact Hcap|].
  apply (@nothing_lost_below_cap Ex.offline [Ex.page200; Ex.page30]
           Ex.config Hcap).
Defined.

Section DatasetCounts.

Context `{Platform}.

Lemma sum_left_right {A} (f : A -> Z) (l : list A) :
  forall a,
    fold_left (fun sum x => sum + f x) l a
    = a + fold_right (fun x sum => f x + sum) 0 l.
Proof.
  induction l as [|x l IH]; intros a; simpl; [lia|]. rewrite IH. lia.
Qed.

Lemma reportedSections_map (pages : list Page) :
  reportedSections
    (List.map (fun page =>
                 Dataset.mkReport (url page) (title page)
                                  (len (sections page))
                                  (truthy (summary page)))
              pages)
  = fold_right (fun page sum => len (sections page) + sum) 0 pages.
Proof.
  unfold reportedSections.
  induction pages as [|page pages IH]; simpl; [reflexivity|].
  rewrite IH. reflexivity.
Qed.

Lemma len_candidates (config : Config.t) (pages : list Page) :
  len (candidates config pages)
  <= len pages + fold_right (fun page sum => len (sections page) + sum) 0 pages.
Proof.
  unfold candidates.
  induction pages as [|page pages IH]; [unfold len; simpl; lia|].
  cbn [flat_map fold_right].
  rewrite len_app. unfold pageCandidates at 1. rewrite len_app.
  assert (Hmap : len (List.map (sectionEntry config page) (sections page))
                 = len (sections page))
    by (unfold len; rewrite length_map; reflexivity).
  assert (Hhead : len (if truthy (summary page)
                       then [overviewEntry config page] else []) <= 1)
    by (destruct (truthy (summary page)); unfold len; simpl; lia).
  change (len (page :: pages)) with (Z.of_nat (S (List.length pages))).
  rewrite Nat2Z.inj_succ. fold (len pages). lia.
Qed.

Lemma In_candidates (config : Config.t) (pages : list Page) (e : FaqEntry) :
  In e (candidates config pages) ->
  exists page,
    In page pages
    /\ ((truthy (summary page) = true /\ e = overviewEntry config page)
        \/ exists section,
             In section (sections page)
             /\ e = sectionEntry config page section).
Proof.
  unfold candidates. rewrite in_flat_map. intros (page & Hpage & He).
  exists page. split; [exact Hpage|].
  unfold pageCandidates in He. apply in_app_iff in He.
  destruct He as [He|He].
  - left. destruct (truthy (summary page)); [|contradiction].
    destruct He as [<-|[]]. auto.
  - right. apply in_map_iff in He. destruct He as (s & <- & Hs). eauto.
Qed.

End DatasetCounts.

(** X11. The metrics of a dataset agree with its lists: as many pages
    as report lines, the report lines in the order of the pages, as many
    sections as the report lines add up to, as many entries as there
    are, and never more entries than pages and sections together. *)
Theorem dataset_metrics_agree `{Platform} (pages : list Page)
  (config : Config.t) :
  let d := buildFaqDataset pages config in
  let m := Dataset.metrics d in
  Dataset.pagesCrawled m = len pages
  /\ List.map Dataset.reportUrl (Dataset.crawlReport d) = List.map url pages
  /\ Dataset.sectionsExtracted m = reportedSections (Dataset.crawlReport d)
  /\ Dataset.totalFaqs m = len (Dataset.faqs d)
  /\ Dataset.totalFaqs m
     <= Dataset.pagesCrawled m + Dataset.sectionsExtracted m.
Proof.
  intros d m.
  assert (Hsections : Dataset.sectionsExtracted m
                      = fold_right (fun page sum => len (sections page) + sum)
                                   0 pages).
  { subst m d. simpl. rewrite sum_left_right. lia. }
  split; [reflexivity|]. split; [|split; [|split; [reflexivity|]]].
  - subst d. simpl. rewrite map_map. reflexivity.
  - rewrite Hsections. subst d. simpl. symmetry. apply reportedSections_map.
  - rewrite Hsections.
    change (Dataset.totalFaqs m) with (len (Dataset.faqs d)).
    change (Dataset.pagesCrawled m) with (len pages).
    subst d. rewrite faqs_in_words.
    eapply Z.le_trans; [apply len_slice_le|].
    eapply Z.le_trans; [|apply (len_candidates config pages)].
    unfold len. rewrite length_map.
    pose proof (length_keepFirsts (candidates config pages) []). lia.
Qed.

(** X12. Every entry of the dataset comes from one of the pages given:
    it carries the URL of this page and is the stored form of the entry
    made for the summary of the page, which is then not empty, or for
    one of its sections. *)
Theorem faqs_come_from_pages `{Platform} (pages : list Page)
  (config : Config.t) :
  Forall (fun f => exists page, In page pages /\ fromPage config page f)
         (Dataset.faqs (buildFaqDataset pages config)).
Proof.
  apply Forall_forall. intros f Hf. rewrite faqs_in_words in Hf.
  apply In_slice, in_map_iff in Hf. destruct Hf as (e & <- & He).
  apply keepFirsts_sub, In_candidates in He.
  destruct He as (page & Hpage & [[Hsum ->]|(s & Hs & ->)]);
    exists page; (split; [exact Hpage|]); (split; [reflexivity|]).
  - left. auto.
  - right. exists s. auto.
Qed.

(** ** More on the frontier manager *)

Section CrawlFacts.

Context `{Platform}.

Variable config : Config.t.

(** [processPage] on a URL whose normal form [n] is new. *)
Lemma processPage_new (address n : jsstring) (visited : StringSet) :
  normalizeUrl address = Some n ->
  negb (truthy n) || has visited n = false ->
  processPage address visited config
  = (option_map (fun p => (p, links p)) (finalPageOf config n),
     visited ++ [n], eventsOf config n).
Proof.
  intros Hn Hnew. unfold processPage. rewrite Hn, Hnew. cbv zeta.
  apply orb_false_iff in Hnew. destruct Hnew as [_ Hhas].
  unfold add. rewrite Hhas.
  unfold eventsOf, finalPageOf, wantsRenderOf, staticPageOf, staticResponseOf,
    forceBrowserOf.
  match goal with
  | |- match ?page with Some _ => _ | None => _ end = _ => destruct page
  end; reflexivity.
Qed.

(** [processPage] either skips the URL or processes a new normal form. *)
Lemma processPage_cases (address : jsstring) (visited : StringSet) :
  processPage address visited config = (None, visited, [])
  \/ exists n,
       normalizeUrl address = Some n /\ ~ In n visited
       /\ processPage address visited config
          = (option_map (fun p => (p, links p)) (finalPageOf config n),
             visited ++ [n], eventsOf config n).
Proof.
  destruct (normalizeUrl address) as [n|] eqn:En.
  - destruct (negb (truthy n) || has visited n) eqn:Enew.
    + left. unfold processPage. rewrite En, Enew. reflexivity.
    + right. exists n. split; [reflexivity|]. split.
      * apply orb_false_iff in Enew. apply has_not_In, Enew.
      * apply processPage_new; assumption.
  - left. unfold processPage. rewrite En. reflexivity.
Qed.

Lemma staticPageOf_some (n : jsstring) (p : Page) :
  staticPageOf config n = Some p ->
  url p = n /\ forceBrowserOf n = false
  /\ exists response, httpGet config n = Some response.
Proof.
  unfold staticPageOf, staticResponseOf, fetchHtml.
  destruct (forceBrowserOf n); [discriminate|].
  destruct (httpGet config n) as [response|]; [|discriminate].
  cbn [html]. destruct (truthy _); [|discriminate].
  intros Hp. injection Hp as <-. eauto.
Qed.

(** A page of [n] carries the URL [n], and was fetched or rendered. *)
Lemma finalPageOf_some (n : jsstring) (p : Page) :
  finalPageOf config n = Some p ->
  url p = n
  /\ ((forceBrowserOf n = false
       /\ exists response, httpGet config n = Some response)
      \/ wantsRenderOf config n = true).
Proof.
  unfold finalPageOf. destruct (wantsRenderOf config n) eqn:Ew.
  - destruct (fetchRenderedHtml n config) as [h|].
    + destruct (truthy h).
      * intros Hp. injection Hp as <-. auto.
      * intros Hp. apply staticPageOf_some in Hp. tauto.
    + intros Hp. apply staticPageOf_some in Hp. tauto.
  - intros Hp. apply staticPageOf_some in Hp. tauto.
Qed.

Lemma eventsOf_urls (n : jsstring) :
  (fetchedUrls (eventsOf config n)
   = if forceBrowserOf n then [] else [n])
  /\ (renderedUrls (eventsOf config n)
      = if wantsRenderOf config n then [n] else []).
Proof.
  unfold eventsOf.
  destruct (forceBrowserOf n), (wantsRenderOf config n); split; reflexivity.
Qed.

Lemma finalPageOf_event (n : jsstring) (p : Page) :
  finalPageOf config n = Some p ->
  In (url p) (fetchedUrls (eventsOf config n))
  \/ In (url p) (renderedUrls (eventsOf config n)).
Proof.
  intros Hp. apply finalPageOf_some in Hp.
  destruct (eventsOf_urls n) as [-> ->].
  destruct Hp as [-> [[-> _]| ->]]; simpl; auto.
Qed.

End CrawlFacts.

Section BatchFacts.

Context `{Platform}.

Variable config : Config.t.

(** A batch appends to the visited set the new normal forms of its
    members, in order; the calls listed and the pages are those of
    these normal forms. *)
Lemma processBatch_anatomy (batch : list jsstring) :
  forall visited,
    let '(results, visited', events) := processBatch batch visited config in
    exists news,
      visited' = visited ++ news
      /\ NoDup news
      /\ (forall n, In n news ->
                    ~ In n visited
                    /\ exists q, In q batch /\ normalizeUrl q = Some n)
      /\ events = flat_map (eventsOf config) news
      /\ pagesOf results = flat_map (pageListOf config) news
      /\ Forall (fun r => r = None \/ exists p, r = Some (p, links p)) results.
Proof.
  induction batch as [|address rest IH]; intros visited; simpl.
  - exists []. rewrite app_nil_r.
    repeat split; try constructor; contradiction.
  - destruct (processPage_cases config address visited)
      as [Hskip|(n & Hn & Hnew & Hrun)].
    + rewrite Hskip. specialize (IH visited).
      destruct (processBatch rest visited config) as [[rs v2] ev2].
      destruct IH as (news & Hv & Hnd & Hnews & Hev & Hpages & Hrs).
      exists news. simpl.
      split; [exact Hv|]. split; [exact Hnd|]. split.
      { intros m Hm. destruct (Hnews m Hm) as [Hm1 (q & Hq & Hqn)].
        split; [exact Hm1|]. exists q. auto. }
      split; [exact Hev|]. split; [exact Hpages|].
      constructor; [auto | exact Hrs].
    + rewrite Hrun. specialize (IH (visited ++ [n])).
      destruct (processBatch rest (visited ++ [n]) config) as [[rs v2] ev2].
      destruct IH as (news & Hv & Hnd & Hnews & Hev & Hpages & Hrs).
      exists (n :: news).
      split; [rewrite Hv, <- app_assoc; reflexivity|].
      split.
      { constructor; [|exact Hnd]. intros Hin.
        destruct (Hnews n Hin) as [Hnot _]. apply Hnot, in_or_app.
        simpl. auto. }
      split.
      { intros m [<-|Hm].
        - split; [exact Hnew|]. exists address. auto.
        - destruct (Hnews m Hm) as [Hm1 (q & Hq & Hqn)]. split.
          + intros Hin. apply Hm1, in_or_app. auto.
          + exists q. auto. }
      split; [simpl; rewrite Hev; reflexivity|].
      split.
      { simpl. rewrite Hpages. unfold pageListOf.
        destruct (finalPageOf config n); reflexivity. }
      constructor; [|exact Hrs].
      destruct (finalPageOf config n) as [p|]; simpl; eauto.
Qed.

Lemma absorb_pages (visited : StringSet)
  (results : list (option (Page * list jsstring))) :
  forall pages queue,
    fst (fold_left (absorb config visited) results (pages, queue))
    = pages ++ pagesOf results.
Proof.
  induction results as [|[[p l]|] results IH]; intros pages queue; simpl.
  - symmetry. apply app_nil_r.
  - rewrite IH, <- app_assoc. reflexivity.
  - apply IH.
Qed.

(** One turn of the loop, in terms of the new normal forms. *)
Lemma crawlStep_anatomy (st : Frontier) :
  exists batch rest news,
    queue st = batch ++ rest
    /\ len batch <= batchMax config
    /\ visited (crawlStep config st) = visited st ++ news
    /\ NoDup news
    /\ (forall n, In n news ->
                  ~ In n (visited st)
                  /\ exists q, In q batch /\ normalizeUrl q = Some n)
    /\ trace (crawlStep config st)
       = trace st ++ flat_map (eventsOf config) news
    /\ pages (crawlStep config st)
       = pages st ++ flat_map (pageListOf config) news.
Proof.
  unfold crawlStep.
  pose proof (splice0_spec (queue st) (Config.concurrency config)) as Hsplice.
  destruct (splice0 (queue st) (Config.concurrency config)) as [batch rest].
  destruct Hsplice as [Hqueue Hbatch].
  pose proof (processBatch_anatomy batch (visited st)) as Hb.
  destruct (processBatch batch (visited st) config) as [[results v] events].
  destruct Hb as (news & Hv & Hnd & Hnews & Hev & Hpages & _).
  pose proof (absorb_pages v results (pages st) rest) as Habs.
  destruct (fold_left (absorb config v) results (pages st, rest))
    as [pages' queue'].
  simpl in Habs. exists batch, rest, news. simpl.
  split; [exact Hqueue|]. split; [unfold batchMax; lia|].
  split; [exact Hv|]. split; [exact Hnd|]. split; [exact Hnews|].
  split; [rewrite Hev; reflexivity|]. rewrite Habs, Hpages. reflexivity.
Qed.

(** The calls listed and the pages of a run are those of its visited
    normal forms; the pages come in the order in which their normal
    forms were visited. *)
Lemma reachable_anatomy (st : Frontier) :
  reachable config st ->
  NoDup (visited st)
  /\ trace st = flat_map (eventsOf config) (visited st)
  /\ pages st = flat_map (pageListOf config) (visited st).
Proof.
  induction 1 as [|st Hreach (Hnd & Htrace & Hpages) Hcont].
  - simpl. repeat split. constructor.
  - destruct (crawlStep_anatomy st)
      as (batch & rest & news & _ & _ & Hv & Hnews & Hnew & Ht & Hp).
    rewrite Hv, Ht, Hp, Htrace, Hpages, !flat_map_app.
    repeat split.
    apply NoDup_app; [exact Hnd | exact Hnews|].
    intros n Hn Hn'. destruct (Hnew n Hn') as [Hnot _]. exact (Hnot Hn).
Qed.

End BatchFacts.

Section QueueFacts.

Context `{Platform}.

Variable config : Config.t.

Lemma enqueueLink_from (visited : StringSet) (pages : list Page)
  (queue : list jsstring) (link q : jsstring) :
  In q (enqueueLink config visited pages queue link) ->
  In q queue \/ (q = link /\ startsWith q (Config.origin config) = true).
Proof.
  destruct (list_eq_dec (list_eq_dec N.eq_dec)
              (enqueueLink config visited pages queue link) queue)
    as [->|Hne]; [auto|].
  destruct (enqueueLink_grows config visited pages queue link Hne)
    as (-> & _ & Hstart & _).
  intros Hin. apply in_app_iff in Hin.
  destruct Hin as [Hin|[<-|[]]]; auto.
Qed.

Lemma enqueueLinks_from (visited : StringSet) (pages : list Page)
  (links : list jsstring) :
  forall queue q,
    In q (fold_left (enqueueLink config visited pages) links queue) ->
    In q queue \/ (In q links /\ startsWith q (Config.origin config) = true).
Proof.
  induction links as [|link links IH]; intros queue q; simpl; [auto|].
  intros Hin. apply IH in Hin. destruct Hin as [Hin|[Hin Hs]]; [|auto].
  apply enqueueLink_from in Hin. destruct Hin as [Hin|[-> Hs]]; auto.
Qed.

Lemma enqueueLink_NoDup (visited : StringSet) (pages : list Page)
  (queue : list jsstring) (link : jsstring) :
  NoDup queue -> NoDup (enqueueLink config visited pages queue link).
Proof.
  intros Hnd.
  destruct (list_eq_dec (list_eq_dec N.eq_dec)
              (enqueueLink config visited pages queue link) queue)
    as [->|Hne]; [exact Hnd|].
  destruct (enqueueLink_grows config visited pages queue link Hne)
    as (-> & _ & _ & _ & Hnew).
  apply NoDup_snoc; assumption.
Qed.

Lemma enqueueLinks_NoDup (visited : StringSet) (pages : list Page)
  (links : list jsstring) :
  forall queue,
    NoDup queue ->
    NoDup (fold_left (enqueueLink config visited pages) links queue).
Proof.
  induction links as [|link links IH]; intros queue Hnd; simpl; [exact Hnd|].
  apply IH, enqueueLink_NoDup, Hnd.
Qed.

(** The queue after the results of a batch: what was there, and links
    of the pages absorbed that start with the origin string. *)
Lemma absorb_queue (visited : StringSet)
  (results : list (option (Page * list jsstring))) :
  Forall (fun r => r = None \/ exists p, r = Some (p, links p)) results ->
  forall pages queue,
    let '(pages', queue') :=
      fold_left (absorb config visited) results (pages, queue) in
    (NoDup queue -> NoDup queue')
    /\ forall q,
         In q queue' ->
         In q queue
         \/ (startsWith q (Config.origin config) = true
             /\ exists p, In p pages' /\ In q (links p)).
Proof.
  induction 1 as [|r results Hr Hrs IH]; intros pages queue.
  - simpl. auto.
  - simpl fold_left. destruct Hr as [->|[p ->]]; simpl absorb.
    + apply IH.
    + specialize (IH (pages ++ [p])
                     (fold_left (enqueueLink config visited (pages ++ [p]))
                                (links p) queue)).
      pose proof (absorb_pages config visited results (pages ++ [p])
                    (fold_left (enqueueLink config visited (pages ++ [p]))
                               (links p) queue)) as Hpages.
      destruct (fold_left (absorb config visited) results _)
        as [pages' queue'].
      simpl in Hpages. destruct IH as [Hnd Hfrom]. split.
      * intros Hq. apply Hnd, enqueueLinks_NoDup, Hq.
      * intros q Hq. destruct (Hfrom q Hq) as [Hin|Hlink]; [|auto].
        apply enqueueLinks_from in Hin. destruct Hin as [Hin|[Hin Hs]]; [auto|].
        right. split; [exact Hs|]. exists p. split; [|exact Hin].
        rewrite Hpages. apply in_or_app. left. apply in_or_app. simpl. auto.
Qed.

(** One turn of the loop: few new pages, a queue within its bound and
    without repetition, filled from the old queue and the new links. *)
Lemma crawlStep_queue (st : Frontier) :
  len (pages (crawlStep config st)) <= len (pages st) + batchMax config
  /\ (forall w, pageCap config <= w -> len (queue st) <= w ->
                len (queue (crawlStep config st)) <= w)
  /\ (NoDup (queue st) -> NoDup (queue (crawlStep config st)))
  /\ (forall q,
         In q (queue (crawlStep config st)) ->
         In q (queue st)
         \/ (startsWith q (Config.origin config) = true
             /\ exists p, In p (pages (crawlStep config st))
                          /\ In q (links p))).
Proof.
  unfold crawlStep, batchMax.
  pose proof (splice0_spec (queue st) (Config.concurrency config)) as Hsplice.
  destruct (splice0 (queue st) (Config.concurrency config)) as [batch rest].
  destruct Hsplice as [Hqueue Hbatch].
  pose proof (processBatch_length config batch (visited st)) as Hlen.
  pose proof (processBatch_anatomy config batch (visited st)) as Hb.
  destruct (processBatch batch (visited st) config) as [[results v] events].
  destruct Hb as (news & _ & _ & _ & _ & _ & Hshape).
  pose proof (absorb_fold config v results (pages st) rest) as Habs.
  pose proof (absorb_queue v results Hshape (pages st) rest) as Hq.
  destruct (fold_left (absorb config v) results (pages st, rest))
    as [pages' queue'].
  destruct Habs as (Hpages & _ & Hw). destruct Hq as [Hnd Hfrom]. simpl.
  assert (Hres : len results = len batch) by (unfold len; congruence).
  assert (Hrest : len rest <= len (queue st)).
  { rewrite Hqueue, len_app. pose proof (len_nonneg batch). lia. }
  split; [lia|]. split; [intros w Hcap Hle; apply Hw; lia|]. split.
  - intros Hst. apply Hnd. rewrite Hqueue in Hst.
    exact (NoDup_app_remove_l _ _ Hst).
  - intros q Hin. destruct (Hfrom q Hin) as [Hrestq|Hlink]; [|auto].
    left. rewrite Hqueue. apply in_or_app. auto.
Qed.

End QueueFacts.

Lemma below_cap_plus_batch `{Platform} (config : Config.t) (n : Z) :
  n <= pageCap config - 1 + batchMax config ->
  (inject_Z n < Config.maxPages config + inject_Z (batchMax config))%Q.
Proof.
  intros Hn. eapply Qle_lt_trans.
  - rewrite <- Zle_Qle. exact Hn.
  - rewrite inject_Z_plus. apply Qplus_lt_l. apply Qceiling_lt.
Qed.

(** X13. The cap on the pages can be passed, by less than one batch:
    at every turn of a run there is no page yet, or fewer pages than
    [maxPages] plus the largest size of a batch. *)
Theorem pages_pass_cap_by_less_than_a_batch `{Platform} (config : Config.t)
  (st : Frontier) :
  reachable config st ->
  len (pages st) = 0
  \/ (inject_Z (len (pages st))
      < Config.maxPages config + inject_Z (batchMax config))%Q.
Proof.
  induction 1 as [|st Hreach _ Hcont]; [left; reflexivity|]. right.
  apply continues_spec in Hcont. destruct Hcont as [_ Hp].
  destruct (crawlStep_queue config st) as (Hpages & _).
  apply below_cap_plus_batch. lia.
Qed.

Lemma pages_pass_cap_by_less_than_a_batch_witness :
  let st := @crawlStep Ex.online Ex2.tightConfig
              (initialFrontier Ex2.tightConfig) in
  @reachable Ex.online Ex2.tightConfig st
  /\ len (pages st) = 2
  /\ (inject_Z (len (pages st))
      < Config.maxPages Ex2.tightConfig
        + inject_Z (@batchMax Ex2.tightConfig))%Q.
Proof.
  intros st.
  assert (Hreach : @reachable Ex.online Ex2.tightConfig st)
    by (apply reach_step; [apply reach_initial | vm_compute; reflexivity]).
  split; [exact Hreach|]. split; [vm_compute; reflexivity|].
  destruct (@pages_pass_cap_by_less_than_a_batch Ex.online Ex2.tightConfig
              st Hreach) as [Hzero|Hlt]; [|exact Hlt].
  vm_compute in Hzero. discriminate.
Defined.

(** X14. At every turn of a run the queue is no longer than the seeds
    or [maxPages] rounded up, whichever is more, and it holds no URL
    twice when the seeds hold none twice. *)
Theorem queue_bounded_and_distinct `{Platform} (config : Config.t)
  (st : Frontier) :
  reachable config st ->
  len (queue st) <= Z.max (len (Config.seedUrls config)) (pageCap config)
  /\ (NoDup (Config.seedUrls config) -> NoDup (queue st)).
Proof.
  induction 1 as [|st Hreach [Hlen Hnd] Hcont].
  - simpl. split; [apply Z.le_max_l | auto].
  - destruct (crawlStep_queue config st) as (_ & Hw & Hstep & _).
    split; [apply Hw; [apply Z.le_max_r | exact Hlen] | auto].
Qed.

Lemma queue_bounded_and_distinct_witness :
  let st := @crawlStep Ex.online Ex.siteConfig
              (initialFrontier Ex.siteConfig) in
  @reachable Ex.online Ex.siteConfig st
  /\ len (queue st) <= 20
  /\ NoDup (queue st).
Proof.
  intros st.
  assert (Hreach : @reachable Ex.online Ex.siteConfig st)
    by (apply reach_step; [apply reach_initial | vm_compute; reflexivity]).
  split; [exact Hreach|].
  destruct (@queue_bounded_and_distinct Ex.online Ex.siteConfig st Hreach)
    as [Hlen Hnd].
  split; [exact Hlen|]. apply Hnd. repeat constructor. intros [].
Defined.

Section PagesOfVisited.

Context `{Platform}.

Variable config : Config.t.

Lemma In_pageListOf (n : jsstring) (p : Page) :
  In p (pageListOf config n) -> finalPageOf config n = Some p /\ url p = n.
Proof.
  unfold pageListOf. destruct (finalPageOf config n) as [p'|] eqn:E;
    [|contradiction].
  intros [<-|[]]. split; [reflexivity|].
  apply (finalPageOf_some config n p' E).
Qed.

Lemma pages_of_visited_distinct (l : list jsstring) :
  NoDup l ->
  NoDup (List.map url (flat_map (pageListOf config) l)).
Proof.
  induction 1 as [|n l Hn Hl IH]; simpl; [constructor|].
  rewrite map_app. apply NoDup_app; [|exact IH|].
  - unfold pageListOf. destruct (finalPageOf config n); simpl;
      repeat constructor. intros [].
  - intros u Hu Hu'. apply in_map_iff in Hu. destruct Hu as (p & <- & Hp).
    apply In_pageListOf in Hp. destruct Hp as [_ Hp]. rewrite Hp in Hu'.
    apply in_map_iff in Hu'. destruct Hu' as (p' & Hp' & Hin).
    apply in_flat_map in Hin. destruct Hin as (m & Hm & Hin).
    apply In_pageListOf in Hin. destruct Hin as [_ Hin].
    apply Hn. congruence.
Qed.

Lemma fetchedUrls_of_visited (l : list jsstring) :
  fetchedUrls (flat_map (eventsOf config) l)
  = filter (fun n => negb (forceBrowserOf n)) l.
Proof.
  induction l as [|n l IH]; simpl; [reflexivity|].
  rewrite fetchedUrls_app, IH. destruct (eventsOf_urls config n) as [-> _].
  destruct (forceBrowserOf n); reflexivity.
Qed.

Lemma renderedUrls_of_visited (l : list jsstring) :
  renderedUrls (flat_map (eventsOf config) l)
  = filter (wantsRenderOf config) l.
Proof.
  induction l as [|n l IH]; simpl; [reflexivity|].
  rewrite renderedUrls_app, IH. destruct (eventsOf_urls config n) as [_ ->].
  destruct (wantsRenderOf config n); reflexivity.
Qed.

End PagesOfVisited.

(** X15. The pages of a run carry distinct URLs; each is the URL of a
    visited normal form that was fetched or rendered, so that there are
    no more pages than visited normal forms. *)
Theorem pages_one_per_visited `{Platform} (config : Config.t)
  (st : Frontier) :
  reachable config st ->
  NoDup (List.map url (pages st))
  /\ len (pages st) <= len (visited st)
  /\ Forall (fun p => In (url p) (visited st)
                      /\ (In (url p) (fetchedUrls (trace st))
                          \/ In (url p) (renderedUrls (trace st))))
            (pages st).
Proof.
  intros Hreach.
  destruct (reachable_anatomy config st Hreach) as (Hnd & Htrace & Hpages).
  rewrite Hpages, Htrace. split; [|split].
  - apply pages_of_visited_distinct, Hnd.
  - clear. induction (visited st) as [|n l IH]; [reflexivity|].
    cbn [flat_map]. unfold len in *. rewrite length_app.
    change (length (n :: l)) with (S (length l)).
    assert (length (pageListOf config n) <= 1)%nat
      by (unfold pageListOf; destruct (finalPageOf config n); simpl; lia).
    lia.
  - apply Forall_forall. intros p Hp. apply in_flat_map in Hp.
    destruct Hp as (n & Hn & Hp). apply In_pageListOf in Hp.
    destruct Hp as [Hfinal Hurl]. split; [rewrite Hurl; exact Hn|].
    rewrite fetchedUrls_of_visited, renderedUrls_of_visited.
    apply finalPageOf_some in Hfinal.
    destruct Hfinal as [_ [[Hforce _]|Hrender]]; rewrite Hurl.
    + left. apply filter_In. split; [exact Hn | rewrite Hforce; reflexivity].
    + right. apply filter_In. split; assumption.
Qed.

Lemma pages_one_per_visited_witness :
  let st := @crawlStep Ex.online Ex2.tightConfig
              (initialFrontier Ex2.tightConfig) in
  @reachable Ex.online Ex2.tightConfig st
  /\ List.map url (pages st) = [js "https://x.com/"; js "https://x.com/about"]
  /\ NoDup (List.map url (pages st)).
Proof.
  intros st.
  assert (Hreach : @reachable Ex.online Ex2.tightConfig st)
    by (apply reach_step; [apply reach_initial | vm_compute; reflexivity]).
  split; [exact Hreach|]. split; [vm_compute; reflexivity|].
  apply (@pages_one_per_visited Ex.online Ex2.tightConfig st Hreach).
Defined.

(** X16. The calls of a run are those of its visited normal forms,
    whatever the order in which they were made: one fetch for each
    visited normal form without a [__spaView] parameter, one rendering
    for each that meets the condition of the rendering, and no other
    call; nothing is rendered when [renderWithBrowser] is off. *)
Theorem calls_follow_visited `{Platform} (config : Config.t)
  (st : Frontier) :
  reachable config st ->
  Permutation (fetchedUrls (trace st))
              (filter (fun n => negb (forceBrowserOf n)) (visited st))
  /\ Permutation (renderedUrls (trace st))
                 (filter (wantsRenderOf config) (visited st))
  /\ (Config.renderWithBrowser config = false ->
      renderedUrls (trace st) = []).
Proof.
  intros Hreach.
  destruct (reachable_anatomy config st Hreach) as (_ & Htrace & _).
  rewrite Htrace, fetchedUrls_of_visited, renderedUrls_of_visited.
  split; [apply Permutation_refl|]. split; [apply Permutation_refl|].
  intros Hoff. clear Htrace.
  induction (visited st) as [|n l IH]; [reflexivity|]. simpl.
  unfold wantsRenderOf at 1. rewrite Hoff. exact IH.
Qed.

Lemma calls_follow_visited_witness :
  let st := @crawlStep Ex.online Ex2.tightConfig
              (initialFrontier Ex2.tightConfig) in
  @reachable Ex.online Ex2.tightConfig st
  /\ Permutation (fetchedUrls (trace st)) (visited st)
  /\ renderedUrls (trace st) = [].
Proof.
  intros st.
  assert (Hreach : @reachable Ex.online Ex2.tightConfig st)
    by (apply reach_step; [apply reach_initial | vm_compute; reflexivity]).
  split; [exact Hreach|].
  destruct (@calls_follow_visited Ex.online Ex2.tightConfig st Hreach)
    as (Hfetched & _ & Hoff).
  split; [|apply Hoff; reflexivity].
  assert (Hall : filter (fun n => negb (@forceBrowserOf Ex.online n))
                        (visited st)
                 = visited st)
    by (vm_compute; reflexivity).
  rewrite Hall in Hfetched. exact Hfetched.
Defined.

Section ScopeFacts.

Context `{Platform}.

Variable config : Config.t.

Lemma seedOrLink_more (pages more : list Page) (q : jsstring) :
  seedOrLink config pages q -> seedOrLink config (pages ++ more) q.
Proof.
  intros [Hseed|(Hstart & p & Hp & Hq)]; [left; exact Hseed|].
  right. split; [exact Hstart|]. exists p. split; [|exact Hq].
  apply in_or_app. left. exact Hp.
Qed.

End ScopeFacts.

(** X17. What a run reaches: every URL of the queue is a seed, or a
    link of a crawled page that starts with the origin string; every
    visited normal form is the normal form of such a URL. *)
Theorem crawl_stays_in_scope `{Platform} (config : Config.t)
  (st : Frontier) :
  reachable config st ->
  Forall (seedOrLink config (pages st)) (queue st)
  /\ Forall (fun n => exists q, seedOrLink config (pages st) q
                                /\ normalizeUrl q = Some n)
            (visited st).
Proof.
  induction 1 as [|st Hreach [Hq Hv] Hcont].
  - simpl. split; [|constructor]. apply Forall_forall. intros q Hin.
    left. exact Hin.
  - destruct (crawlStep_anatomy config st)
      as (batch & rest & news & Hqueue & _ & Hvis & _ & Hnew & _ & Hpages).
    destruct (crawlStep_queue config st) as (_ & _ & _ & Hfrom).
    rewrite Forall_forall in Hq, Hv. split; apply Forall_forall.
    + intros q Hin. destruct (Hfrom q Hin) as [Hold|Hlink].
      * rewrite Hpages. apply seedOrLink_more, Hq, Hold.
      * right. exact Hlink.
    + intros n Hin. rewrite Hvis in Hin. rewrite Hpages.
      apply in_app_or in Hin. destruct Hin as [Hold|Hnews].
      * destruct (Hv n Hold) as (q & Hscope & Hnorm).
        exists q. split; [apply seedOrLink_more, Hscope | exact Hnorm].
      * destruct (Hnew n Hnews) as (_ & q & Hbatch & Hnorm).
        exists q. split; [|exact Hnorm]. apply seedOrLink_more, Hq.
        rewrite Hqueue. apply in_or_app. left. exact Hbatch.
Qed.

Lemma crawl_stays_in_scope_witness :
  let st := @crawlStep Ex.online Ex.siteConfig
              (initialFrontier Ex.siteConfig) in
  @reachable Ex.online Ex.siteConfig st
  /\ queue st <> []
  /\ Forall (@seedOrLink Ex.siteConfig (pages st)) (queue st).
Proof.
  intros st.
  assert (Hreach : @reachable Ex.online Ex.siteConfig st)
    by (apply reach_step; [apply reach_initial | vm_compute; reflexivity]).
  split; [exact Hreach|]. split; [vm_compute; discriminate|].
  apply (@crawl_stays_in_scope Ex.online Ex.siteConfig st Hreach).
Defined.

(** X18. When every fetch and every rendering fails, [main] ends with
    exit code 1, the message that no page was crawled, and no file
    written, whatever the seeds are. *)
Theorem unreachable_site_is_fatal `{Platform} (config : Config.t) :
  (1 <= Config.concurrency config)%Q ->
  (forall n, httpGet config n = None) ->
  (forall n, fetchRenderedHtml n config = None) ->
  exists fuel,
    forall fuel', (fuel <= fuel')%nat ->
      main fuel' (inr config)
      = Some (mkOutcome 1 [] [js "No pages were crawled successfully."]).
Proof.
  intros Hconc Hget Hshow.
  set (w := Z.max (len (Config.seedUrls config)) (pageCap config)).
  set (fuel := Z.to_nat (potential config w (initialFrontier config))).
  destruct (crawlLoop_ends config w Hconc (Z.le_max_r _ _) fuel
              (initialFrontier config) (reach_initial config))
    as (st & Hrun & Hreach & _).
  { simpl. apply Z.le_max_l. }
  { subst fuel. lia. }
  exists fuel. intros fuel' Hle.
  apply (crawlLoop_more_fuel config fuel fuel') in Hrun; [|exact Hle].
  destruct (reachable_anatomy config st Hreach) as (_ & _ & Hpages).
  assert (Hnone : pages st = []).
  { rewrite Hpages. clear - Hget Hshow.
    induction (visited st) as [|n l IH]; [reflexivity|]. simpl.
    rewrite IH, app_nil_r. unfold pageListOf.
    destruct (finalPageOf config n) as [p|] eqn:E; [|reflexivity].
    exfalso. unfold finalPageOf in E. rewrite Hshow in E.
    assert (Hstatic : staticPageOf config n = Some p)
      by (destruct (wantsRenderOf config n); exact E).
    apply staticPageOf_some in Hstatic.
    destruct Hstatic as (_ & _ & response & Hresponse).
    rewrite Hget in Hresponse. discriminate. }
  unfold main, crawlSite. rewrite Hrun. simpl. rewrite Hnone. reflexivity.
Qed.

Lemma unreachable_site_is_fatal_witness :
  exists fuel,
    forall fuel', (fuel <= fuel')%nat ->
      @main Ex.offline fuel' (inr Ex2.tightConfig)
      = Some (mkOutcome 1 [] [js "No pages were crawled successfully."]).
Proof.
  apply (@unreachable_site_is_fatal Ex.offline Ex2.tightConfig).
  - vm_compute. discriminate.
  - intros n. reflexivity.
  - intros n. reflexivity.
Defined.

(** ** The command line *)

Lemma startsWith_app (p s : jsstring) : startsWith (p ++ s) p = true.
Proof.
  induction p as [|c p IH]; [reflexivity|]. simpl.
  rewrite N.eqb_refl. exact IH.
Qed.

Lemma startsWith_split (s p : jsstring) :
  startsWith s p = true -> exists rest, s = p ++ rest.
Proof.
  revert s. induction p as [|c p IH]; intros s Hs; [exists s; reflexivity|].
  destruct s as [|x s]; [discriminate|]. simpl in Hs.
  apply andb_true_iff in Hs. destruct Hs as [Hx Hs].
  apply N.eqb_eq in Hx. subst x. destruct (IH s Hs) as [rest ->].
  exists rest. reflexivity.
Qed.

Lemma slice_to_end {A} (p rest : list A) :
  slice (p ++ rest) (len p) (len (p ++ rest)) = rest.
Proof.
  unfold slice, clampIndex.
  pose proof (len_nonneg p) as Hp. pose proof (len_nonneg rest) as Hr.
  rewrite len_app.
  destruct (len p <? 0) eqn:E1; [apply Z.ltb_lt in E1; lia|].
  destruct (len p + len rest <? 0) eqn:E2; [apply Z.ltb_lt in E2; lia|].
  replace (Z.min (len p) (len p + len rest)) with (len p) by lia.
  replace (Z.min (len p + len rest) (len p + len rest))
    with (len p + len rest) by lia.
  replace (Z.max (len p + len rest - len p) 0) with (len rest) by lia.
  unfold len. rewrite !Nat2Z.id.
  rewrite skipn_app, skipn_all, Nat.sub_diag. simpl. apply firstn_all.
Qed.

(** A flag is the two dashes before its key. *)
Lemma flag_key (arg : jsstring) :
  startsWith arg (js "--") = true ->
  arg = js "--" ++ slice arg 2 (len arg).
Proof.
  intros Hs. apply startsWith_split in Hs. destruct Hs as [rest ->].
  f_equal. symmetry. apply (slice_to_end (js "--") rest).
Qed.

Lemma getArg_setOwn (acc : Args) (k key : jsstring) (v : ArgValue) :
  getArg (setOwn acc k v) key
  = if eqb k key then Some v else getArg acc key.
Proof.
  induction acc as [|[k' v'] acc IH]; simpl.
  - destruct (eqb k key); reflexivity.
  - destruct (eqb k' k) eqn:E; simpl.
    + apply eqb_eq in E. subst k'. destruct (eqb k key); reflexivity.
    + rewrite IH. destruct (eqb k' key) eqn:E'; [|reflexivity].
      apply eqb_eq in E'. subst k'. destruct (eqb k key) eqn:E2; [|reflexivity].
      apply eqb_eq in E2. subst k. rewrite eqb_refl in E. discriminate.
Qed.

Lemma getArg_setArg_other (acc : Args) (k key : jsstring) (v : ArgValue) :
  k <> key -> getArg (setArg acc k v) key = getArg acc key.
Proof.
  intros Hk. unfold setArg. destruct (eqb k (js "__proto__")); [reflexivity|].
  rewrite getArg_setOwn. apply eqb_neq in Hk. rewrite Hk. reflexivity.
Qed.

Lemma getArg_setArg_same (acc : Args) (key : jsstring) (v : ArgValue) :
  key <> js "__proto__" -> getArg (setArg acc key v) key = Some v.
Proof.
  intros Hk. unfold setArg. apply eqb_neq in Hk. rewrite Hk.
  rewrite getArg_setOwn, eqb_refl. reflexivity.
Qed.

Lemma getArg_setArg_proto (acc : Args) (k : jsstring) (v : ArgValue) :
  getArg (setArg acc k v) (js "__proto__") = getArg acc (js "__proto__").
Proof.
  unfold setArg. destruct (eqb k (js "__proto__")) eqn:E; [reflexivity|].
  rewrite getArg_setOwn, E. reflexivity.
Qed.

(** Arguments other than the flag of [key] leave its entry alone. *)
Lemma parseArgsFrom_absent (key : jsstring) (argv : list jsstring) :
  forall acc,
    ~ In (js "--" ++ key) argv ->
    getArg (parseArgsFrom acc argv) key = getArg acc key.
Proof.
  induction argv as [|arg rest IH]; intros acc Hnot; [reflexivity|].
  cbn [parseArgsFrom]. rewrite IH by (intros Hin; apply Hnot; right; exact Hin).
  destruct (startsWith arg (js "--")) eqn:Hs; [|reflexivity].
  cbn [negb]. apply getArg_setArg_other. intros Hk. apply Hnot. left.
  rewrite (flag_key arg Hs), Hk. reflexivity.
Qed.

Lemma parseArgsFrom_proto (argv : list jsstring) :
  forall acc,
    getArg (parseArgsFrom acc argv) (js "__proto__")
    = getArg acc (js "__proto__").
Proof.
  induction argv as [|arg rest IH]; intros acc; [reflexivity|].
  cbn [parseArgsFrom]. rewrite IH.
  destruct (negb (startsWith arg (js "--"))); [reflexivity|].
  apply getArg_setArg_proto.
Qed.

Lemma parseArgsFrom_last (key : jsstring) (pre post : list jsstring) :
  forall acc,
    key <> js "__proto__" ->
    ~ In (js "--" ++ key) post ->
    getArg (parseArgsFrom acc (pre ++ (js "--" ++ key) :: post)) key
    = Some (argValue post).
Proof.
  induction pre as [|arg pre IH]; intros acc Hkey Hnot.
  - cbn [app parseArgsFrom]. rewrite parseArgsFrom_absent by exact Hnot.
    rewrite (startsWith_app (js "--") key). cbn [negb].
    change 2 with (len (js "--")). rewrite slice_to_end.
    apply getArg_setArg_same, Hkey.
  - cbn [app parseArgsFrom]. apply IH; assumption.
Qed.

(** The last place of a member of a list. *)
Lemma in_split_last (x : jsstring) (l : list jsstring) :
  In x l -> exists pre post, l = pre ++ x :: post /\ ~ In x post.
Proof.
  induction l as [|y l IH]; [intros []|]. intros Hin.
  destruct (in_dec (list_eq_dec N.eq_dec) x l) as [Hl|Hl].
  - destruct (IH Hl) as (pre & post & -> & Hpost).
    exists (y :: pre), post. split; [reflexivity | exact Hpost].
  - destruct Hin as [->|Hin]; [|contradiction].
    exists [], l. split; [reflexivity | exact Hl].
Qed.

(** X19. What [parseArgs] stores under a key: nothing unless the flag
    of the key is among the arguments (and nothing ever under
    [__proto__]); otherwise what the last occurrence of the flag gives,
    which is the argument after it when that is a non-empty string that
    is not itself a flag, and [true] otherwise. *)
Theorem parseArgs_reads_last_flag (argv : list jsstring) (key : jsstring) :
  (getArg (parseArgs argv) key = None
   <-> key = js "__proto__" \/ ~ In (js "--" ++ key) argv)
  /\ (forall pre post,
         argv = pre ++ (js "--" ++ key) :: post ->
         ~ In (js "--" ++ key) post ->
         key <> js "__proto__" ->
         getArg (parseArgs argv) key = Some (argValue post))
  /\ (forall text,
         getArg (parseArgs argv) key = Some (Given text) ->
         truthy text = true
         /\ startsWith text (js "--") = false
         /\ exists pre post, argv = pre ++ (js "--" ++ key) :: text :: post).
Proof.
  assert (Hlast : forall pre post,
             argv = pre ++ (js "--" ++ key) :: post ->
             ~ In (js "--" ++ key) post ->
             key <> js "__proto__" ->
             getArg (parseArgs argv) key = Some (argValue post)).
  { intros pre post -> Hnot Hkey. apply parseArgsFrom_last; assumption. }
  assert (Hcases : key = js "__proto__" \/ ~ In (js "--" ++ key) argv
                   \/ (key <> js "__proto__"
                       /\ exists pre post,
                            argv = pre ++ (js "--" ++ key) :: post
                            /\ ~ In (js "--" ++ key) post)).
  { destruct (eqb key (js "__proto__")) eqn:E;
      [left; apply eqb_eq, E|]. apply eqb_neq in E. right.
    destruct (in_dec (list_eq_dec N.eq_dec) (js "--" ++ key) argv) as [Hin|Hin];
      [|left; exact Hin].
    right. split; [exact E|].
    destruct (in_split_last _ _ Hin) as (pre & post & Hargv & Hpost).
    exists pre, post. split; assumption. }
  assert (Hnone : key = js "__proto__" \/ ~ In (js "--" ++ key) argv ->
                  getArg (parseArgs argv) key = None).
  { intros [->|Hnot].
    - apply (parseArgsFrom_proto argv []).
    - apply (parseArgsFrom_absent key argv [] Hnot). }
  split; [|split; [exact Hlast|]].
  - split; [|exact Hnone]. intros Hget.
    destruct Hcases as [Hk|[Hnot|(Hk & pre & post & Hargv & Hpost)]]; auto.
    rewrite (Hlast pre post Hargv Hpost Hk) in Hget. discriminate.
  - intros text Hget.
    destruct Hcases as [Hk|[Hnot|(Hk & pre & post & Hargv & Hpost)]].
    + rewrite Hnone in Hget by (left; exact Hk). discriminate.
    + rewrite Hnone in Hget by (right; exact Hnot). discriminate.
    + rewrite (Hlast pre post Hargv Hpost Hk) in Hget.
      destruct post as [|next post]; [discriminate|]. cbn [argValue] in Hget.
      destruct (truthy next) eqn:Ht; [|discriminate].
      destruct (startsWith next (js "--")) eqn:Hs; [discriminate|].
      injection Hget as <-. repeat split; try assumption.
      exists pre, post. exact Hargv.
Qed.

(** The arguments of [Ex3]: the second [--url] wins. *)
Lemma parseArgs_reads_last_flag_witness :
  getArg (parseArgs Ex3.argv) (js "url")
  = Some (Given (js "https://x.com/about")).
Proof.
  apply (proj1 (proj2 (parseArgs_reads_last_flag Ex3.argv (js "url")))
               (firstn 7 Ex3.argv) [js "https://x.com/about"]).
  - reflexivity.
  - intros [E|[]]. discriminate E.
  - discriminate.
Defined.

(** The seed paths are read, and a flag followed by a flag stands for
    [true]. *)
Example parseArgs_at_work :
  getArg (parseArgs Ex3.argv) (js "seedPaths") = Some (Given (js "about, /"))
  /\ getArg (parseArgs Ex3.argv) (js "renderWithBrowser") = Some Flag
  /\ getArg (parseArgs Ex3.argv) (js "output") = None.
Proof. repeat split. Qed.

(** ** Views and seeds *)

Section SplitFacts.

Variable sep : codeunit.

Lemma splitOn_cons (s : jsstring) :
  exists piece pieces, splitOn sep s = piece :: pieces.
Proof.
  induction s as [|c s (piece & pieces & IH)]; simpl; [eauto|].
  destruct (N.eqb c sep); [eauto|]. rewrite IH. eauto.
Qed.

(** No piece holds the separator, and the pieces hold units of the
    string only. *)
Lemma splitOn_pieces (s : jsstring) :
  Forall (Forall (fun c => c <> sep /\ In c s)) (splitOn sep s).
Proof.
  induction s as [|c s IH]; simpl; [repeat constructor|].
  assert (Hweak : Forall (Forall (fun x => x <> sep /\ In x (c :: s)))
                         (splitOn sep s)).
  { eapply Forall_impl; [|exact IH]. intros piece Hpiece.
    eapply Forall_impl; [|exact Hpiece]. intros x [Hx Hin].
    split; [exact Hx | right; exact Hin]. }
  destruct (N.eqb c sep) eqn:E; [constructor; [constructor | exact Hweak]|].
  destruct (splitOn sep s) as [|piece pieces].
  - repeat constructor. apply N.eqb_neq, E.
  - inversion Hweak as [|? ? Hpiece Hpieces]; subst.
    constructor; [|exact Hpieces].
    constructor; [|exact Hpiece]. split; [apply N.eqb_neq, E | left; reflexivity].
Qed.

Lemma splitOn_plain (a : jsstring) :
  Forall (fun c => c <> sep) a -> splitOn sep a = [a].
Proof.
  induction 1 as [|c a Hc _ IH]; [reflexivity|]. simpl.
  apply N.eqb_neq in Hc. rewrite Hc, IH. reflexivity.
Qed.

Lemma splitOn_app (a b : jsstring) :
  Forall (fun c => c <> sep) a ->
  splitOn sep (a ++ sep :: b) = a :: splitOn sep b.
Proof.
  induction 1 as [|c a Hc _ IH]; simpl.
  - rewrite N.eqb_refl. reflexivity.
  - apply N.eqb_neq in Hc. rewrite Hc, IH. reflexivity.
Qed.

(** [split] undoes [join], on pieces without the separator. *)
Lemma splitOn_join (l : list jsstring) :
  l <> [] ->
  Forall (Forall (fun c => c <> sep)) l ->
  splitOn sep (join [sep] l) = l.
Proof.
  intros Hl Hall. induction Hall as [|a l Ha Hall IH]; [contradiction|].
  destruct l as [|b l].
  - simpl. apply splitOn_plain, Ha.
  - change (join [sep] (a :: b :: l)) with (a ++ sep :: join [sep] (b :: l)).
    rewrite splitOn_app by exact Ha. rewrite IH by discriminate. reflexivity.
Qed.

End SplitFacts.

(** The two ends of a string, checked by evaluation. *)
Lemma edgesOutside_check (C : codeunit -> bool) (s : jsstring) :
  match s with
  | [] => true
  | c :: _ => negb (C c) && negb (C (last s c))
  end = true ->
  edgesOutside C s.
Proof.
  destruct s as [|c s]; intros Hcheck.
  - split; [intros ? ? E; discriminate|]. intros t x E.
    destruct t; discriminate.
  - apply andb_true_iff in Hcheck. destruct Hcheck as [Hfirst Hlast].
    apply negb_true_iff in Hfirst, Hlast. split.
    + intros x t E. injection E as <- _. exact Hfirst.
    + intros t x E. rewrite E, last_last in Hlast. exact Hlast.
Qed.

Lemma edgesOutside_app (C : codeunit -> bool) (a b : jsstring) :
  truthy a = true -> truthy b = true ->
  edgesOutside C a -> edgesOutside C b ->
  forall mid, edgesOutside C (a ++ mid ++ b).
Proof.
  intros Ha Hb [Hfirst _] [_ Hlast] mid. split.
  - destruct a as [|c a]; [discriminate|]. intros x t E.
    injection E as <- _. apply (Hfirst c a eq_refl).
  - intros t x E. destruct b as [|y b] using rev_ind; [discriminate|].
    rewrite !app_assoc in E. apply app_inj_tail in E. destruct E as [_ <-].
    apply (Hlast b y eq_refl).
Qed.

Lemma plainName_trim (s : jsstring) :
  truthy (trim s) = true ->
  Forall (fun c => c <> COMMA /\ c <> EQUALS) s ->
  plainName (trim s).
Proof.
  intros Ht Hs. split; [exact Ht|]. split; [apply trim_edges|].
  apply Forall_trim, Hs.
Qed.

(** A view read from an entry without comma is plain. *)
Lemma parseSpaView_plain (pair : jsstring) (view : Config.SpaView) :
  Forall (fun c => c <> COMMA) pair ->
  parseSpaView pair = Some view ->
  plainView view.
Proof.
  intros Hpair. unfold parseSpaView.
  pose proof (splitOn_pieces EQUALS pair) as Hpieces.
  assert (Hplain : forall piece,
             Forall (fun c => c <> EQUALS /\ In c pair) piece ->
             Forall (fun c => c <> COMMA /\ c <> EQUALS) piece).
  { intros piece Hpiece. eapply Forall_impl; [|exact Hpiece].
    intros c [Hc Hin]. split; [|exact Hc].
    rewrite Forall_forall in Hpair. apply Hpair, Hin. }
  destruct (splitOn EQUALS pair) as [|idPart [|labelPart rest]];
    [discriminate..|].
  inversion Hpieces as [|? ? Hid Hrest]; subst.
  inversion Hrest as [|? ? Hlabel _]; subst.
  destruct (negb (truthy idPart) || negb (truthy labelPart)); [discriminate|].
  destruct (truthy (trim idPart)) eqn:Ei; [|discriminate].
  destruct (truthy (trim labelPart)) eqn:El; [|discriminate].
  cbn [negb orb]. intros Hview. injection Hview as <-.
  split; cbn [Config.id Config.label]; apply plainName_trim; auto.
Qed.

Lemma entriesOf_plain (text : jsstring) :
  Forall (fun pair => truthy pair = true /\ Forall (fun c => c <> COMMA) pair)
         (entriesOf text).
Proof.
  unfold entriesOf. apply Forall_forall. intros pair Hin.
  apply filter_In in Hin. destruct Hin as [Hin Ht]. split; [exact Ht|].
  apply in_map_iff in Hin. destruct Hin as (piece & <- & Hpiece).
  apply Forall_trim.
  pose proof (splitOn_pieces COMMA text) as Hpieces.
  rewrite Forall_forall in Hpieces.
  eapply Forall_impl; [|apply (Hpieces piece Hpiece)].
  intros c [Hc _]. exact Hc.
Qed.

(** X20. [parseSpaViews] throws on [true] and on nothing else; every
    view it returns has an identifier and a label that are not empty,
    have no white space at their ends, and hold neither a comma nor an
    equals sign. *)
Theorem parseSpaViews_plain (input : option ArgValue) :
  (parseSpaViews input = None <-> input = Some Flag)
  /\ (forall views,
         parseSpaViews input = Some views -> Forall plainView views).
Proof.
  split.
  - destruct input as [[text|]|]; simpl.
    + destruct (negb (truthy text)); split; discriminate.
    + split; reflexivity.
    + split; discriminate.
  - intros views. destruct input as [[text|]|]; simpl;
      [|discriminate | intros Hv; injection Hv as <-; constructor].
    destruct (negb (truthy text));
      intros Hv; injection Hv as <-; [constructor|].
    apply Forall_forall. intros view Hin. apply in_flat_map in Hin.
    destruct Hin as (pair & Hpair & Hin).
    pose proof (entriesOf_plain text) as Hentries.
    rewrite Forall_forall in Hentries. destruct (Hentries pair Hpair) as [_ Hc].
    destruct (parseSpaView pair) as [v|] eqn:Eview; [|contradiction].
    destruct Hin as [<-|[]]. exact (parseSpaView_plain pair v Hc Eview).
Qed.

Lemma parseSpaViews_plain_witness :
  parseSpaViews
    (Some (Given (js " home = Home page ,=x,,story=Her story=more")))
  = Some Ex3.views
  /\ Forall plainView Ex3.views.
Proof.
  split; [vm_compute; reflexivity|].
  apply (proj2 (parseSpaViews_plain
                  (Some (Given
                           (js " home = Home page ,=x,,story=Her story=more"))))).
  vm_compute. reflexivity.
Defined.

Lemma plainName_check (s : jsstring) :
  truthy s = true ->
  match s with
  | [] => true
  | c :: _ => negb (isWhiteSpace c) && negb (isWhiteSpace (last s c))
  end = true ->
  forallb (fun c => negb (N.eqb c COMMA) && negb (N.eqb c EQUALS)) s = true ->
  plainName s.
Proof.
  intros Ht Hedges Hunits. split; [exact Ht|].
  split; [apply edgesOutside_check, Hedges|].
  apply Forall_forall. intros c Hin.
  rewrite forallb_forall in Hunits. specialize (Hunits c Hin).
  apply andb_true_iff in Hunits. destruct Hunits as [Hc He].
  apply negb_true_iff in Hc, He. split; apply N.eqb_neq; assumption.
Qed.

Lemma viewText_parsed (view : Config.SpaView) :
  plainView view -> parseSpaView (viewText view) = Some view.
Proof.
  destruct view as [id label]. intros [(Hi & Hie & Hic) (Hl & Hle & Hlc)].
  cbn [Config.id Config.label] in *. unfold parseSpaView, viewText.
  cbn [Config.id Config.label app].
  rewrite splitOn_app
    by (eapply Forall_impl; [|exact Hic]; intros c [_ Hc]; exact Hc).
  rewrite splitOn_plain
    by (eapply Forall_impl; [|exact Hlc]; intros c [_ Hc]; exact Hc).
  rewrite Hi, Hl. cbn [negb orb].
  rewrite (trim_fixed id Hie), (trim_fixed label Hle), Hi, Hl. reflexivity.
Qed.

Lemma viewText_entry (view : Config.SpaView) :
  plainView view ->
  truthy (viewText view) = true
  /\ trim (viewText view) = viewText view
  /\ Forall (fun c => c <> COMMA) (viewText view).
Proof.
  intros [(Hi & Hie & Hic) (Hl & Hle & Hlc)]. unfold viewText.
  split; [|split].
  - destruct (Config.id view); [discriminate | reflexivity].
  - apply trim_fixed, edgesOutside_app; assumption.
  - apply Forall_app. split; [|apply Forall_app; split].
    + eapply Forall_impl; [|exact Hic]. intros c [Hc _]. exact Hc.
    + repeat constructor. discriminate.
    + eapply Forall_impl; [|exact Hlc]. intros c [Hc _]. exact Hc.
Qed.

(** X21. [parseSpaViews] reads back the views written as
    [id=label,id=label,...], when their identifiers and labels are
    plain. *)
Theorem parseSpaViews_reads_back (views : list Config.SpaView) :
  Forall plainView views ->
  parseSpaViews (Some (Given (join [COMMA] (List.map viewText views))))
  = Some views.
Proof.
  intros Hviews. destruct views as [|view views]; [reflexivity|].
  assert (Hentries : Forall (fun entry =>
                               truthy entry = true /\ trim entry = entry
                               /\ Forall (fun c => c <> COMMA) entry)
                            (List.map viewText (view :: views))).
  { apply Forall_forall. intros entry Hin. apply in_map_iff in Hin.
    destruct Hin as (v & <- & Hv). rewrite Forall_forall in Hviews.
    apply viewText_entry, Hviews, Hv. }
  assert (Htext : truthy (join [COMMA] (List.map viewText (view :: views)))
                  = true).
  { inversion Hentries as [|? ? (Ht & _) _]; subst.
    cbn [List.map join]. destruct (viewText view); [discriminate|].
    destruct (List.map viewText views); reflexivity. }
  unfold parseSpaViews. rewrite Htext. cbn [negb]. f_equal.
  unfold entriesOf. rewrite splitOn_join;
    [|discriminate
     |eapply Forall_impl; [|exact Hentries]; intros e (_ & _ & He); exact He].
  clear Htext. revert Hviews Hentries. generalize (view :: views).
  induction l as [|v l IH]; intros Hviews Hentries; [reflexivity|].
  inversion Hviews as [|? ? Hv Hl]; subst.
  inversion Hentries as [|? ? (Ht & Htrim & _) Hes]; subst.
  cbn [List.map filter]. rewrite Htrim, Ht. cbn [flat_map].
  rewrite (viewText_parsed v Hv), (IH Hl Hes). reflexivity.
Qed.

Lemma parseSpaViews_reads_back_witness :
  parseSpaViews (Some (Given (js "home=Home page,story=Her story")))
  = Some Ex3.views.
Proof.
  apply (parseSpaViews_reads_back Ex3.views).
  repeat first
    [ apply Forall_nil
    | apply Forall_cons;
      [split; apply plainName_check; vm_compute; reflexivity|] ].
Defined.

Lemma fold_add_spec (values : list jsstring) :
  forall acc,
    NoDup acc ->
    NoDup (fold_left add values acc)
    /\ (exists more, fold_left add values acc = acc ++ more)
    /\ (forall x, In x (fold_left add values acc) <-> In x acc \/ In x values).
Proof.
  induction values as [|v values IH]; intros acc Hacc; simpl.
  - split; [exact Hacc|]. split; [exists []; symmetry; apply app_nil_r|].
    intros x. tauto.
  - destruct (IH (add acc v) (NoDup_add acc v Hacc))
      as (Hnd & (more & Hmore) & Hin).
    split; [exact Hnd|]. split.
    + rewrite Hmore. unfold add. destruct (has acc v); [eauto|].
      rewrite <- app_assoc. eauto.
    + intros x. rewrite Hin, In_add. intuition auto.
Qed.

(** [Array.from(new Set(values))] keeps the first of equal values. *)
Lemma distinct_spec (values : list jsstring) :
  NoDup (distinct values)
  /\ (forall x, In x (distinct values) <-> In x values)
  /\ (forall v rest, values = v :: rest ->
                     exists more, distinct values = v :: more).
Proof.
  unfold distinct.
  destruct (fold_add_spec values [] (NoDup_nil _)) as (Hnd & _ & Hin).
  split; [exact Hnd|]. split; [intros x; rewrite Hin; simpl; tauto|].
  intros v rest ->. cbn [fold_left]. change (add [] v) with [v].
  destruct (fold_add_spec rest [v]) as (_ & (more & Hmore) & _);
    [repeat constructor; intros []|].
  exists more. exact Hmore.
Qed.

Section SeedFacts.

Context `{Platform}.

Variable encodeURIComponent : jsstring -> option jsstring.

Lemma keepTruthy_normal (value : jsstring) :
  Forall normalLink (keepTruthy (normalizeUrl value)).
Proof.
  unfold keepTruthy, normalizeUrl.
  destruct (parseURL value) as [u|] eqn:Eu; [|constructor].
  destruct (truthy (URL.toString (normalizeRecord u))) eqn:Et; constructor;
    [|constructor].
  split; [exact Et|]. exists value, u.
  split; [exact Eu|]. split; [reflexivity | apply fragment_normalizeRecord].
Qed.

Lemma normalSeeds_spec (seeds : list jsstring) :
  NoDup (normalSeeds seeds)
  /\ Forall normalLink (normalSeeds seeds)
  /\ (forall start rest n,
         seeds = start :: rest ->
         normalizeUrl start = Some n -> truthy n = true ->
         exists more, normalSeeds seeds = n :: more).
Proof.
  unfold normalSeeds.
  set (values := flat_map (fun value => keepTruthy (normalizeUrl value)) seeds).
  destruct (distinct_spec values) as (Hnd & Hin & Hhead).
  split; [exact Hnd|]. split.
  - apply Forall_forall. intros x Hx. apply Hin in Hx. subst values.
    apply in_flat_map in Hx. destruct Hx as (value & _ & Hx).
    pose proof (keepTruthy_normal value) as Hall.
    rewrite Forall_forall in Hall. apply Hall, Hx.
  - intros start rest n -> Hn Ht. subst values. cbn [flat_map] in Hhead |- *.
    rewrite Hn in Hhead |- *. cbn [keepTruthy] in Hhead |- *.
    rewrite Ht in Hhead |- *. apply (Hhead n _ eq_refl).
Qed.

Lemma pushSeeds_keeps (origin : jsstring) (segments : list jsstring) :
  forall seeds out,
    pushSeeds origin segments seeds = Some out ->
    exists more, out = seeds ++ more.
Proof.
  induction segments as [|segment rest IH]; intros seeds out; simpl.
  - intros Hout. injection Hout as <-. exists []. symmetry. apply app_nil_r.
  - destruct (seedCandidate origin segment) as [candidate|]; [|discriminate].
    intros Hout. apply IH in Hout. destruct Hout as [more ->].
    rewrite <- app_assoc. eauto.
Qed.

(** The seeds of the start URL and the seed paths. *)
Lemma buildSeedUrls_spec (seedInput : option ArgValue)
  (startUrl origin : jsstring) (seeds : list jsstring) :
  buildSeedUrls seedInput startUrl origin = Some seeds ->
  NoDup seeds
  /\ Forall normalLink seeds
  /\ (forall n, normalizeUrl startUrl = Some n -> truthy n = true ->
                exists more, seeds = n :: more).
Proof.
  assert (Hgen : forall l rest,
             l = startUrl :: rest ->
             NoDup (normalSeeds l)
             /\ Forall normalLink (normalSeeds l)
             /\ (forall n, normalizeUrl startUrl = Some n -> truthy n = true ->
                           exists more, normalSeeds l = n :: more)).
  { intros l rest Hl. destruct (normalSeeds_spec l) as (Hnd & Hall & Hhead).
    split; [exact Hnd|]. split; [exact Hall|].
    intros n Hn Ht. exact (Hhead startUrl rest n Hl Hn Ht). }
  unfold buildSeedUrls. destruct seedInput as [[text|]|]; [|discriminate|].
  - destruct (negb (truthy text)).
    + intros Hs. injection Hs as <-. apply (Hgen _ [] eq_refl).
    + destruct (pushSeeds origin (entriesOf text) [startUrl]) as [pushed|]
        eqn:Ep; [|discriminate].
      intros Hs. injection Hs as <-. apply pushSeeds_keeps in Ep.
      destruct Ep as [more ->]. apply (Hgen _ more eq_refl).
  - intros Hs. injection Hs as <-. apply (Hgen _ [] eq_refl).
Qed.

Lemma buildSpaViewUrls_spec (spaViews : list Config.SpaView)
  (origin : jsstring) :
  forall urls,
    buildSpaViewUrls encodeURIComponent spaViews origin = Some urls ->
    Forall normalLink urls /\ len urls <= len spaViews.
Proof.
  induction spaViews as [|view rest IH]; intros urls; simpl.
  - intros Hu. injection Hu as <-. split; [constructor | reflexivity].
  - destruct (encodeURIComponent (Config.id view)) as [encoded|];
      [|discriminate].
    destruct (buildSpaViewUrls encodeURIComponent rest origin) as [more|];
      [|discriminate].
    intros Hu. injection Hu as <-. destruct (IH more eq_refl) as [Hall Hlen].
    split.
    + apply Forall_app. split; [apply keepTruthy_normal | exact Hall].
    + assert (Hone : forall o, (length (keepTruthy o) <= 1)%nat)
        by (intros [n|]; [simpl; destruct (truthy n)|]; simpl; lia).
      match goal with
      | |- context [keepTruthy ?o] => specialize (Hone o)
      end.
      unfold len in *. rewrite length_app.
      change (length (view :: rest)) with (S (length rest)). lia.
Qed.

End SeedFacts.

(** X22. The seeds that [buildConfig] computes are pairwise distinct,
    and each is a non-empty serialised normal form without fragment;
    the first of them is the normal form of the start URL, when that is
    not empty. *)
Theorem seedUrls_distinct_normal `{Platform}
  (encodeURIComponent : jsstring -> option jsstring) (args : Args)
  (normalizedStart origin : jsstring) (seeds : list jsstring) :
  seedUrlsOf encodeURIComponent args normalizedStart origin = Some seeds ->
  NoDup seeds
  /\ Forall normalLink seeds
  /\ (forall n, normalizeUrl normalizedStart = Some n -> truthy n = true ->
                exists more, seeds = n :: more).
Proof.
  unfold seedUrlsOf.
  destruct (parseSpaViews (getArg args (js "spaViews"))) as [spaViews|];
    [|discriminate].
  destruct (buildSpaViewUrls encodeURIComponent spaViews origin)
    as [spaViewUrls|] eqn:Espa; [|discriminate].
  destruct (buildSeedUrls (getArg args (js "seedPaths")) normalizedStart origin)
    as [baseSeedUrls|] eqn:Ebase; [|discriminate].
  intros Hs. injection Hs as <-.
  apply buildSpaViewUrls_spec in Espa. destruct Espa as [Hspa _].
  apply buildSeedUrls_spec in Ebase. destruct Ebase as (_ & Hbase & Hhead).
  destruct (distinct_spec (baseSeedUrls ++ spaViewUrls)) as (Hnd & Hin & Hfirst).
  split; [exact Hnd|]. split.
  - apply Forall_forall. intros x Hx. apply Hin in Hx.
    assert (Hall : Forall normalLink (baseSeedUrls ++ spaViewUrls))
      by (apply Forall_app; split; assumption).
    rewrite Forall_forall in Hall. apply Hall, Hx.
  - intros n Hn Ht. destruct (Hhead n Hn Ht) as [more ->].
    apply (Hfirst n (more ++ spaViewUrls) eq_refl).
Qed.

Lemma seedUrls_distinct_normal_witness :
  let seeds :=
    [js "https://x.com/about"; js "https://x.com/";
     js "https://x.com/?__spaView=home"; js "https://x.com/?__spaView=story"] in
  @seedUrlsOf Ex.online Ex3.encode (parseArgs Ex3.argv)
              (js "https://x.com/about") (js "https://x.com")
  = Some seeds
  /\ NoDup seeds
  /\ Forall (@normalLink Ex.online) seeds.
Proof.
  intros seeds.
  assert (Hseeds : @seedUrlsOf Ex.online Ex3.encode (parseArgs Ex3.argv)
                     (js "https://x.com/about") (js "https://x.com")
                   = Some seeds)
    by (vm_compute; reflexivity).
  split; [exact Hseeds|].
  destruct (@seedUrls_distinct_normal Ex.online Ex3.encode
              (parseArgs Ex3.argv) (js "https://x.com/about")
              (js "https://x.com") seeds Hseeds) as (Hnd & Hall & _).
  split; assumption.
Defined.

(** X23. A configuration whose concurrency is the one [buildConfig]
    clamps makes batches of one to five URLs, whatever number the
    command line gave. *)
Theorem built_batches_of_one_to_five `{Platform} (config : Config.t)
  (num : option Q) :
  Config.concurrency config = Config.concurrencyOf num ->
  1 <= batchMax config <= 5
  /\ forall st,
       continues config st = true ->
       1 <= len (fst (splice0 (queue st) (Config.concurrency config))) <= 5.
Proof.
  intros Hc. destruct (concurrencyOf_range num) as [Hlo Hhi].
  rewrite <- Hc in Hlo, Hhi.
  assert (Hint : 1 <= toInteger (Config.concurrency config) <= 5).
  { split; [apply toInteger_ge_1, Hlo|].
    assert (H5 : (inject_Z (toInteger (Config.concurrency config)) <= 5)%Q).
    { eapply Qle_trans; [apply toInteger_le|exact Hhi].
      eapply Qle_trans; [|exact Hlo]. discriminate. }
    change 5%Q with (inject_Z 5) in H5. rewrite <- Zle_Qle in H5. exact H5. }
  split; [unfold batchMax; lia|].
  intros st Hcont. apply continues_spec in Hcont. destruct Hcont as [Hq _].
  unfold splice0. cbn [fst]. unfold len in *.
  rewrite length_firstn, Nat2Z.inj_min, Z2Nat.id by lia.
  lia.
Qed.

Lemma built_batches_of_one_to_five_witness :
  1 <= @batchMax Ex2.tightConfig <= 5.
Proof.
  apply (@built_batches_of_one_to_five Ex.online Ex2.tightConfig (Some 2%Q)).
  reflexivity.
Defined.

(** X24. With a concurrency of at least one, [main] ends, and in one of
    two ways: with exit code 0, no error and one file written, at the
    output path, holding a dataset of at least one page; or with exit
    code 1, one error message and nothing written. *)
Theorem main_ends_one_way `{Platform} (config : Config.t) :
  (1 <= Config.concurrency config)%Q ->
  exists fuel,
    forall fuel', (fuel <= fuel')%nat ->
      exists out,
        main fuel' (inr config) = Some out
        /\ ((exitCode out = 0
             /\ errors out = []
             /\ exists dataset,
                  written out = [(Config.outputPath config, dataset)]
                  /\ 1 <= Dataset.pagesCrawled (Dataset.metrics dataset))
            \/ (exitCode out = 1
                /\ written out = []
                /\ exists message, errors out = [message])).
Proof.
  intros Hconc.
  set (w := Z.max (len (Config.seedUrls config)) (pageCap config)).
  set (fuel := Z.to_nat (potential config w (initialFrontier config))).
  destruct (crawlLoop_ends config w Hconc (Z.le_max_r _ _) fuel
              (initialFrontier config) (reach_initial config))
    as (st & Hrun & _ & _).
  { simpl. apply Z.le_max_l. }
  { subst fuel. lia. }
  exists fuel. intros fuel' Hle.
  apply (crawlLoop_more_fuel config fuel fuel') in Hrun; [|exact Hle].
  unfold main, crawlSite. rewrite Hrun. cbn [option_map].
  destruct (len (pages st) =? 0) eqn:Elen.
  - eexists. split; [reflexivity|]. right. cbn. eauto.
  - apply Z.eqb_neq in Elen. pose proof (len_nonneg (pages st)) as Hpos.
    destruct (writeOutput (Config.outputPath config)
                          (buildFaqDataset (pages st) config)) as [message|].
    + eexists. split; [reflexivity|]. right. cbn. eauto.
    + eexists. split; [reflexivity|]. left. cbn [exitCode errors written].
      split; [reflexivity|]. split; [reflexivity|].
      eexists. split; [reflexivity|].
      change (Dataset.pagesCrawled
                (Dataset.metrics (buildFaqDataset (pages st) config)))
        with (len (pages st)).
      lia.
Qed.

Lemma main_ends_one_way_witness :
  exists fuel,
    forall fuel', (fuel <= fuel')%nat ->
      exists out,
        @main Ex.online fuel' (inr Ex.siteConfig) = Some out
        /\ ((exitCode out = 0
             /\ errors out = []
             /\ exists dataset,
                  written out = [(Config.outputPath Ex.siteConfig, dataset)]
                  /\ 1 <= Dataset.pagesCrawled (Dataset.metrics dataset))
            \/ (exitCode out = 1
                /\ written out = []
                /\ exists message, errors out = [message])).
Proof.
  apply (@main_ends_one_way Ex.online Ex.siteConfig).
  vm_compute. discriminate.
Defined.
